(** * Statement analysis, expansion and identifier rewriting (src/Statement.js)

    A shallow embedding of the [Statement] class of the bundler: the two
    analysis passes that build the scope tree and classify reads and writes,
    the dependency expansion [expand], and the rename pass
    [replaceIdentifiers]. *)

From Stdlib Require Import String Ascii List Bool Arith ZArith Lia Permutation.
Import ListNotations.
Open Scope string_scope.
Open Scope list_scope.

(** ** JavaScript objects used as string-keyed maps

    [blank()] objects have no prototype; their own keys are enumerated in
    insertion order ([Object.keys]), and assigning to an existing key keeps
    its position.  All keys used here are identifier names. *)
Module Obj.
Definition t (V : Type) : Type := list (string * V).

Definition blank {V : Type} : t V := [].

Fixpoint get {V : Type} (o : t V) (k : string) : option V :=
  match o with
  | [] => None
  | (k', v) :: o' => if String.eqb k' k then Some v else get o' k
  end.

Fixpoint set {V : Type} (o : t V) (k : string) (v : V) : t V :=
  match o with
  | [] => [(k, v)]
  | (k', v') :: o' =>
      if String.eqb k' k then (k', v) :: o' else (k', v') :: set o' k v
  end.

Definition keys {V : Type} (o : t V) : list string := map fst o.

(** [!!o[k]] for objects whose values are themselves objects or [true]. *)
Definition has {V : Type} (o : t V) (k : string) : bool :=
  match get o k with Some _ => true | None => false end.
End Obj.

(** Truthiness of a JavaScript string: only the empty string is falsy. *)
Definition truthy (s : string) : bool := negb (String.eqb s "").

(** [o[k]] for a string-valued object, as a JavaScript condition. *)
Definition truthy_at (o : Obj.t string) (k : string) : bool :=
  match Obj.get o k with Some s => truthy s | None => false end.

(** A property key that is [undefined] is coerced to the string "undefined". *)
Definition key_of (o : option string) : string :=
  match o with Some s => s | None => "undefined" end.

(** ** Syntax nodes

    An ESTree node is an object with scalar attributes and child nodes hanging
    from named properties.  Children are kept in property order; an array
    property contributes one entry per element, all under the array's key.
    [name] is present on identifiers only, [computed] on member expressions,
    [kind] on variable declarations. *)
Record attrs : Type := mkAttrs {
  type : string;
  start : nat;
  end_ : nat;
  name : option string;
  computed : bool;
  kind : string
}.

Unset Elimination Schemes.
Inductive estree : Type :=
| Node (a : attrs) (children : list (string * estree)).
Set Elimination Schemes.

Definition attrs_of (n : estree) : attrs := match n with Node a _ => a end.
Definition children_of (n : estree) : list (string * estree) :=
  match n with Node _ cs => cs end.

Definition type_is (n : estree) (t : string) : bool := String.eqb (type (attrs_of n)) t.

(** [node.k] for a property holding a single node, with its position among
    the children. *)
Fixpoint find_child (k : string) (i : nat) (cs : list (string * estree)) : option (nat * estree) :=
  match cs with
  | [] => None
  | (k', c) :: cs' => if String.eqb k' k then Some (i, c) else find_child k (S i) cs'
  end.

Definition child (k : string) (n : estree) : option estree :=
  option_map snd (find_child k 0 (children_of n)).

(** [node.k] for a property holding an array of nodes. *)
Definition childs (k : string) (n : estree) : list estree :=
  map snd (filter (fun kc => String.eqb (fst kc) k) (children_of n)).

(** A node is identified by the positions leading to it from the
    statement's root node.  The parser can store one node under two
    properties of its parent: the identifier of a shorthand property
    [{ a }] is the [key] and the [value] of the property.  The tree then
    has the node at both places, where the walker meets it once each, and
    two children of a node are one node when nothing tells them apart:
    same type, same range, same name, same children.  The nodes that are
    shared are identifiers, never the binding of a declarator, and carry
    none of the annotations below. *)
Definition path : Type := list nat.

Definition attrs_eqb (a b : attrs) : bool :=
  String.eqb (type a) (type b)
  && Nat.eqb (start a) (start b)
  && Nat.eqb (end_ a) (end_ b)
  && match name a, name b with
     | Some x, Some y => String.eqb x y
     | None, None => true
     | _, _ => false
     end
  && Bool.eqb (computed a) (computed b)
  && String.eqb (kind a) (kind b).

Fixpoint estree_eqb (m n : estree) : bool :=
  match m, n with
  | Node a cs, Node b ds =>
      attrs_eqb a b
      && (fix all (cs ds : list (string * estree)) : bool :=
            match cs, ds with
            | [], [] => true
            | (k, c) :: cs', (l, d) :: ds' => String.eqb k l && estree_eqb c d && all cs' ds'
            | _, _ => false
            end) cs ds
  end.

(** [node === parent.value], for the node [n] that hangs from the property
    [key] of [parent]: it hangs from [value], or it is the node that does.
    (A member expression never shares its [object]: there
    [node === parent.object] is that the node hangs from [object].) *)
Definition is_value (parent : estree) (key : string) (n : estree) : bool :=
  String.eqb key "value"
  || match child "value" parent with
     | Some v => estree_eqb n v
     | None => false
     end.

(** The node reached from [n] along [p]. *)
Fixpoint node_at (n : estree) (p : path) : option estree :=
  match p with
  | [] => Some n
  | i :: p' =>
      match nth_error (children_of n) i with
      | Some kc => node_at (snd kc) p'
      | None => None
      end
  end.

Definition path_eqb (p q : path) : bool :=
  if list_eq_dec Nat.eq_dec p q then true else false.

(** Transient annotations put on nodes by the traversals: the [_scope] tag of
    the analysis and the [_skip] flag of the rename pass. *)
Definition scope_tags : Type := list (path * nat).
Definition skip_flags : Type := list path.

Fixpoint tag_at (tags : scope_tags) (p : path) : option nat :=
  match tags with
  | [] => None
  | (q, s) :: tags' => if path_eqb q p then Some s else tag_at tags' p
  end.

Definition skipped (flags : skip_flags) (p : path) : bool := existsb (path_eqb p) flags.

Definition set_skip (flags : skip_flags) (p : path) : skip_flags :=
  if skipped flags p then flags else p :: flags.

(** ** Errors *)

(** Property accesses of the source that fail on a missing object. *)
Inductive site : Type :=
| FunctionId        (* node.id.name of a function declaration *)
| ClassId           (* node.id.name of a class declaration *)
| DeclaratorId      (* declarator.id.name *)
| FirstDeclarator   (* node.declarations[0] *)
| CatchParam        (* param.name of a catch clause *)
| ParentType        (* parent.type at the root of a walk *)
| MemberObject      (* node.object while unwrapping member accesses *)
| Operand           (* node.left / node.argument of a write *)
| CurrentScope      (* a method of the current scope when it is undefined *)
| ScopeTag          (* redefining the read-only _scope property *)
| ActiveNames.      (* names[...] when the replacement stack is exhausted *)

Record Loc : Type := mkLoc { line : nat; column : nat }.

Inductive error : Type :=
| IllegalReassignment (message : string) (file : string) (loc : Loc)
| TypeError (s : site)
| BufferError.

Definition result (A : Type) : Type := (error + A)%type.

Definition bind {A C : Type} (m : result A) (f : A -> result C) : result C :=
  match m with
  | inl e => inl e
  | inr a => f a
  end.

Notation "x <- m ;; k" := (bind m (fun x => k))
  (at level 61, m at next level, right associativity).

Definition required {A : Type} (s : site) (o : option A) : result A :=
  match o with Some a => inr a | None => inl (TypeError s) end.

(** ** Scope *)

(** Modelled from the spec: the class [Scope] (src/ast/Scope.js is not among
    the sources).  A scope records its parent, its depth (0 for a scope
    without parent), the names declared in it and whether it is a block
    scope.  Scopes are mutable objects reached through references, so they
    live in a heap and a reference is an index into it. *)
Record Scope : Type := mkScope {
  parent : option nat;
  depth : nat;
  declarations : Obj.t estree;
  isBlockScope : bool
}.

Definition scope_heap : Type := list Scope.

Definition deref (h : scope_heap) (s : nat) : option Scope := nth_error h s.

Fixpoint update {A : Type} (l : list A) (i : nat) (f : A -> A) : list A :=
  match l, i with
  | [], _ => []
  | x :: l', O => f x :: l'
  | x :: l', S i' => x :: update l' i' f
  end.

Definition declare (nm : string) (decl : estree) (sc : Scope) : Scope :=
  mkScope (parent sc) (depth sc) (Obj.set (declarations sc) nm decl) (isBlockScope sc).

(** Modelled from the spec: [new Scope({ parent, params, block })], which
    declares the parameters in the new scope; the result is the new scope's
    reference and the extended heap. *)
Definition new_Scope (h : scope_heap) (par : option nat) (params : list estree) (block : bool)
  : nat * scope_heap :=
  let d := match par with
           | Some p => match deref h p with Some ps => S (depth ps) | None => 0 end
           | None => 0
           end in
  let decls := fold_left (fun o prm => Obj.set o (key_of (name (attrs_of prm))) prm)
                         params Obj.blank in
  (List.length h, h ++ [mkScope par d decls block]).

(** Modelled from the spec: a declaration is block-scoped when it is a
    [let] or [const] variable declaration; every other one is
    function-scoped. *)
Definition isBlockDeclaration (decl : estree) : bool :=
  type_is decl "VariableDeclaration"
  && (String.eqb (kind (attrs_of decl)) "let" || String.eqb (kind (attrs_of decl)) "const").

(** Modelled from the spec: the scope in which [addDeclaration] called on
    [s] registers [decl] is [s] itself for a block-scoped declaration,
    otherwise the nearest enclosing scope that is not a block scope (or has
    no parent).  A scope is created after its parent, so the parent chain is
    shorter than the heap, which is the fuel given below. *)
Fixpoint declaring_scope (fuel : nat) (h : scope_heap) (s : nat) (decl : estree) : nat :=
  match fuel with
  | O => s
  | S fuel' =>
      match deref h s with
      | Some sc =>
          if negb (isBlockDeclaration decl) && isBlockScope sc
          then match parent sc with
               | Some p => declaring_scope fuel' h p decl
               | None => s
               end
          else s
      | None => s
      end
  end.

(** Modelled from the spec: [addDeclaration( name, node )] registers the
    name, overwriting a previous declaration of it. *)
Definition addDeclaration (h : scope_heap) (s : nat) (nm : string) (decl : estree) : scope_heap :=
  update h (declaring_scope (List.length h) h s decl) (declare nm decl).

(** Modelled from the spec: [findDefiningScope( name )] is the nearest
    scope, from [s] outward, that declares [nm], if any. *)
Fixpoint findDefiningScope_from (fuel : nat) (h : scope_heap) (s : nat) (nm : string) : option nat :=
  match fuel with
  | O => None
  | S fuel' =>
      match deref h s with
      | Some sc =>
          if Obj.has (declarations sc) nm then Some s
          else match parent sc with
               | Some p => findDefiningScope_from fuel' h p nm
               | None => None
               end
      | None => None
      end
  end.

(** Modelled from the spec: [findDefiningScope( name )], with fuel for the
    whole parent chain. *)
Definition findDefiningScope (h : scope_heap) (s : nat) (nm : string) : option nat :=
  findDefiningScope_from (List.length h) h s nm.

(** Modelled from the spec: [contains( name )] holds when this scope or an
    ancestor declares [nm]. *)
Definition contains (h : scope_heap) (s : nat) (nm : string) : bool :=
  match findDefiningScope h s nm with Some _ => true | None => false end.

(** ** Tree walk *)

Section Each.
Context {A St : Type}.
Variable reverse : bool.
Variable f : nat -> A -> St -> result St.

(** Modelled from the spec: the visit of the children of a node by the
    walker [walk] (src/ast/walk.js is not among the sources), one after the
    other.  The spec leaves open in which order the children are visited, so
    the walk takes it as the parameter [reverse]: document order, or last
    child first. *)

Fixpoint each (i : nat) (l : list A) (s : St) : result St :=
  match l with
  | [] => inr s
  | x :: l' =>
      if reverse
      then s' <- each (S i) l' s ;; f i x s'
      else s' <- f i x s ;; each (S i) l' s'
  end.
End Each.

Section Walk.
Context {St : Type}.
Variable reverse : bool.
Variable enter : estree -> option estree -> string -> path -> St -> result (bool * St).
Variable leave : estree -> path -> St -> result St.

(** Modelled from the spec: the walker [walk] (src/ast/walk.js is not among
    the sources), a depth-first traversal that calls [enter] on a node, then
    visits the node's children, then calls [leave]; when [enter] asks to
    skip, neither the children nor [leave] are run.  The callbacks receive
    the node, its parent, and the identity of the node: the property it
    hangs from and its path. *)
Fixpoint visit (n : estree) (par : option estree) (key : string) (p : path) (s : St)
  {struct n} : result St :=
  r <- enter n par key p s ;;
  if fst r then inr (snd r)
  else
    match n with
    | Node _ cs =>
        s2 <- each reverse
                (fun i kc s' => visit (snd kc) (Some n) (fst kc) (p ++ [i]) s')
                0 cs (snd r) ;;
        leave n p s2
    end.

Definition walk (ast : estree) (s : St) : result St := visit ast None "" [] s.
End Walk.

(** ** Text buffer

    The text-editing buffer is an external package, consumed through this
    interface.  [overwrite] and [insert] can throw; that is [None]. *)
Class TextBuffer (B : Type) : Type := {
  clone : B -> B;
  overwrite : B -> nat -> nat -> string -> option B;
  insert : B -> nat -> string -> option B;
  append : B -> string -> B;
  addSourcemapLocation : B -> nat -> B;
  toString : B -> string
}.

(** ** Module

    The owning module, as far as a statement uses it.  [imports] maps a local
    name to its import specifier, whose [name] is "*" for a namespace import;
    [modifications] maps a name to the statements known to modify it, in
    recorded order.  Statements are objects reached through references (an
    index into the heap of statements of the bundling session). *)
Module ImportSpecifier.
Record t : Type := mk { name : string }.
End ImportSpecifier.

Module Mod.
Record t (B : Type) : Type := mk {
  path : string;
  magicString : B;
  imports : Obj.t ImportSpecifier.t;
  modifications : Obj.t (list nat);
  (** Modelled from the spec: [Module.define] (src/Module.js is not among
      the sources) locates the statements defining a name; [definitions]
      holds them, none for a name the module cannot resolve. *)
  definitions : Obj.t (list nat)
}.
Arguments path {B} _.
Arguments magicString {B} _.
Arguments imports {B} _.
Arguments modifications {B} _.
Arguments definitions {B} _.
End Mod.

(** ** Statement

    The fields of the class, and with them what the class reaches from them:
    the heap [scopes] holding the scope tree rooted at [scope], and the
    annotations [tags] ([_scope]) and [flags] ([_skip]) on the nodes of
    [node]. *)
Record Statement (B : Type) : Type := mkStatement {
  node : estree;
  module : Mod.t B;
  magicString : B;
  scope : nat;
  scopes : scope_heap;
  tags : scope_tags;
  flags : skip_flags;
  defines : Obj.t bool;
  modifies : Obj.t bool;
  dependsOn : Obj.t bool;
  isIncluded : bool;
  leadingComments : list string;
  trailingComment : option string;
  margin : nat * nat;
  isImportDeclaration : bool;
  isExportDeclaration : bool
}.
Arguments mkStatement {B}.
Arguments node {B} _.
Arguments module {B} _.
Arguments magicString {B} _.
Arguments scope {B} _.
Arguments scopes {B} _.
Arguments tags {B} _.
Arguments flags {B} _.
Arguments defines {B} _.
Arguments modifies {B} _.
Arguments dependsOn {B} _.
Arguments isIncluded {B} _.
Arguments leadingComments {B} _.
Arguments trailingComment {B} _.
Arguments margin {B} _.
Arguments isImportDeclaration {B} _.
Arguments isExportDeclaration {B} _.

(** [o[k]] for an object used as a set ([o[k] = true]). *)
Definition flag (o : Obj.t bool) (k : string) : bool :=
  match Obj.get o k with Some b => b | None => false end.

(** [while ( node.type === 'MemberExpression' ) { node = node.object; depth += 1; }] *)
Fixpoint unwrap (n : estree) : result (estree * nat) :=
  match n with
  | Node a cs =>
      if String.eqb (type a) "MemberExpression"
      then (fix object_of (l : list (string * estree)) : result (estree * nat) :=
              match l with
              | [] => inl (TypeError MemberObject)
              | (k, c) :: l' =>
                  if String.eqb k "object"
                  then r <- unwrap c ;; inr (fst r, S (snd r))
                  else object_of l'
              end) cs
      else inr (n, 0)
  end.

Definition name_of (n : estree) : string := key_of (name (attrs_of n)).

Definition is_function (n : estree) : bool :=
  type_is n "FunctionExpression" || type_is n "FunctionDeclaration"
  || type_is n "ArrowFunctionExpression".

Section Analysis.
Context {B : Type} {TB : TextBuffer B}.

(** [getLocation] (src/utils/getLocation.js is not among the sources)
    computes a line and column from a source text and an offset. *)
Variable getLocation : string -> nat -> Loc.

(** The order in which the walker visits the children of a node. *)
Variable reverse : bool.

Definition new_Statement (nd : estree) (ms : B) (md : Mod.t B) : Statement B :=
  let sh := new_Scope [] None [] false in
  mkStatement nd md ms (fst sh) (snd sh) [] [] Obj.blank Obj.blank Obj.blank
              false [] None (0, 0)
              (type_is nd "ImportDeclaration")
              (String.prefix "Export" (type (attrs_of nd))).

(** *** First walk of [analyse]: building the scope tree *)

(** What the first walk changes: the scope heap, the variable [scope], the
    [_scope] tags and the statement's buffer. *)
Record build : Type := mkBuild {
  b_scopes : scope_heap;
  b_scope : option nat;
  b_tags : scope_tags;
  b_magicString : B
}.

(** [scope = scope.parent] *)
Definition parent_of (h : scope_heap) (cur : option nat) : result (option nat) :=
  s <- required CurrentScope cur ;;
  sc <- required CurrentScope (deref h s) ;;
  inr (parent sc).

(** The [switch] of the first walk: the heap after the declarations of the
    node, and the scope the node opens, if any. *)
Definition build_switch (n : estree) (h : scope_heap) (cur : option nat)
  : result (scope_heap * option nat) :=
  if is_function n then
    h1 <- (if type_is n "FunctionDeclaration"
           then s <- required CurrentScope cur ;;
                id <- required FunctionId (child "id" n) ;;
                inr (addDeclaration h s (name_of id) n)
           else inr h) ;;
    let sh := new_Scope h1 cur (childs "params" n) false in
    let h2 := if type_is n "FunctionExpression"
              then match child "id" n with
                   | Some id => addDeclaration (snd sh) (fst sh) (name_of id) n
                   | None => snd sh
                   end
              else snd sh in
    inr (h2, Some (fst sh))
  else if type_is n "BlockStatement" then
    let sh := new_Scope h cur [] true in
    inr (snd sh, Some (fst sh))
  else if type_is n "CatchClause" then
    prm <- required CatchParam (child "param" n) ;;
    let sh := new_Scope h cur [prm] true in
    inr (snd sh, Some (fst sh))
  else if type_is n "VariableDeclaration" then
    h1 <- fold_left (fun acc declarator =>
                       h' <- acc ;;
                       s <- required CurrentScope cur ;;
                       id <- required DeclaratorId (child "id" declarator) ;;
                       inr (addDeclaration h' s (name_of id) n))
                    (childs "declarations" n) (inr h) ;;
    inr (h1, None)
  else if type_is n "ClassDeclaration" then
    s <- required CurrentScope cur ;;
    id <- required ClassId (child "id" n) ;;
    inr (addDeclaration h s (name_of id) n, None)
  else inr (h, None).

Definition build_enter (n : estree) (par : option estree) (key : string) (p : path)
           (st : build) : result (bool * build) :=
  let ms := addSourcemapLocation (b_magicString st) (start (attrs_of n)) in
  r <- build_switch n (b_scopes st) (b_scope st) ;;
  match snd r with
  | Some newScope =>
      match tag_at (b_tags st) p with
      | Some _ => inl (TypeError ScopeTag)
      | None => inr (false, mkBuild (fst r) (Some newScope) ((p, newScope) :: b_tags st) ms)
      end
  | None => inr (false, mkBuild (fst r) (b_scope st) (b_tags st) ms)
  end.

Definition build_leave (n : estree) (p : path) (st : build) : result build :=
  match tag_at (b_tags st) p with
  | Some _ =>
      s <- parent_of (b_scopes st) (b_scope st) ;;
      inr (mkBuild (b_scopes st) s (b_tags st) (b_magicString st))
  | None => inr st
  end.

(** *** Second walk of [analyse]: reads and writes *)

Definition checkForReads (this : Statement B) (h : scope_heap) (deps : Obj.t bool)
           (cur : option nat) (n : estree) (par : option estree) (key : string)
  : result (Obj.t bool) :=
  if type_is n "Identifier" then
    parent <- required ParentType par ;;
    (* disregard the `bar` in `foo.bar` *)
    if type_is parent "MemberExpression" && negb (String.eqb key "object") then inr deps
    (* disregard the `bar` in { bar: foo } *)
    else if type_is parent "Property" && negb (is_value parent key n) then inr deps
    else
      s <- required CurrentScope cur ;;
      let root_or_unresolved :=
        match findDefiningScope h s (name_of n) with
        | None => true
        | Some d => match deref h d with
                    | Some sc => Nat.eqb (depth sc) 0
                    | None => false
                    end
        end in
      if root_or_unresolved && negb (flag (defines this) (name_of n))
      then inr (Obj.set deps (name_of n) true)
      else inr deps
  else inr deps.

Definition minDepth (importSpecifier : ImportSpecifier.t) : nat :=
  if String.eqb (ImportSpecifier.name importSpecifier) "*" then 2 else 1.

Definition reassignment_error (this : Statement B) (root : estree) : error :=
  IllegalReassignment
    ("Illegal reassignment to import '" ++ name_of root ++ "'")%string
    (Mod.path (module this))
    (getLocation (toString (Mod.magicString (module this))) (start (attrs_of root))).

Definition addNode (this : Statement B) (h : scope_heap) (cur : option nat)
           (mods : Obj.t bool) (target : estree) (disallowImportReassignments : bool)
  : result (Obj.t bool) :=
  r <- unwrap target ;;
  let root := fst r in
  let depth := snd r in
  _ <- (if disallowImportReassignments then
          match Obj.get (Mod.imports (module this)) (name_of root) with
          | Some importSpecifier =>
              s <- required CurrentScope cur ;;
              if negb (contains h s (name_of root)) && Nat.ltb depth (minDepth importSpecifier)
              then inl (reassignment_error this root)
              else inr tt
          | None => inr tt
          end
        else inr tt) ;;
  if negb (type_is root "Identifier") then inr mods
  else inr (Obj.set mods (name_of root) true).

Definition checkForWrites (this : Statement B) (h : scope_heap) (mods : Obj.t bool)
           (cur : option nat) (n : estree) : result (Obj.t bool) :=
  if type_is n "AssignmentExpression" then
    left <- required Operand (child "left" n) ;;
    addNode this h cur mods left true
  else if type_is n "UpdateExpression" then
    argument <- required Operand (child "argument" n) ;;
    addNode this h cur mods argument true
  else if type_is n "CallExpression" then
    fold_left (fun acc arg => m <- acc ;; addNode this h cur m arg false)
              (childs "arguments" n) (inr mods)
  else inr mods.

(** The write check in the words of the spec: the candidate write targets
    of a node, each with whether the restriction on imports applies to it;
    the restriction itself, for a root identifier reached at unwrap depth
    [d]; and the recording of a root in [modifies]. *)
Definition write_targets (n : estree) : option (list (estree * bool)) :=
  if type_is n "AssignmentExpression" then option_map (fun t => [(t, true)]) (child "left" n)
  else if type_is n "UpdateExpression" then option_map (fun t => [(t, true)]) (child "argument" n)
  else if type_is n "CallExpression" then Some (map (fun a => (a, false)) (childs "arguments" n))
  else Some [].

Definition restricted (this : Statement B) (h : scope_heap) (s : nat) (root : estree) (d : nat)
  : bool :=
  match Obj.get (Mod.imports (module this)) (name_of root) with
  | Some importSpecifier => negb (contains h s (name_of root)) && Nat.ltb d (minDepth importSpecifier)
  | None => false
  end.

Definition record_write (mods : Obj.t bool) (root : estree) : Obj.t bool :=
  if type_is root "Identifier" then Obj.set mods (name_of root) true else mods.

Definition write_one (this : Statement B) (h : scope_heap) (s : nat)
           (acc : result (Obj.t bool)) (target : estree * bool) (unwrapped : estree * nat)
  : result (Obj.t bool) :=
  m <- acc ;;
  if snd target && restricted this h s (fst unwrapped) (snd unwrapped)
  then inl (reassignment_error this (fst unwrapped))
  else inr (record_write m (fst unwrapped)).

(** What the second walk changes: the variable [scope] and the two sets. *)
Record classify : Type := mkClassify {
  c_scope : option nat;
  c_dependsOn : Obj.t bool;
  c_modifies : Obj.t bool
}.

Definition classify_enter (this : Statement B) (h : scope_heap) (tg : scope_tags)
           (n : estree) (par : option estree) (key : string) (p : path) (st : classify)
  : result (bool * classify) :=
  let cur := match tag_at tg p with Some s => Some s | None => c_scope st end in
  deps <- checkForReads this h (c_dependsOn st) cur n par key ;;
  mods <- checkForWrites this h (c_modifies st) cur n ;;
  inr (false, mkClassify cur deps mods).

Definition classify_leave (h : scope_heap) (tg : scope_tags)
           (n : estree) (p : path) (st : classify) : result classify :=
  match tag_at tg p with
  | Some _ =>
      s <- parent_of h (c_scope st) ;;
      inr (mkClassify s (c_dependsOn st) (c_modifies st))
  | None => inr st
  end.

(** [analyse()].  An exception leaves the walk at once; the statement is
    then not used any further, so the result is the error alone. *)
Definition analyse (this : Statement B) : result (Statement B) :=
  if isImportDeclaration this then inr this (* nothing to analyse *)
  else
    b <- walk reverse build_enter build_leave (node this)
           (mkBuild (scopes this) (Some (scope this)) (tags this) (magicString this)) ;;
    c <- (if negb (isImportDeclaration this)
          then walk reverse
                    (classify_enter this (b_scopes b) (b_tags b))
                    (classify_leave (b_scopes b) (b_tags b))
                    (node this)
                    (mkClassify (b_scope b) (dependsOn this) (modifies this))
          else inr (mkClassify (b_scope b) (dependsOn this) (modifies this))) ;;
    s <- required CurrentScope (c_scope c) ;;
    sc <- required CurrentScope (deref (b_scopes b) s) ;;
    inr (mkStatement (node this) (module this) (b_magicString b)
           (scope this) (b_scopes b) (b_tags b) (flags this)
           (fold_left (fun d nm => Obj.set d nm true) (Obj.keys (declarations sc)) (defines this))
           (c_modifies c) (c_dependsOn c)
           (isIncluded this) (leadingComments this) (trailingComment this) (margin this)
           (isImportDeclaration this) (isExportDeclaration this)).
End Analysis.
Arguments build : clear implicits.

(** ** The rename pass *)

(** [replacement.split( '.' )[0]] *)
Fixpoint first_segment (s : string) : string :=
  match s with
  | EmptyString => EmptyString
  | String c s' => if Ascii.eqb c "."%char then EmptyString else String c (first_segment s')
  end.

(** The 32-bit integer a declaration node or [undefined] converts to: both
    become NaN as numbers, and NaN becomes 0. *)
Definition to_int32 (declaration : option estree) : Z := 0%Z.

(** [~scope.declarations[ name ]], as a condition: a number is truthy when it
    is not 0. *)
Definition complement_is_truthy (declaration : option estree) : bool :=
  negb (Z.eqb (Z.lnot (to_int32 declaration)) 0).

Definition newline : string := String (ascii_of_nat 10) EmptyString.

(** The text inserted after a declaration that declares the names
    [declared]: one assignment for each of them that has an export target. *)
Definition exportInitialisers (bundleExports : Obj.t string) (declared : list string) : string :=
  String.concat ""
    (map (fun nm => (newline ++ key_of (Obj.get bundleExports nm) ++ " = " ++ nm ++ ";")%string)
         (filter (truthy_at bundleExports) declared)).

Section Rename.
Context {B : Type} {TB : TextBuffer B}.
Variable reverse : bool.

(** What the walk of [replaceIdentifiers] changes: the cloned buffer, the
    variable [names] (undefined once the stack is exhausted), the
    replacement stack (top first), [topLevel], and the [_skip] flags on the
    statement's nodes. *)
Record rewrite : Type := mkRewrite {
  w_magicString : B;
  w_names : option (Obj.t string);
  w_replacementStack : list (Obj.t string);
  w_topLevel : bool;
  w_flags : skip_flags
}.

(** The special case of the walk: a variable declaration met while
    [topLevel] holds. *)
Definition export_rewrite (bundleExports : Obj.t string) (n : estree) (p : path)
           (ms : B) (fl : skip_flags) : result (B * skip_flags) :=
  first <- required FirstDeclarator (find_child "declarations" 0 (children_of n)) ;;
  id <- required DeclaratorId (find_child "id" 0 (children_of (snd first))) ;;
  let nm := name_of (snd id) in
  (* a single declarator that needs to be rewritten: replace the whole lot *)
  if Nat.eqb (List.length (childs "declarations" n)) 1 && truthy_at bundleExports nm then
    ms' <- match overwrite ms (start (attrs_of n)) (end_ (attrs_of (snd id)))
                           (key_of (Obj.get bundleExports nm)) with
           | Some b => inr b
           | None => inl BufferError
           end ;;
    inr (ms', set_skip fl (p ++ [fst first; fst id]))
  (* otherwise, insert the `exports.foo = foo` after the declaration *)
  else
    declared <- fold_right (fun declarator acc =>
                              id' <- required DeclaratorId (child "id" declarator) ;;
                              rest <- acc ;;
                              inr (name_of id' :: rest))
                           (inr []) (childs "declarations" n) ;;
    let text := exportInitialisers bundleExports declared in
    match insert ms (end_ (attrs_of n)) text with
    | Some b => inr (b, fl)
    | None => inr (append ms text, fl)
    end.

(** The mapping active inside a scope, and whether it has replacements. *)
Definition scoped_names (names : Obj.t string) (deshadowList : list string) (sc : Scope)
  : Obj.t string * bool :=
  let kept :=
    fold_left (fun acc key =>
                 if negb (Obj.has (declarations sc) key)
                 then (Obj.set (fst acc) key (key_of (Obj.get names key)), true)
                 else acc)
              (Obj.keys names) (Obj.blank, false) in
  fold_left (fun acc nm =>
               if complement_is_truthy (Obj.get (declarations sc) nm)
               then (Obj.set (fst acc) nm (nm ++ "$$")%string, true)
               else acc)
            deshadowList kept.

(** The last part of [enter]: rewriting an identifier that is a reference. *)
Definition rewrite_identifier (n : estree) (par : option estree) (key : string)
           (st : rewrite) : result rewrite :=
  if negb (type_is n "Identifier") then inr st
  else
    parent <- required ParentType par ;;
    if type_is parent "MemberExpression" && negb (computed (attrs_of parent))
       && negb (String.eqb key "object") then inr st
    else if type_is parent "Property" && negb (is_value parent key n) then inr st
    else
      names <- required ActiveNames (w_names st) ;;
      match Obj.get names (name_of n) with
      | Some replacement =>
          if truthy replacement
             && negb (match name (attrs_of n) with
                      | Some nm => String.eqb replacement nm
                      | None => false
                      end)
          then
            match overwrite (w_magicString st) (start (attrs_of n)) (end_ (attrs_of n))
                            replacement with
            | Some b => inr (mkRewrite b (w_names st) (w_replacementStack st)
                                       (w_topLevel st) (w_flags st))
            | None => inl BufferError
            end
          else inr st
      | None => inr st
      end.

(** The part of [enter] for a scope-tagged node, followed by the rewriting
    of the node when it is an identifier. *)
Definition enter_scope (this : Statement B) (deshadowList : list string)
           (n : estree) (par : option estree) (key : string) (p : path) (st1 : rewrite)
  : result (bool * rewrite) :=
  match tag_at (tags this) p with
  | Some s =>
      names <- required ActiveNames (w_names st1) ;;
      sc <- required CurrentScope (deref (scopes this) s) ;;
      let newNames := scoped_names names deshadowList sc in
      if negb (snd newNames)
      then inr (true, mkRewrite (w_magicString st1) (w_names st1)
                                (w_replacementStack st1) false (w_flags st1))
      else
        st2 <- rewrite_identifier n par key
                 (mkRewrite (w_magicString st1) (Some (fst newNames))
                            (fst newNames :: w_replacementStack st1) false (w_flags st1)) ;;
        inr (false, st2)
  | None =>
      st2 <- rewrite_identifier n par key st1 ;;
      inr (false, st2)
  end.

Definition rewrite_enter (this : Statement B) (bundleExports : Obj.t string)
           (deshadowList : list string)
           (n : estree) (par : option estree) (key : string) (p : path) (st : rewrite)
  : result (bool * rewrite) :=
  if skipped (w_flags st) p then inr (true, st)
  else
    st1 <- (if w_topLevel st && type_is n "VariableDeclaration" then
              r <- export_rewrite bundleExports n p (w_magicString st) (w_flags st) ;;
              inr (mkRewrite (fst r) (w_names st) (w_replacementStack st)
                             (w_topLevel st) (snd r))
            else inr st) ;;
    enter_scope this deshadowList n par key p st1.

Definition rewrite_leave (this : Statement B) (n : estree) (p : path) (st : rewrite)
  : result rewrite :=
  match tag_at (tags this) p with
  | Some _ =>
      let stack := tl (w_replacementStack st) in
      inr (mkRewrite (w_magicString st) (hd_error stack) stack (w_topLevel st) (w_flags st))
  | None => inr st
  end.

(** A state of the walk with other [_skip] flags. *)
Definition set_flags (st : rewrite) (fl : skip_flags) : rewrite :=
  mkRewrite (w_magicString st) (w_names st) (w_replacementStack st) (w_topLevel st) fl.

Definition with_flags (this : Statement B) (fl : skip_flags) : Statement B :=
  mkStatement (node this) (module this) (magicString this) (scope this) (scopes this)
              (tags this) fl (defines this) (modifies this) (dependsOn this)
              (isIncluded this) (leadingComments this) (trailingComment this)
              (margin this) (isImportDeclaration this) (isExportDeclaration this).

(** [replaceIdentifiers( names, bundleExports )]: the edited buffer, and the
    statement as the call leaves it. *)
Definition replaceIdentifiers (this : Statement B) (names bundleExports : Obj.t string)
  : result (B * Statement B) :=
  let magicString := clone (magicString this) in
  let nameList := Obj.keys names in
  let deshadowList := map (fun nm => first_segment (key_of (Obj.get names nm))) nameList in
  if Nat.ltb 0 (List.length nameList) || Nat.ltb 0 (List.length (Obj.keys bundleExports)) then
    st <- walk reverse (rewrite_enter this bundleExports deshadowList) (rewrite_leave this)
               (node this) (mkRewrite magicString (Some names) [names] true (flags this)) ;;
    inr (w_magicString st, with_flags this (w_flags st))
  else inr (magicString, this).
(** [q] lies strictly below the node at [p]. *)
Definition below (p q : path) : Prop := exists r, r <> [] /\ q = p ++ r.

(** [q] lies at or below a child of the node at [p], from position [i0] on. *)
Definition through (p : path) (i0 : nat) (q : path) : Prop :=
  exists k r, i0 <= k /\ q = p ++ k :: r.

(** From [s] to [s'] flags are only added, and only at paths in [P]. *)
Definition frame (P : path -> Prop) (s s' : rewrite) : Prop :=
  (forall q, skipped (w_flags s) q = true -> skipped (w_flags s') q = true)
  /\ (forall q, skipped (w_flags s') q = true -> skipped (w_flags s) q = true \/ P q).

End Rename.
Arguments rewrite : clear implicits.

(** ** Dependency expansion *)

(** Modelled from the spec: the helper [sequence] (src/utils/promise.js is
    not among the sources) runs a callback on the elements of an array one
    after the other, each one after the previous one has completed.  The
    callbacks here act on the array [result] and on the heap of statements;
    [None] is a callback that does not complete. *)
Section Sequence.
Context {A St : Type}.
Variable callback : A -> St -> option St.

Fixpoint sequence (arr : list A) (s : St) : option St :=
  match arr with
  | [] => Some s
  | x :: arr' =>
      match callback x s with
      | Some s' => sequence arr' s'
      | None => None
      end
  end.
End Sequence.

Section Expand.
Context {B : Type}.

Definition stmt_heap : Type := list (Statement B).

Definition include (st : Statement B) : Statement B :=
  mkStatement (node st) (module st) (magicString st) (scope st) (scopes st)
              (tags st) (flags st) (defines st) (modifies st) (dependsOn st)
              true (leadingComments st) (trailingComment st)
              (margin st) (isImportDeclaration st) (isExportDeclaration st).

Definition included (h : stmt_heap) (s : nat) : bool :=
  match nth_error h s with Some st => isIncluded st | None => false end.

(** [result.push.apply( result, statements )] after a call that yields
    [statements] and a new heap. *)
Definition push_all (result : list nat) (r : option (list nat * stmt_heap))
  : option (list nat * stmt_heap) :=
  match r with
  | Some (statements, h) => Some (result ++ statements, h)
  | None => None
  end.

Section Body.
(** [Statement.expand] on a statement of the heap, in the recursive calls. *)
Variable expand_rec : nat -> stmt_heap -> option (list nat * stmt_heap).

(** Modelled from the spec: [Module.define( name )] (src/Module.js is not
    among the sources) locates the statements defining [name] and calls
    [expand] on them, one after the other; it yields their results in
    order, and nothing for a name that cannot be resolved. *)
Definition define_with (m : Mod.t B) (nm : string) (h : stmt_heap)
  : option (list nat * stmt_heap) :=
  match Obj.get (Mod.definitions m) nm with
  | Some statements =>
      sequence (fun statement rh => push_all (fst rh) (expand_rec statement (snd rh)))
               statements ([], h)
  | None => Some ([], h)
  end.

(** The statements of one list of [modifications], in recorded order:
    each one not yet included is expanded. *)
Definition expand_modifications (modifications : list nat) (rh : list nat * stmt_heap)
  : option (list nat * stmt_heap) :=
  sequence (fun statement rh' =>
              match nth_error (snd rh') statement with
              | Some st =>
                  if negb (isIncluded st)
                  then push_all (fst rh') (expand_rec statement (snd rh'))
                  else Some rh'
              | None => None
              end)
           modifications rh.

Definition expand_body (this : nat) (h : stmt_heap) : option (list nat * stmt_heap) :=
  match nth_error h this with
  | None => None
  | Some st =>
      if isIncluded st then Some ([], h)
      else
        let h1 := update h this include in
        (* first, include the statements it depends on *)
        match sequence (fun nm rh => push_all (fst rh) (define_with (module st) nm (snd rh)))
                       (Obj.keys (dependsOn st)) ([], h1) with
        | None => None
        | Some (result, h2) =>
            (* then include the statement itself *)
            let result := result ++ [this] in
            (* then include any statements that could modify the
               thing(s) this statement defines *)
            sequence (fun nm rh =>
                        match Obj.get (Mod.modifications (module st)) nm with
                        | Some modifications => expand_modifications modifications rh
                        | None => Some rh
                        end)
                     (Obj.keys (defines st)) (result, h2)
        end
  end.
End Body.

(** [expand()] on the statement [this] of the heap [h]: the statements
    needed, in order, and the heap after the call.  The recursion of the
    source goes through [Module.define] and the modifier statements; [fuel]
    bounds its depth, and [None] is a call that has not returned within it
    (or a reference to no statement). *)
Fixpoint expand (fuel : nat) (this : nat) (h : stmt_heap) : option (list nat * stmt_heap) :=
  match fuel with
  | O => None
  | S fuel' => expand_body (expand fuel') this h
  end.

Definition define (fuel : nat) (m : Mod.t B) (nm : string) (h : stmt_heap)
  : option (list nat * stmt_heap) :=
  define_with (expand fuel) m nm h.

(** A bundling session: [expand] called on statements one after the other. *)
Fixpoint session (fuel : nat) (calls : list nat) (h : stmt_heap)
  : option (list (list nat) * stmt_heap) :=
  match calls with
  | [] => Some ([], h)
  | s :: calls' =>
      match expand fuel s h with
      | Some (r, h') =>
          match session fuel calls' h' with
          | Some (rs, h'') => Some (r :: rs, h'')
          | None => None
          end
      | None => None
      end
  end.

(** The number of statements of the heap not yet included. *)
Definition pending (h : stmt_heap) : nat :=
  List.length (filter (fun st => negb (isIncluded st)) h).

(** The statements that could modify what a statement defines: the lists of
    [modifications] for the names of [defines], in order. *)
Definition modifiers_of (st : Statement B) : list nat :=
  flat_map (fun nm => match Obj.get (Mod.modifications (module st)) nm with
                      | Some modifications => modifications
                      | None => []
                      end)
           (Obj.keys (defines st)).

(** A chain of steps run one after the other on the heap, each yielding a
    list of statements. *)
Inductive chain {A : Type} (step : A -> stmt_heap -> list nat -> stmt_heap -> Prop)
  : list A -> stmt_heap -> list (list nat) -> stmt_heap -> Prop :=
| chain_nil : forall h, chain step [] h [] h
| chain_cons : forall x xs h r h1 rs h2,
    step x h r h1 -> chain step xs h1 rs h2 -> chain step (x :: xs) h (r :: rs) h2.

(** [Module.define( name )] yields [r] and leaves the heap [h']. *)
Definition define_step (fuel : nat) (m : Mod.t B) (nm : string)
           (h : stmt_heap) (r : list nat) (h' : stmt_heap) : Prop :=
  define fuel m nm h = Some (r, h').

(** A modifier statement met by [expand]: skipped when already included,
    expanded otherwise. *)
Definition modifier_step (fuel : nat) (statement : nat)
           (h : stmt_heap) (r : list nat) (h' : stmt_heap) : Prop :=
  if included h statement then r = [] /\ h' = h
  else expand fuel statement h = Some (r, h').

(** Every reference to a statement held by the modules of the heap points
    into the heap. *)
Definition refs_valid (h : stmt_heap) : Prop :=
  forall i st nm l,
    nth_error h i = Some st ->
    Obj.get (Mod.definitions (module st)) nm = Some l
    \/ Obj.get (Mod.modifications (module st)) nm = Some l ->
    Forall (fun s => s < List.length h) l.

(** [h'] is [h] with exactly the statements [res] newly included. *)
Definition adds (h : stmt_heap) (res : list nat) (h' : stmt_heap) : Prop :=
  List.length h' = List.length h
  /\ (forall i st, nth_error h i = Some st ->
                   nth_error h' i
                   = Some (if existsb (Nat.eqb i) res then include st else st))
  /\ NoDup res
  /\ (forall i, In i res -> included h i = false /\ i < List.length h).

(** A heap on which the calls with fuel [f] return: its references are valid
    and fewer than [f] of its [L] statements are not yet included. *)
Definition ready (f : nat) (L : nat) (h : stmt_heap) : Prop :=
  refs_valid h /\ pending h < f /\ List.length h = L.

(** The calls with fuel [f] on a ready heap return, and include what they
    yield. *)
Definition returns (f : nat) : Prop :=
  forall L h s,
    ready f L h -> s < L ->
    exists r h', expand f s h = Some (r, h') /\ adds h r h' /\ included h' s = true.

(** The recursive calls of [expand] on [this], refused on a heap in which
    [this] is not yet included. *)
Definition after_inclusion (this : nat)
           (expand_rec : nat -> stmt_heap -> option (list nat * stmt_heap))
  : nat -> stmt_heap -> option (list nat * stmt_heap) :=
  fun s h => if included h this then expand_rec s h else None.

(** [refs_valid], as a check. *)
Definition refs_validb (h : stmt_heap) : bool :=
  let inside := forallb (fun kv : string * list nat =>
                           forallb (fun s => Nat.ltb s (List.length h)) (snd kv)) in
  forallb (fun st => inside (Mod.definitions (module st))
                     && inside (Mod.modifications (module st))) h.

(** The heaps met by the recursive calls of [expand] on [this]. *)
Definition within (f L this : nat) (rh : list nat * stmt_heap) : Prop :=
  ready f L (snd rh) /\ included (snd rh) this = true.
End Expand.
Arguments stmt_heap : clear implicits.
Arguments returns : clear implicits.
Arguments within : clear implicits.
Arguments chain {B A} step _ _ _ _.

(** ** A buffer that records its edits

    An instance of the buffer interface for running the code on concrete
    statements: it keeps the original text and the list of edits asked for,
    oldest first, and refuses insertion at the offsets listed in [refused].
    As the package does, it also refuses to overwrite a range whose first or
    last character an earlier overwrite has replaced, and to insert at such
    a character. *)
Inductive edit : Type :=
| Overwrite (from to : nat) (content : string)
| Insert (index : nat) (content : string)
| Append (content : string)
| SourcemapLocation (index : nat).

Record LogBuffer : Type := mkLog {
  original : string;
  refused : list nat;
  log : list edit
}.

Definition record_edit (b : LogBuffer) (e : edit) : LogBuffer :=
  mkLog (original b) (refused b) (log b ++ [e]).

(** Whether an earlier overwrite has replaced the character at [index]. *)
Definition replaced (b : LogBuffer) (index : nat) : bool :=
  existsb (fun e => match e with
                    | Overwrite from to _ => Nat.leb from index && Nat.ltb index to
                    | _ => false
                    end)
          (log b).

#[export] Instance LogBuffer_TextBuffer : TextBuffer LogBuffer := {
  clone b := b;
  overwrite b from to content :=
    if replaced b from || replaced b (to - 1) then None
    else Some (record_edit b (Overwrite from to content));
  insert b index content :=
    if existsb (Nat.eqb index) (refused b) || replaced b index then None
    else Some (record_edit b (Insert index content));
  append b content := record_edit b (Append content);
  addSourcemapLocation b index := record_edit b (SourcemapLocation index);
  toString b := original b
}.

(** ** Concrete syntax trees

    Builders for the node kinds used in examples, with the child properties
    in the order the parser creates them. *)
Module Syntax.
Definition plain (t : string) (s e : nat) (cs : list (string * estree)) : estree :=
  Node (mkAttrs t s e None false "") cs.

Definition Identifier (s e : nat) (nm : string) : estree :=
  Node (mkAttrs "Identifier" s e (Some nm) false "") [].

Definition Literal (s e : nat) : estree := plain "Literal" s e [].

Definition MemberExpression (s e : nat) (is_computed : bool) (object property : estree) : estree :=
  Node (mkAttrs "MemberExpression" s e None is_computed "")
       [("object", object); ("property", property)].

Definition AssignmentExpression (s e : nat) (left right : estree) : estree :=
  plain "AssignmentExpression" s e [("left", left); ("right", right)].

Definition UpdateExpression (s e : nat) (argument : estree) : estree :=
  plain "UpdateExpression" s e [("argument", argument)].

Definition BinaryExpression (s e : nat) (left right : estree) : estree :=
  plain "BinaryExpression" s e [("left", left); ("right", right)].

Definition CallExpression (s e : nat) (callee : estree) (arguments : list estree) : estree :=
  plain "CallExpression" s e (("callee", callee) :: map (pair "arguments") arguments).

Definition Property (s e : nat) (key value : estree) : estree :=
  plain "Property" s e [("key", key); ("value", value)].

Definition ObjectExpression (s e : nat) (properties : list estree) : estree :=
  plain "ObjectExpression" s e (map (pair "properties") properties).

Definition ExpressionStatement (s e : nat) (expression : estree) : estree :=
  plain "ExpressionStatement" s e [("expression", expression)].

Definition ReturnStatement (s e : nat) (argument : estree) : estree :=
  plain "ReturnStatement" s e [("argument", argument)].

Definition BlockStatement (s e : nat) (body : list estree) : estree :=
  plain "BlockStatement" s e (map (pair "body") body).

Definition FunctionDeclaration (s e : nat) (id : option estree) (params : list estree)
           (body : estree) : estree :=
  plain "FunctionDeclaration" s e
        (match id with Some i => [("id", i)] | None => [] end
         ++ map (pair "params") params ++ [("body", body)]).

Definition VariableDeclarator (s e : nat) (id : estree) (init : option estree) : estree :=
  plain "VariableDeclarator" s e
        (("id", id) :: match init with Some i => [("init", i)] | None => [] end).

Definition VariableDeclaration (s e : nat) (k : string) (declarations : list estree) : estree :=
  Node (mkAttrs "VariableDeclaration" s e None false k)
       (map (pair "declarations") declarations).

Definition ExportNamedDeclaration (s e : nat) (declaration : estree) : estree :=
  plain "ExportNamedDeclaration" s e [("declaration", declaration)].
End Syntax.

(** ** Nodes that carry the names the code reads

    A function or class declaration has an [id]; a variable declaration has
    at least one declarator, and each declarator's [id] is an identifier (a
    simple bound name). *)
Definition named (n : estree) : bool :=
  (if type_is n "FunctionDeclaration" || type_is n "ClassDeclaration"
   then match child "id" n with Some _ => true | None => false end
   else true)
  && (if type_is n "VariableDeclaration"
      then match childs "declarations" n with
           | [] => false
           | ds => forallb (fun d => match child "id" d with
                                     | Some id => type_is id "Identifier"
                                                  && match name (attrs_of id) with
                                                     | Some _ => true
                                                     | None => false
                                                     end
                                     | None => false
                                     end) ds
           end
      else true).

(** [ok] holds of a node and of all the nodes below it. *)
Fixpoint everywhere (ok : estree -> bool) (n : estree) : bool :=
  match n with
  | Node _ cs => ok n && forallb (fun kc => everywhere ok (snd kc)) cs
  end.

(** The failures of the accesses to declaration names. *)
Definition name_access (s : site) : bool :=
  match s with
  | FunctionId | ClassId | DeclaratorId | FirstDeclarator => true
  | _ => false
  end.

Definition name_access_failure (e : error) : bool :=
  match e with
  | TypeError s => name_access s
  | _ => false
  end.

(** ** Statements used as examples *)
Module Examples.
Import Syntax.

(** [export function a(){ return b(); }] *)
Definition export_function_a : estree :=
  ExportNamedDeclaration 0 35
    (FunctionDeclaration 7 35 (Some (Identifier 16 17 "a")) []
       (BlockStatement 19 35
          [ReturnStatement 21 33 (CallExpression 28 31 (Identifier 28 29 "b") [])])).

(** [a[b];] *)
Definition computed_member : estree :=
  ExpressionStatement 0 5
    (MemberExpression 0 4 true (Identifier 0 1 "a") (Identifier 2 3 "b")).

(** [x = 5] *)
Definition assign_x : estree :=
  ExpressionStatement 0 5 (AssignmentExpression 0 5 (Identifier 0 1 "x") (Literal 4 5)).

(** [x.prop = 5] *)
Definition assign_x_prop : estree :=
  ExpressionStatement 0 10
    (AssignmentExpression 0 10
       (MemberExpression 0 6 false (Identifier 0 1 "x") (Identifier 2 6 "prop"))
       (Literal 9 10)).

(** [f(x)] *)
Definition call_f_x : estree :=
  ExpressionStatement 0 4 (CallExpression 0 4 (Identifier 0 1 "f") [Identifier 2 3 "x"]).

(** [function f(){ return bar + foo; }] *)
Definition function_f : estree :=
  FunctionDeclaration 0 33 (Some (Identifier 9 10 "f")) []
    (BlockStatement 12 33
       [ReturnStatement 14 31
          (BinaryExpression 21 30 (Identifier 21 24 "bar") (Identifier 27 30 "foo"))]).

(** [var x = 1;] *)
Definition var_x : estree := Syntax.VariableDeclaration 0 10 "var"
    [VariableDeclarator 4 9 (Identifier 4 5 "x") (Some (Literal 8 9))].

(** [var x = 1, y = 2;] *)
Definition var_x_y : estree := Syntax.VariableDeclaration 0 17 "var"
    [VariableDeclarator 4 9 (Identifier 4 5 "x") (Some (Literal 8 9));
     VariableDeclarator 11 16 (Identifier 11 12 "y") (Some (Literal 15 16))].

(** [export default function () {}], whose declaration has no identifier. *)
Definition anonymous_function : estree :=
  plain "ExportDefaultDeclaration" 0 29
        [("declaration", FunctionDeclaration 15 29 None [] (BlockStatement 27 29 []))].

(** [export default class {}], whose declaration has no identifier. *)
Definition anonymous_class : estree :=
  plain "ExportDefaultDeclaration" 0 23
        [("declaration", plain "ClassDeclaration" 15 23 [("body", plain "ClassBody" 21 23 [])])].

(** A variable declaration whose declarator has no binding. *)
Definition var_without_binding : estree := Syntax.VariableDeclaration 0 4 "var"
    [plain "VariableDeclarator" 4 4 []].

(** A variable declaration without declarator. *)
Definition var_without_declarator : estree := Syntax.VariableDeclaration 0 4 "var" [].

(** A bundle of four statements of one module: statement 0 defines [a] and
    depends on [b]; statement 1 defines [b] and depends on [a]; statement 2
    modifies [a] and depends on [a] and [c]; statement 3 defines [c]. *)
Definition bundle_module : Mod.t LogBuffer :=
  Mod.mk LogBuffer "main.js" (mkLog "" [] []) []
         [("a", [2])]
         [("a", [0]); ("b", [1]); ("c", [3])].

Definition statement_with (dependencies definitions : list string) : Statement LogBuffer :=
  mkStatement (plain "EmptyStatement" 0 0 []) bundle_module (mkLog "" [] []) 0 [] [] []
              (map (fun x => (x, true)) definitions) []
              (map (fun x => (x, true)) dependencies)
              false [] None (0, 0) false false.

Definition bundle : stmt_heap LogBuffer :=
  [statement_with ["b"] ["a"]; statement_with ["a"] ["b"];
   statement_with ["a"; "c"] []; statement_with [] ["c"]].

(** A location function for running the examples: everything on line 1. *)
Definition first_line (source : string) (index : nat) : Loc := mkLoc 1 index.

Definition buffer_of (source : string) : LogBuffer := mkLog source [] [].

(** A module [main.js] importing the named bindings [names]. *)
Definition importing (names : list string) : Mod.t LogBuffer :=
  Mod.mk LogBuffer "main.js" (buffer_of "")
         (map (fun x => (x, ImportSpecifier.mk x)) names) [] [].

(** The statement made of [n] in a module importing [names], analysed. *)
Definition analysed (reverse : bool) (n : estree) (names : list string)
  : result (Statement LogBuffer) :=
  analyse first_line reverse (new_Statement n (buffer_of "") (importing names)).

(** The edits of a buffer that change its text. *)
Definition text_edits (b : LogBuffer) : list edit :=
  filter (fun e => match e with SourcemapLocation _ => false | _ => true end) (log b).

(** [var x = 1;], analysed. *)
Definition var_x_analysed : Statement LogBuffer :=
  match analysed false var_x [] with
  | inr st => st
  | inl _ => new_Statement var_x (buffer_of "") (importing [])
  end.

(** The text edits of the buffer returned by [replaceIdentifiers]. *)
Definition edits_of (r : result (LogBuffer * Statement LogBuffer)) : list edit :=
  match r with
  | inr (b, _) => text_edits b
  | inl _ => []
  end.
End Examples.

(** ** What a bundling session includes *)
Section Closure.
Context {B : Type}.

(** The statements that define the names a statement depends on: what
    [Module.define] expands for the names of [dependsOn]. *)
Definition definers_of (st : Statement B) : list nat :=
  flat_map (fun nm => match Obj.get (Mod.definitions (module st)) nm with
                      | Some statements => statements
                      | None => []
                      end)
           (Obj.keys (dependsOn st)).

(** The statements [expand] goes to from a statement: the definers of its
    dependencies and the modifiers of what it defines. *)
Definition required_by (st : Statement B) : list nat :=
  definers_of st ++ modifiers_of st.

Definition requirements (h : stmt_heap B) (s : nat) : list nat :=
  match nth_error h s with
  | Some st => required_by st
  | None => []
  end.

(** Every included statement outside [P] has all it requires included. *)
Definition closed_except (P : nat -> Prop) (h : stmt_heap B) : Prop :=
  forall s, included h s = true -> ~ P s ->
            forall d, In d (requirements h s) -> included h d = true.

Definition closed (h : stmt_heap B) : Prop := closed_except (fun _ => False) h.

(** [x] is reached from [s] through requirements. *)
Inductive reach (h : stmt_heap B) : nat -> nat -> Prop :=
| reach_here : forall s, reach h s s
| reach_next : forall s d x, In d (requirements h s) -> reach h d x -> reach h s x.

(** What the loops of [expand] keep: the heap stays ready, closed outside
    [P], and at least as included as [h0]. *)
Definition kept (f L : nat) (P : nat -> Prop) (h0 : stmt_heap B)
           (rh : list nat * stmt_heap B) : Prop :=
  ready f L (snd rh) /\ closed_except P (snd rh)
  /\ (forall x, included h0 x = true -> included (snd rh) x = true).

Definition closes (f : nat) : Prop :=
  forall L P (h : stmt_heap B) s r h',
    ready f L h -> expand f s h = Some (r, h') -> closed_except P h -> closed_except P h'.

(** What the loops of [expand] on [s] keep: the heap stays ready, with the
    requirements of [h], and everything pushed is reached from [s]. *)
Definition reached (f L : nat) (h : stmt_heap B) (s : nat)
           (rh : list nat * stmt_heap B) : Prop :=
  ready f L (snd rh)
  /\ (forall y, requirements (snd rh) y = requirements h y)
  /\ (forall x, In x (fst rh) -> reach h s x).

Definition reaches (f : nat) : Prop :=
  forall L (h : stmt_heap B) s r h',
    ready f L h -> expand f s h = Some (r, h') -> forall x, In x r -> reach h s x.

(** No statement of the heap is included yet. *)
Definition nothing_included (h : stmt_heap B) : bool :=
  forallb (fun st => negb (isIncluded st)) h.
End Closure.
Arguments closes : clear implicits.
Arguments reaches : clear implicits.

(** ** Names occurring in a statement *)

(** The names of the identifier nodes of a tree. *)
Fixpoint identifiers (n : estree) : list string :=
  match n with
  | Node a cs =>
      (if String.eqb (type a) "Identifier" then [key_of (name a)] else [])
      ++ flat_map (fun kc => identifiers (snd kc)) cs
  end.


(** What [f] yields on the elements of a list, put together in the order
    in which [each] runs over the elements. *)
Section InOrder.
Context {A C : Type}.
Variable reverse : bool.
Variable f : A -> list C.

Fixpoint in_order (l : list A) : list C :=
  match l with
  | [] => []
  | x :: l' => if reverse then in_order l' ++ f x else f x ++ in_order l'
  end.
End InOrder.

(** The start offsets of the nodes of a tree, in the order in which the
    walker enters the nodes. *)
Fixpoint starts (reverse : bool) (n : estree) : list nat :=
  match n with
  | Node a cs => start a :: in_order reverse (fun kc => starts reverse (snd kc)) cs
  end.

(** The nodes of a tree. *)
Fixpoint nodes (n : estree) : list estree :=
  match n with
  | Node a cs => Node a cs :: flat_map (fun kc => nodes (snd kc)) cs
  end.

(** ** The scope tree of an analysed statement *)

(** [h'] has the scopes of [h], each with the parent and the depth it had. *)
Definition extends (h h' : scope_heap) : Prop :=
  forall s sc, deref h s = Some sc ->
               exists sc', deref h' s = Some sc' /\ parent sc' = parent sc /\ depth sc' = depth sc.

(** Every [_scope] tag refers to a scope of the heap. *)
Definition tags_valid (h : scope_heap) (tg : scope_tags) : Prop :=
  forall q s, tag_at tg q = Some s -> exists sc, deref h s = Some sc.

(** [q] is the node at [p] or lies below it. *)
Definition under (p q : path) : Prop := exists r, q = p ++ r.

(** The tags below the node [n] at [p] mirror the nesting of the tagged
    nodes: the scope of a tagged node has for parent the scope that is
    current around the node, and is the scope current around its children. *)
Inductive scoped (h : scope_heap) (tg : scope_tags) : estree -> path -> nat -> Prop :=
| scoped_tagged : forall a cs p cur s sc,
    tag_at tg p = Some s -> deref h s = Some sc -> parent sc = Some cur ->
    (forall i kc, nth_error cs i = Some kc -> scoped h tg (snd kc) (p ++ [i]) s) ->
    scoped h tg (Node a cs) p cur
| scoped_plain : forall a cs p cur,
    tag_at tg p = None ->
    (forall i kc, nth_error cs i = Some kc -> scoped h tg (snd kc) (p ++ [i]) cur) ->
    scoped h tg (Node a cs) p cur.

Section ScopeSteps.
Context {B : Type}.

(** A part of the first walk that starts in a state where [scope] is [cur]
    and no node of the region [P] is tagged yet. *)
Definition building (P : path -> Prop) (cur : nat) (st : build B) : Prop :=
  b_scope st = Some cur
  /\ (exists sc, deref (b_scopes st) cur = Some sc)
  /\ tags_valid (b_scopes st) (b_tags st)
  /\ forall q, P q -> tag_at (b_tags st) q = None.

(** What such a part does: [scope] is back at [cur], the heap has grown and
    only nodes of [P] have been tagged. *)
Definition built (P : path -> Prop) (cur : nat) (st st' : build B) : Prop :=
  b_scope st' = Some cur
  /\ extends (b_scopes st) (b_scopes st')
  /\ tags_valid (b_scopes st') (b_tags st')
  /\ forall q, ~ P q -> tag_at (b_tags st') q = tag_at (b_tags st) q.

(** No failure on the variable [scope] or on a [_scope] tag. *)
Definition scope_safe (e : error) : Prop :=
  e <> TypeError CurrentScope /\ e <> TypeError ScopeTag.
End ScopeSteps.

(** ** Bookkeeping of the walks *)

(** The paths of the nodes the rename pass flags: [q] leads to the binding
    of the only declarator of a variable declaration of the tree, and the
    name bound has an export target. *)
Definition exported_binding (root : estree) (bundleExports : Obj.t string) (q : path) : Prop :=
  exists p d first id,
    node_at root p = Some d
    /\ type_is d "VariableDeclaration" = true
    /\ List.length (childs "declarations" d) = 1
    /\ find_child "declarations" 0 (children_of d) = Some first
    /\ find_child "id" 0 (children_of (snd first)) = Some id
    /\ truthy_at bundleExports (name_of (snd id)) = true
    /\ q = p ++ [fst first; fst id]
    /\ node_at root q = Some (snd id).

(** The names in [o] are those of [o0] and names among [ids]. *)
Definition drawn_from (o0 : Obj.t bool) (ids : list string) (o : Obj.t bool) : Prop :=
  (forall k, In k (Obj.keys o0) -> In k (Obj.keys o))
  /\ (forall k, In k (Obj.keys o) -> In k (Obj.keys o0) \/ In k ids).

Section RenameStack.
Context {B : Type}.

(** The variable [names] is the top of the replacement stack. *)
Definition names_on_top (s : rewrite B) : Prop :=
  w_names s = hd_error (w_replacementStack s) /\ w_replacementStack s <> [].

(** What a part of the walk does to the stack: it ends with the stack and
    [names] it started with, or fails otherwise than on [names]. *)
Definition balanced (s : rewrite B) (r : result (rewrite B)) : Prop :=
  match r with
  | inr s' => w_replacementStack s' = w_replacementStack s /\ w_names s' = w_names s
  | inl e => e <> TypeError ActiveNames
  end.
End RenameStack.

Section Anchored.
Context {B : Type} {TB : TextBuffer B}.

(** An edit of the buffer placed at offsets of a node of the tree [n0]: an
    overwrite of the range of an identifier by another, non-empty, name; an
    overwrite from the start of a variable declaration to the end of the
    binding of its first declarator; or text put at the end of a variable
    declaration, appended when the buffer refuses the insertion. *)
Inductive anchored_edit (n0 : estree) : B -> B -> Prop :=
| anchored_rename : forall b b' id content,
    In id (nodes n0) -> type_is id "Identifier" = true ->
    content <> "" -> name (attrs_of id) <> Some content ->
    overwrite b (start (attrs_of id)) (end_ (attrs_of id)) content = Some b' ->
    anchored_edit n0 b b'
| anchored_export : forall b b' decl first id content,
    In decl (nodes n0) -> type_is decl "VariableDeclaration" = true ->
    find_child "declarations" 0 (children_of decl) = Some first ->
    find_child "id" 0 (children_of (snd first)) = Some id ->
    overwrite b (start (attrs_of decl)) (end_ (attrs_of (snd id))) content = Some b' ->
    anchored_edit n0 b b'
| anchored_insert : forall b b' decl text,
    In decl (nodes n0) -> type_is decl "VariableDeclaration" = true ->
    insert b (end_ (attrs_of decl)) text = Some b' ->
    anchored_edit n0 b b'
| anchored_append : forall b decl text,
    In decl (nodes n0) -> type_is decl "VariableDeclaration" = true ->
    insert b (end_ (attrs_of decl)) text = None ->
    anchored_edit n0 b (append b text).

(** A sequence of such edits. *)
Inductive anchored (n0 : estree) : B -> B -> Prop :=
| anchored_done : forall b, anchored n0 b b
| anchored_more : forall b b1 b2,
    anchored n0 b b1 -> anchored_edit n0 b1 b2 -> anchored n0 b b2.

(** The export rewrite of the variable declaration [d], which takes the
    buffer from [b1] to [b2]: with a single declarator whose bound name has
    an export target, the range from the start of the declaration to the
    end of the binding is overwritten with the target; otherwise one
    assignment [\n<export-target> = <name>;] for each declared name that
    has a target is inserted at the end of the declaration, or appended to
    the buffer when the insertion is refused. *)
Definition export_edit (bundleExports : Obj.t string) (d : estree) (b1 b2 : B) : Prop :=
  exists first id,
    find_child "declarations" 0 (children_of d) = Some first
    /\ find_child "id" 0 (children_of (snd first)) = Some id
    /\ if Nat.eqb (List.length (childs "declarations" d)) 1
          && truthy_at bundleExports (name_of (snd id))
       then overwrite b1 (start (attrs_of d)) (end_ (attrs_of (snd id)))
                      (key_of (Obj.get bundleExports (name_of (snd id)))) = Some b2
       else exists ids,
           Forall2 (fun declarator i => child "id" declarator = Some i)
                   (childs "declarations" d) ids
           /\ let text :=
                String.concat ""
                  (map (fun nm => (newline ++ key_of (Obj.get bundleExports nm)
                                   ++ " = " ++ nm ++ ";")%string)
                       (filter (truthy_at bundleExports) (map name_of ids))) in
              b2 = match insert b1 (end_ (attrs_of d)) text with
                   | Some b => b
                   | None => append b1 text
                   end.

(** A state of the walk that is still at the outermost nesting, and in
    which neither the node at [p] nor a node around it is flagged. *)
Definition clean (p : path) (st : rewrite B) : Prop :=
  w_topLevel st = true /\ forall q, skipped (w_flags st) q = true -> ~ under q p.
End Anchored.

(** The walker enters the node at [q] before the node at [p]: it is a node
    around the node at [p], or it lies at or below a child, visited
    earlier, of such a node. *)
Definition before (reverse : bool) (q p : path) : Prop :=
  (exists r, r <> [] /\ p = q ++ r)
  \/ exists c i j rq rp,
      q = c ++ j :: rq /\ p = c ++ i :: rp /\ if reverse then i < j else j < i.

(** ** More examples *)
Module Samples.
Import Syntax.

(** [x.prop] *)
Definition member_x_prop : estree :=
  MemberExpression 0 6 false (Identifier 0 1 "x") (Identifier 2 6 "prop").

(** The assignment of [x = 5]. *)
Definition assignment_x : estree :=
  AssignmentExpression 0 5 (Identifier 0 1 "x") (Literal 4 5).

(** The statement [x = 5] of a module that imports [x]. *)
Definition assign_to_import : Statement LogBuffer :=
  new_Statement Examples.assign_x (Examples.buffer_of "") (Examples.importing ["x"]).

(** The statement [function f(){ return bar + foo; }]. *)
Definition function_f_statement : Statement LogBuffer :=
  new_Statement Examples.function_f (Examples.buffer_of "") (Examples.importing []).

(** The same statement, analysed. *)
Definition function_f_analysed : Statement LogBuffer :=
  match analyse Examples.first_line false function_f_statement with
  | inr st => st
  | inl _ => function_f_statement
  end.

(** The identifier [x]. *)
Definition identifier_x : estree := Identifier 0 1 "x".

(** The rename pass with [foo -> bar] on the analysed statement: the
    edited buffer and the statement as the call leaves it. *)
Definition function_f_renamed : LogBuffer * Statement LogBuffer :=
  match replaceIdentifiers false function_f_analysed [("foo", "bar")] [] with
  | inr r => r
  | inl _ => (magicString function_f_analysed, function_f_analysed)
  end.

(** [var o = { a };]: the parser stores the identifier [a] of the shorthand
    property once, as its key and as its value. *)
Definition shorthand_property : estree := Syntax.VariableDeclaration 0 14 "var"
    [VariableDeclarator 4 13 (Identifier 4 5 "o")
       (Some (ObjectExpression 8 13
                [Property 10 11 (Identifier 10 11 "a") (Identifier 10 11 "a")]))].

(** [for (var i = 0; i < 3; i++) { f(i); }] *)
Definition for_loop : estree :=
  plain "ForStatement" 0 40
    [("init", Syntax.VariableDeclaration 5 14 "var"
                [VariableDeclarator 9 14 (Identifier 9 10 "i") (Some (Literal 13 14))]);
     ("test", BinaryExpression 16 21 (Identifier 16 17 "i") (Literal 20 21));
     ("update", UpdateExpression 23 26 (Identifier 23 24 "i"));
     ("body", BlockStatement 28 40
                [ExpressionStatement 30 35
                   (CallExpression 30 34 (Identifier 30 31 "f") [Identifier 32 33 "i"])])].

(** The loop, analysed; its body is the only node with a scope. *)
Definition for_loop_analysed : Statement LogBuffer :=
  match Examples.analysed false for_loop [] with
  | inr st => st
  | inl _ => new_Statement for_loop (Examples.buffer_of "") (Examples.importing [])
  end.

(** The rename pass on the loop with the export target [exports.i], first
    child first: the edited buffer and the statement as the call leaves
    it. *)
Definition for_loop_exported : LogBuffer * Statement LogBuffer :=
  match replaceIdentifiers false for_loop_analysed [] [("i", "exports.i")] with
  | inr r => r
  | inl _ => (magicString for_loop_analysed, for_loop_analysed)
  end.

(** The declaration [var i = 0] of the loop. *)
Definition var_i : estree := Syntax.VariableDeclaration 5 14 "var"
    [VariableDeclarator 9 14 (Identifier 9 10 "i") (Some (Literal 13 14))].

(** [var x = 1, y = 2;], analysed. *)
Definition var_x_y_analysed : Statement LogBuffer :=
  match Examples.analysed true Examples.var_x_y [] with
  | inr st => st
  | inl _ => new_Statement Examples.var_x_y (Examples.buffer_of "") (Examples.importing [])
  end.

(** A scope that declares [x]. *)
Definition scope_declaring_x : Scope :=
  mkScope None 1 [("x", identifier_x)] false.
End Samples.

(** ** Proof steps *)

(** Case analysis on the scrutinees of the goal, innermost first. *)
Ltac innermost_cases :=
  unfold bind, required;
  repeat match goal with
         | |- context [match ?x with _ => _ end] =>
             lazymatch x with
             | context [match _ with _ => _ end] => fail
             | _ => destruct x
             end
         end.

Ltac not_a_name_access :=
  innermost_cases; try discriminate; intros [= <-]; reflexivity.

(** * Properties *)

(** Induction on syntax trees, with the hypothesis on all children. *)
Lemma estree_induction (P : estree -> Prop) :
  (forall a cs, Forall (fun kc => P (snd kc)) cs -> P (Node a cs)) -> forall n, P n.
Proof.
  intros H. fix IH 1. intros [a cs]. apply H.
  induction cs as [|kc cs IHcs]; constructor; [apply IH|exact IHcs].
Qed.

Lemma get_set_same {V : Type} (o : Obj.t V) (k : string) (v : V) :
  Obj.get (Obj.set o k v) k = Some v.
Proof.
  induction o as [|[k' v'] o IH]; cbn.
  - rewrite String.eqb_refl. reflexivity.
  - destruct (String.eqb k' k) eqn:E; cbn; rewrite E; [reflexivity|exact IH].
Qed.

Lemma get_set_other {V : Type} (o : Obj.t V) (k k' : string) (v : V) :
  k <> k' -> Obj.get (Obj.set o k v) k' = Obj.get o k'.
Proof.
  intros Hne. induction o as [|[k0 v0] o IH]; cbn.
  - destruct (String.eqb k k') eqn:E; [apply String.eqb_eq in E; contradiction|reflexivity].
  - destruct (String.eqb k0 k) eqn:E; cbn.
    + apply String.eqb_eq in E. subst k0.
      destruct (String.eqb k k') eqn:E'; [apply String.eqb_eq in E'; contradiction|reflexivity].
    + destruct (String.eqb k0 k'); [reflexivity|exact IH].
Qed.

Section ReadCheck.
Context {B : Type} {TB : TextBuffer B}.
Variable getLocation : string -> nat -> Loc.

(** C3: the own-name guard of the read check has no effect during
    [analyse]: [defines] is empty in a statement not yet analysed and is
    filled only after the walk that reads it, so for
    [export function a(){ return b(); }] the statement's own name [a] is
    recorded in [dependsOn] next to [b], while [defines] is {a}. *)
Theorem analyse_own_name_is_a_dependency :
  (forall (reverse : bool) (ms : B) (md : Mod.t B),
      exists st,
        analyse getLocation reverse (new_Statement Examples.export_function_a ms md) = inr st
        /\ Obj.keys (defines st) = ["a"]
        /\ flag (dependsOn st) "a" = true
        /\ flag (dependsOn st) "b" = true
        /\ List.length (Obj.keys (dependsOn st)) = 2)
  /\ (forall (nd : estree) (ms : B) (md : Mod.t B) (nm : string),
         flag (defines (new_Statement nd ms md)) nm = false).
Proof.
  split.
  - intros reverse ms md.
    destruct reverse; eexists; (split; [vm_compute; reflexivity|]);
      repeat split; reflexivity.
  - reflexivity.
Qed.

(** C5: the read check drops every identifier that hangs from a member
    access under a property other than [object], computed or not, so the
    index [b] of [a[b]] is not recorded in [dependsOn]. *)
Theorem computed_member_index_is_not_a_read :
  (forall (reverse : bool) (ms : B) (md : Mod.t B),
      exists st,
        analyse getLocation reverse (new_Statement Examples.computed_member ms md) = inr st
        /\ Obj.keys (dependsOn st) = ["a"])
  /\ (forall (this : Statement B) h deps cur s e nm c k cs s' e' nm' is_computed k' cs',
         checkForReads this h deps cur
           (Node (mkAttrs "Identifier" s e nm c k) cs)
           (Some (Node (mkAttrs "MemberExpression" s' e' nm' is_computed k') cs'))
           "property" = inr deps).
Proof.
  split.
  - intros reverse ms md.
    destruct reverse; eexists; (split; [vm_compute; reflexivity|]); reflexivity.
  - intros; reflexivity.
Qed.
End ReadCheck.

Section WriteCheck.
Context {B : Type} {TB : TextBuffer B}.
Variable getLocation : string -> nat -> Loc.

Lemma addNode_unwrapped (this : Statement B) h s mods target flag_ root d :
  unwrap target = inr (root, d) ->
  addNode getLocation this h (Some s) mods target flag_
  = write_one getLocation this h s (inr mods) (target, flag_) (root, d).
Proof.
  intros Hu. unfold addNode, write_one, restricted, record_write.
  rewrite Hu. cbn [bind fst snd required].
  destruct flag_; cbn [andb].
  - destruct (Obj.get (Mod.imports (module this)) (name_of root)) as [spec|]; cbn [bind].
    + destruct (negb (contains h s (name_of root)) && Nat.ltb d (minDepth spec)); cbn [bind].
      * reflexivity.
      * destruct (type_is root "Identifier"); reflexivity.
    + destruct (type_is root "Identifier"); reflexivity.
  - destruct (type_is root "Identifier"); reflexivity.
Qed.

Lemma call_arguments_fold (this : Statement B) h s args :
  forall roots acc,
    Forall2 (fun a r => unwrap a = inr r) args roots ->
    fold_left (fun acc arg => m <- acc ;; addNode getLocation this h (Some s) m arg false)
              args acc
    = fold_left (fun acc tr => write_one getLocation this h s acc (fst tr) (snd tr))
                (combine (map (fun a => (a, false)) args) roots) acc.
Proof.
  induction args as [|a args IH]; intros roots acc HF; inversion HF; subst.
  - reflexivity.
  - cbn [fold_left map combine fst snd]. rewrite <- IH by assumption. f_equal.
    destruct acc as [e|m]; [reflexivity|]. cbn [bind].
    destruct y as [root d]. apply addNode_unwrapped. assumption.
Qed.

(** The write check on a node whose targets all unwrap. *)
Lemma checkForWrites_unwrapped :
  forall (this : Statement B) h mods s n targets roots,
    write_targets n = Some targets ->
    Forall2 (fun t r => unwrap (fst t) = inr r) targets roots ->
    checkForWrites getLocation this h mods (Some s) n
    = fold_left (fun acc tr => write_one getLocation this h s acc (fst tr) (snd tr))
                (combine targets roots) (inr mods)
    /\ (type_is n "AssignmentExpression" = false ->
        type_is n "UpdateExpression" = false ->
        checkForWrites getLocation this h mods (Some s) n
        = inr (fold_left (fun m r => record_write m (fst r)) roots mods)).
Proof.
  intros this h mods s n targets roots Ht HF.
  unfold write_targets in Ht. unfold checkForWrites.
  destruct (type_is n "AssignmentExpression") eqn:Ha.
  - split; [|discriminate].
    destruct (child "left" n) as [t|]; [|discriminate].
    injection Ht as <-. inversion HF as [|x y l l' Hx Hl]; subst. inversion Hl; subst.
    destruct y as [root d]. cbn [required bind combine fold_left fst snd] in *.
    apply addNode_unwrapped. assumption.
  - destruct (type_is n "UpdateExpression") eqn:Hup.
    + split; [|discriminate].
      destruct (child "argument" n) as [t|]; [|discriminate].
      injection Ht as <-. inversion HF as [|x y l l' Hx Hl]; subst. inversion Hl; subst.
      destruct y as [root d]. cbn [required bind combine fold_left fst snd] in *.
      apply addNode_unwrapped. assumption.
    + destruct (type_is n "CallExpression") eqn:Hc.
      * injection Ht as <-.
        assert (HF' : Forall2 (fun a r => unwrap a = inr r) (childs "arguments" n) roots).
        { clear -HF. revert roots HF.
          induction (childs "arguments" n) as [|a l IH]; intros roots HF;
            inversion HF; subst; constructor; auto. }
        rewrite (call_arguments_fold this h s _ roots (inr mods) HF').
        split; [reflexivity|]. intros _ _.
        clear -HF'. revert roots mods HF'.
        induction (childs "arguments" n) as [|a l IH]; intros roots mods HF';
          inversion HF'; subst.
        -- reflexivity.
        -- cbn [map combine fold_left fst snd]. unfold write_one at 2.
           cbn [bind snd andb fst]. apply IH. assumption.
      * injection Ht as <-. inversion HF; subst. split; [reflexivity|]. reflexivity.
Qed.

(** The error leaves [analyse]: [x = 5] with [x] imported. *)
Lemma analyse_throws_on_reassignment (reverse : bool) (file : string) (source ms : B) :
  analyse getLocation reverse
          (new_Statement Examples.assign_x ms
             (Mod.mk B file source [("x", ImportSpecifier.mk "x")] [] []))
  = inl (IllegalReassignment "Illegal reassignment to import 'x'" file
           (getLocation (toString source) 0)).
Proof. destruct reverse; reflexivity. Qed.

(** [x.prop = 5] with [x] imported is analysed without error. *)
Lemma analyse_allows_property_write (reverse : bool) (file : string) (source ms : B) :
  exists st,
    analyse getLocation reverse
            (new_Statement Examples.assign_x_prop ms
               (Mod.mk B file source [("x", ImportSpecifier.mk "x")] [] []))
    = inr st
    /\ flag (modifies st) "x" = true.
Proof. destruct reverse; eexists; (split; [vm_compute; reflexivity|]); reflexivity. Qed.

(** C4: for an assignment or update whose target unwraps, at depth [d], to
    an imported binding that no scope shadows, the write check raises the
    illegal-reassignment error exactly when [d] is below the minimum depth
    (1 for a named import, 2 for a namespace import); the error carries the
    module's path and the location computed from the module's text and the
    root's offset.  With [x] imported, [x = 5] makes [analyse] end with the
    error and [x.prop = 5] does not. *)
Theorem illegal_reassignment_below_minimum_depth :
  forall (this : Statement B) h mods s n target root d importSpecifier,
    write_targets n = Some [(target, true)] ->
    unwrap target = inr (root, d) ->
    Obj.get (Mod.imports (module this)) (name_of root) = Some importSpecifier ->
    contains h s (name_of root) = false ->
    minDepth importSpecifier
    = (if String.eqb (ImportSpecifier.name importSpecifier) "*" then 2 else 1)
    /\ (d < minDepth importSpecifier ->
        checkForWrites getLocation this h mods (Some s) n
        = inl (IllegalReassignment
                 ("Illegal reassignment to import '" ++ name_of root ++ "'")%string
                 (Mod.path (module this))
                 (getLocation (toString (Mod.magicString (module this)))
                              (start (attrs_of root)))))
    /\ (minDepth importSpecifier <= d ->
        checkForWrites getLocation this h mods (Some s) n = inr (record_write mods root))
    /\ (forall reverse file (source ms : B),
           analyse getLocation reverse
                   (new_Statement Examples.assign_x ms
                      (Mod.mk B file source [("x", ImportSpecifier.mk "x")] [] []))
           = inl (IllegalReassignment "Illegal reassignment to import 'x'" file
                    (getLocation (toString source) 0)))
    /\ (forall reverse file (source ms : B),
           exists st,
             analyse getLocation reverse
                     (new_Statement Examples.assign_x_prop ms
                        (Mod.mk B file source [("x", ImportSpecifier.mk "x")] [] []))
             = inr st).
Proof.
  intros this h mods s n target root d spec Ht Hu Hi Hc.
  assert (Hw : checkForWrites getLocation this h mods (Some s) n
               = write_one getLocation this h s (inr mods) (target, true) (root, d)).
  { apply (checkForWrites_unwrapped this h mods s n [(target, true)] [(root, d)] Ht).
    constructor; [exact Hu|constructor]. }
  unfold write_one, restricted in Hw. cbn [bind fst snd andb] in Hw.
  rewrite Hi, Hc in Hw. cbn [negb andb] in Hw.
  split; [reflexivity|]. split; [|split; [|split]].
  - intros Hlt. apply Nat.ltb_lt in Hlt. rewrite Hlt in Hw. exact Hw.
  - intros Hge. apply Nat.ltb_ge in Hge. rewrite Hge in Hw. exact Hw.
  - intros. apply analyse_throws_on_reassignment.
  - intros reverse file source ms.
    destruct (analyse_allows_property_write reverse file source ms) as [st [H _]].
    exists st. exact H.
Qed.

(** C6, as amended: the write check applies to the left side of an
    assignment, the operand of an update and every argument of a call; each
    target is unwrapped to its root, which is recorded in [modifies] when
    it is an identifier; the minimum-depth restriction on imports applies
    to assignment and update targets only, never to call arguments. *)
Theorem write_check_targets :
  forall (this : Statement B) h mods s n targets roots,
    write_targets n = Some targets ->
    Forall2 (fun t r => unwrap (fst t) = inr r) targets roots ->
    checkForWrites getLocation this h mods (Some s) n
    = fold_left (fun acc tr => write_one getLocation this h s acc (fst tr) (snd tr))
                (combine targets roots) (inr mods)
    /\ (type_is n "AssignmentExpression" = false ->
        type_is n "UpdateExpression" = false ->
        checkForWrites getLocation this h mods (Some s) n
        = inr (fold_left (fun m r => record_write m (fst r)) roots mods)).
Proof. exact checkForWrites_unwrapped. Qed.
End WriteCheck.

(** The witness of C6: the targets of [f(x.y, z)]. *)
Lemma write_check_targets_witness :
  let n := Syntax.CallExpression 0 10 (Syntax.Identifier 0 1 "f")
             [Syntax.MemberExpression 2 5 false (Syntax.Identifier 2 3 "x")
                                      (Syntax.Identifier 4 5 "y");
              Syntax.Identifier 7 8 "z"] in
  let this := new_Statement n (Examples.buffer_of "") (Examples.importing ["x"]) in
  checkForWrites Examples.first_line this (scopes this) Obj.blank (Some 0) n
  = inr [("x", true); ("z", true)].
Proof.
  intros n this.
  apply (write_check_targets Examples.first_line this (scopes this) Obj.blank 0 n
           [(Syntax.MemberExpression 2 5 false (Syntax.Identifier 2 3 "x")
                                     (Syntax.Identifier 4 5 "y"), false);
            (Syntax.Identifier 7 8 "z", false)]
           [(Syntax.Identifier 2 3 "x", 1); (Syntax.Identifier 7 8 "z", 0)]).
  - reflexivity.
  - repeat constructor.
  - reflexivity.
  - reflexivity.
Defined.

(** The counterexample to C6 as stated: the imported binding [x], shadowed
    nowhere, is refused as the target of [x = 5] and accepted, and recorded
    in [modifies], as the argument of [f(x)]. *)
Lemma call_argument_escapes_depth_check :
  Examples.analysed false Examples.assign_x ["x"]
  = inl (IllegalReassignment "Illegal reassignment to import 'x'" "main.js" (mkLoc 1 0))
  /\ match Examples.analysed false Examples.call_f_x ["x"] with
     | inr st => flag (modifies st) "x" = true
     | inl _ => False
     end.
Proof. split; vm_compute; reflexivity. Qed.

(** The witness of C4: [x = 5] with [x] a named import. *)
Lemma illegal_reassignment_witness :
  let n := Syntax.AssignmentExpression 0 5 (Syntax.Identifier 0 1 "x") (Syntax.Literal 4 5) in
  let this := new_Statement n (Examples.buffer_of "") (Examples.importing ["x"]) in
  checkForWrites Examples.first_line this (scopes this) Obj.blank (Some 0) n
  = inl (IllegalReassignment "Illegal reassignment to import 'x'" "main.js" (mkLoc 1 0)).
Proof.
  intros n this.
  apply (illegal_reassignment_below_minimum_depth Examples.first_line this (scopes this)
           Obj.blank 0 n (Syntax.Identifier 0 1 "x") (Syntax.Identifier 0 1 "x") 0
           (ImportSpecifier.mk "x")); try reflexivity.
  vm_compute. lia.
Defined.

Section ScopedNames.
Lemma deshadow_fold_keeps (sc : Scope) (d : string) (l : list string) :
  forall acc : Obj.t string * bool,
    Obj.get (fst acc) d = Some (d ++ "$$")%string -> snd acc = true ->
    let r := fold_left (fun acc nm =>
                          if complement_is_truthy (Obj.get (declarations sc) nm)
                          then (Obj.set (fst acc) nm (nm ++ "$$")%string, true)
                          else acc) l acc in
    Obj.get (fst r) d = Some (d ++ "$$")%string /\ snd r = true.
Proof.
  induction l as [|x l IH]; intros acc Hg Hs; cbn [fold_left].
  - split; assumption.
  - apply IH; [|reflexivity].
    change (complement_is_truthy (Obj.get (declarations sc) x)) with true.
    cbn [fst]. destruct (string_dec x d) as [->|Hne].
    + apply get_set_same.
    + rewrite get_set_other by assumption. exact Hg.
Qed.

Lemma deshadow_fold_sets (sc : Scope) (d : string) (l1 l2 : list string) :
  forall acc : Obj.t string * bool,
    let r := fold_left (fun acc nm =>
                          if complement_is_truthy (Obj.get (declarations sc) nm)
                          then (Obj.set (fst acc) nm (nm ++ "$$")%string, true)
                          else acc) (l1 ++ d :: l2) acc in
    Obj.get (fst r) d = Some (d ++ "$$")%string /\ snd r = true.
Proof.
  intros acc. cbn zeta. rewrite fold_left_app. cbn [fold_left].
  apply deshadow_fold_keeps; [|reflexivity].
  change (complement_is_truthy (Obj.get (declarations sc) d)) with true.
  cbn [fst]. apply get_set_same.
Qed.

(** C7: on entering a scope-tagged node, every deshadow candidate is
    remapped to its suffixed form, whether or not the scope re-declares
    it: the condition of the source is the complement [~] of a
    declaration, which is never 0.  In [function f(){ return bar + foo; }]
    with the mapping {foo: bar}, no scope declares [bar], and the reference
    to [bar] inside [f] is rewritten to [bar$$]. *)
Theorem deshadow_remap_ignores_redeclaration :
  (forall names l1 d l2 sc,
      Obj.get (fst (scoped_names names (l1 ++ d :: l2) sc)) d = Some (d ++ "$$")%string
      /\ snd (scoped_names names (l1 ++ d :: l2) sc) = true)
  /\ (forall reverse,
         exists st b st',
           Examples.analysed reverse Examples.function_f [] = inr st
           /\ forallb (fun sc => negb (Obj.has (declarations sc) "bar")) (scopes st) = true
           /\ replaceIdentifiers reverse st [("foo", "bar")] [] = inr (b, st')
           /\ In (Overwrite 21 24 "bar$$") (log b)
           /\ In (Overwrite 27 30 "bar") (log b)).
Proof.
  split.
  - intros names l1 d l2 sc. unfold scoped_names. apply deshadow_fold_sets.
  - intros reverse.
    destruct reverse; do 3 eexists;
      (split; [vm_compute; reflexivity|]);
      (split; [reflexivity|]);
      (split; [vm_compute; reflexivity|]);
      split; cbn; tauto.
Qed.
End ScopedNames.

Lemma type_is_exclusive (n : estree) (a b : string) :
  type_is n a = true -> a <> b -> type_is n b = false.
Proof.
  unfold type_is. intros Ha Hne. apply String.eqb_eq in Ha.
  destruct (String.eqb (type (attrs_of n)) b) eqn:E; [|reflexivity].
  apply String.eqb_eq in E. congruence.
Qed.

Lemma find_child_childs (k : string) (cs : list (string * estree)) :
  forall i j c,
    find_child k i cs = Some (j, c) ->
    exists rest, map snd (filter (fun kc => String.eqb (fst kc) k) cs) = c :: rest.
Proof.
  induction cs as [|[k' c'] cs IH]; intros i j c H; cbn in *; [discriminate|].
  destruct (String.eqb k' k).
  - injection H as _ <-. cbn. eauto.
  - eapply IH. exact H.
Qed.

Section ExportRewrite.
Context {B : Type} {TB : TextBuffer B}.

Lemma declared_names (ds : list estree) :
  forall ids,
    Forall2 (fun d id => find_child "id" 0 (children_of d) = Some id) ds ids ->
    fold_right (fun declarator acc =>
                  id' <- required DeclaratorId (child "id" declarator) ;;
                  rest <- acc ;;
                  inr (name_of id' :: rest))
               (inr []) ds
    = inr (map (fun id => name_of (snd id)) ids).
Proof.
  induction ds as [|d ds IH]; intros ids HF; inversion HF; subst.
  - reflexivity.
  - cbn [fold_right map]. rewrite (IH _ H3).
    unfold child. rewrite H1. reflexivity.
Qed.

End ExportRewrite.

(** ** Errors of a walk *)
Section WalkErrors.
Context {St : Type}.
Variable bad : error -> bool.
Variable ok : estree -> bool.
Variable reverse : bool.
Variable enter : estree -> option estree -> string -> path -> St -> result (bool * St).
Variable leave : estree -> path -> St -> result St.

Hypothesis enter_ok : forall n par key p s e,
    ok n = true -> enter n par key p s = inl e -> bad e = false.
Hypothesis leave_ok : forall n p s e,
    ok n = true -> leave n p s = inl e -> bad e = false.

Lemma each_error {A : Type} (f : nat -> A -> St -> result St) (l : list A) :
  (forall x, In x l -> forall i s e, f i x s = inl e -> bad e = false) ->
  forall i s e, each reverse f i l s = inl e -> bad e = false.
Proof.
  induction l as [|x l IH]; intros Hf i s e He; cbn in He; [discriminate|].
  destruct reverse.
  - destruct (each true f (S i) l s) as [e'|s'] eqn:E; cbn in He.
    + injection He as <-. eapply IH; [|exact E]. intros; eapply Hf; [right|]; eassumption.
    + eapply Hf; [left; reflexivity|exact He].
  - destruct (f i x s) as [e'|s'] eqn:E; cbn in He.
    + injection He as <-. eapply Hf; [left; reflexivity|exact E].
    + eapply IH; [|exact He]. intros; eapply Hf; [right|]; eassumption.
Qed.

Lemma visit_error (n : estree) :
  everywhere ok n = true ->
  forall par key p s e,
    visit reverse enter leave n par key p s = inl e -> bad e = false.
Proof.
  induction n as [a cs IH] using estree_induction; intros Hok par key p s e He.
  cbn [everywhere] in Hok. apply andb_prop in Hok as [Hn Hcs].
  cbn [visit] in He.
  destruct (enter (Node a cs) par key p s) as [e'|[b s1]] eqn:Een; cbn [bind fst snd] in He.
  - injection He as <-. eapply enter_ok; eassumption.
  - destruct b; [discriminate|].
    match type of He with
    | bind ?m _ = _ => destruct m as [e2|s2] eqn:Eeach
    end; cbn [bind] in He.
    + injection He as <-.
      eapply each_error; [|exact Eeach].
      intros [k c] Hin i s' e3 Hv. cbn [fst snd] in Hv.
      rewrite Forall_forall in IH. rewrite forallb_forall in Hcs.
      eapply (IH _ Hin); [|exact Hv]. exact (Hcs _ Hin).
    + eapply leave_ok; eassumption.
Qed.
End WalkErrors.

(** ** The accesses to declaration names *)
Section NameAccess.
Context {B : Type} {TB : TextBuffer B}.
Variable getLocation : string -> nat -> Loc.

Lemma named_declarators (n : estree) :
  named n = true -> type_is n "VariableDeclaration" = true ->
  childs "declarations" n <> []
  /\ Forall (fun d => exists id, child "id" d = Some id) (childs "declarations" n).
Proof.
  unfold named. intros H Hv. apply andb_prop in H as [_ H]. rewrite Hv in H.
  destruct (childs "declarations" n) as [|d ds] eqn:E; [discriminate|].
  split; [discriminate|].
  rewrite forallb_forall in H. apply Forall_forall. intros x Hx.
  specialize (H x Hx). destruct (child "id" x); [eauto|discriminate].
Qed.

Lemma named_id (n : estree) :
  named n = true ->
  type_is n "FunctionDeclaration" = true \/ type_is n "ClassDeclaration" = true ->
  exists id, child "id" n = Some id.
Proof.
  unfold named. intros H Hv. apply andb_prop in H as [H _].
  assert (Ht : type_is n "FunctionDeclaration" || type_is n "ClassDeclaration" = true)
    by (destruct Hv as [-> | ->]; [reflexivity|apply orb_true_r]).
  rewrite Ht in H. destruct (child "id" n); [eauto|discriminate].
Qed.

Lemma declarators_fold_error (n : estree) (cur : option nat) (ds : list estree) :
  Forall (fun d => exists id, child "id" d = Some id) ds ->
  forall acc e,
    (forall e', acc = inl e' -> name_access_failure e' = false) ->
    fold_left (fun acc declarator =>
                 h' <- acc ;;
                 s <- required CurrentScope cur ;;
                 id <- required DeclaratorId (child "id" declarator) ;;
                 inr (addDeclaration h' s (name_of id) n))
              ds acc = inl e ->
    name_access_failure e = false.
Proof.
  induction 1 as [|d ds [id Hid] _ IH]; intros acc e Hacc He; cbn [fold_left] in He.
  - eapply Hacc; exact He.
  - eapply IH; [|exact He]. intros e' He'.
    destruct acc as [e0|h0]; cbn [bind] in He'.
    + injection He' as <-. apply Hacc. reflexivity.
    + rewrite Hid in He'. destruct cur; cbn in He'; [discriminate|].
      injection He' as <-. reflexivity.
Qed.

Lemma build_enter_names (n : estree) par key p (st : build B) e :
  named n = true -> build_enter n par key p st = inl e -> name_access_failure e = false.
Proof.
  intros Hn He. unfold build_enter in He.
  destruct (build_switch n (b_scopes st) (b_scope st)) as [e'|r] eqn:Esw; cbn [bind] in He.
  - injection He as <-. unfold build_switch in Esw.
    destruct (is_function n) eqn:Ef.
    + destruct (type_is n "FunctionDeclaration") eqn:Efd.
      * destruct (named_id n Hn (or_introl Efd)) as [id Hid]. rewrite Hid in Esw.
        destruct (b_scope st); cbn in Esw; [discriminate|].
        injection Esw as <-. reflexivity.
      * cbn in Esw. discriminate.
    + destruct (type_is n "BlockStatement"); [discriminate|].
      destruct (type_is n "CatchClause").
      * destruct (child "param" n); cbn in Esw; [discriminate|].
        injection Esw as <-. reflexivity.
      * destruct (type_is n "VariableDeclaration") eqn:Ev.
        -- destruct (named_declarators n Hn Ev) as [_ HF].
           match type of Esw with
           | bind ?m _ = _ => destruct m as [e''|h1] eqn:Efold
           end; cbn [bind] in Esw; [|discriminate].
           injection Esw as <-.
           eapply (declarators_fold_error n _ _ HF); [|exact Efold]. discriminate.
        -- destruct (type_is n "ClassDeclaration") eqn:Ec; [|discriminate].
           destruct (named_id n Hn (or_intror Ec)) as [id Hid]. rewrite Hid in Esw.
           destruct (b_scope st); cbn in Esw; [discriminate|].
           injection Esw as <-. reflexivity.
  - destruct (snd r); [|discriminate].
    destruct (tag_at (b_tags st) p); [|discriminate].
    injection He as <-. reflexivity.
Qed.

Lemma parent_of_names h cur e :
  parent_of h cur = inl e -> name_access_failure e = false.
Proof.
  unfold parent_of. destruct cur as [s|]; cbn; [|intros [= <-]; reflexivity].
  destruct (deref h s); cbn; [discriminate|intros [= <-]; reflexivity].
Qed.

Lemma build_leave_names (n : estree) p (st : build B) e :
  build_leave n p st = inl e -> name_access_failure e = false.
Proof.
  unfold build_leave. destruct (tag_at (b_tags st) p); [|discriminate].
  destruct (parent_of (b_scopes st) (b_scope st)) eqn:E; cbn; [|discriminate].
  intros [= <-]. eapply parent_of_names. exact E.
Qed.

Lemma unwrap_names (n : estree) e :
  unwrap n = inl e -> name_access_failure e = false.
Proof.
  revert e. induction n as [a cs IH] using estree_induction. intros e. cbn [unwrap].
  destruct (String.eqb (type a) "MemberExpression"); [|discriminate].
  induction cs as [|[k c] cs IHcs]; [intros [= <-]; reflexivity|].
  inversion IH as [|? ? Hc Hcs]; subst.
  destruct (String.eqb k "object").
  - destruct (unwrap c) as [e'|r] eqn:E; cbn; [|discriminate].
    intros [= <-]. apply Hc. exact E.
  - apply IHcs. assumption.
Qed.

Lemma addNode_names (this : Statement B) h cur mods target fl e :
  addNode getLocation this h cur mods target fl = inl e -> name_access_failure e = false.
Proof.
  unfold addNode. destruct (unwrap target) as [e'|r] eqn:E; cbn [bind].
  - intros [= <-]. eapply unwrap_names. exact E.
  - not_a_name_access.
Qed.

Lemma checkForWrites_names (this : Statement B) h mods cur n e :
  checkForWrites getLocation this h mods cur n = inl e -> name_access_failure e = false.
Proof.
  unfold checkForWrites.
  destruct (type_is n "AssignmentExpression").
  - destruct (child "left" n); cbn; [apply addNode_names|intros [= <-]; reflexivity].
  - destruct (type_is n "UpdateExpression").
    + destruct (child "argument" n); cbn; [apply addNode_names|intros [= <-]; reflexivity].
    + destruct (type_is n "CallExpression"); [|discriminate].
      generalize (childs "arguments" n). intros l.
      assert (H : forall acc : result (Obj.t bool),
                 (forall e', acc = inl e' -> name_access_failure e' = false) ->
                 fold_left (fun acc arg => m <- acc ;; addNode getLocation this h cur m arg false)
                           l acc = inl e -> name_access_failure e = false).
      { induction l as [|x l IH]; intros acc Hacc He; cbn [fold_left] in He.
        - apply Hacc. exact He.
        - eapply IH; [|exact He]. intros e' He'.
          destruct acc as [e0|m0]; cbn [bind] in He'.
          + apply Hacc. congruence.
          + eapply addNode_names. exact He'. }
      apply H. discriminate.
Qed.

Lemma checkForReads_names (this : Statement B) h deps cur n par key e :
  checkForReads this h deps cur n par key = inl e -> name_access_failure e = false.
Proof.
  unfold checkForReads. not_a_name_access.
Qed.

Lemma classify_enter_names (this : Statement B) h tg n par key p st e :
  classify_enter getLocation this h tg n par key p st = inl e -> name_access_failure e = false.
Proof.
  unfold classify_enter.
  match goal with |- context [checkForReads ?a ?b ?c ?d ?e ?f ?g] =>
    destruct (checkForReads a b c d e f g) as [e'|deps] eqn:Er end; cbn [bind].
  - intros [= <-]. eapply checkForReads_names. exact Er.
  - match goal with |- context [checkForWrites ?a ?b ?c ?d ?e ?f] =>
      destruct (checkForWrites a b c d e f) as [e'|mods] eqn:Ew end; cbn [bind];
      [|discriminate].
    intros [= <-]. eapply checkForWrites_names. exact Ew.
Qed.

Lemma classify_leave_names h tg n p st e :
  classify_leave h tg n p st = inl e -> name_access_failure e = false.
Proof.
  unfold classify_leave. destruct (tag_at tg p); [|discriminate].
  destruct (parent_of h (c_scope st)) eqn:E; cbn; [|discriminate].
  intros [= <-]. eapply parent_of_names. exact E.
Qed.

Lemma analyse_names (reverse : bool) (this : Statement B) e :
  everywhere named (node this) = true ->
  analyse getLocation reverse this = inl e -> name_access_failure e = false.
Proof.
  intros Hwf. unfold analyse.
  destruct (isImportDeclaration this); [discriminate|]. cbn [negb].
  match goal with |- context [walk reverse build_enter build_leave ?n ?s] =>
    destruct (walk reverse build_enter build_leave n s) as [e'|b] eqn:Eb end; cbn [bind].
  - intros [= <-]. unfold walk in Eb.
    eapply (visit_error name_access_failure named); [| |exact Hwf|exact Eb].
    + intros. eapply build_enter_names; eassumption.
    + intros. eapply build_leave_names; eassumption.
  - match goal with |- context [walk reverse ?en ?le ?n ?s] =>
      destruct (walk reverse en le n s) as [e'|c] eqn:Ec end; cbn [bind].
    + intros [= <-]. unfold walk in Ec.
      eapply (visit_error name_access_failure (fun _ => true)); [| | |exact Ec].
      * intros. eapply classify_enter_names; eassumption.
      * intros. eapply classify_leave_names; eassumption.
      * clear. induction (node this) as [a cs IH] using estree_induction.
        cbn. apply forallb_forall. intros x Hx. rewrite Forall_forall in IH. auto.
    + not_a_name_access.
Qed.

Lemma find_child_none (k : string) (cs : list (string * estree)) :
  forall i, find_child k i cs = None ->
            map snd (filter (fun kc => String.eqb (fst kc) k) cs) = [].
Proof.
  induction cs as [|[k' c] cs IH]; intros i H; cbn in *; [reflexivity|].
  destruct (String.eqb k' k); [discriminate|]. eapply IH. exact H.
Qed.

Lemma export_rewrite_names bundleExports (n : estree) p (ms : B) fl e :
  named n = true -> type_is n "VariableDeclaration" = true ->
  export_rewrite bundleExports n p ms fl = inl e -> name_access_failure e = false.
Proof.
  intros Hn Hv. destruct (named_declarators n Hn Hv) as [Hne HF].
  unfold export_rewrite.
  destruct (find_child "declarations" 0 (children_of n)) as [[i0 d0]|] eqn:Ef.
  2:{ apply find_child_none in Ef. contradiction. }
  destruct (find_child_childs _ _ _ _ _ Ef) as [rest Hrest].
  fold (childs "declarations" n) in Hrest. rewrite Hrest in HF |- *.
  cbn [required bind snd fst].
  inversion HF as [|? ? [id0 Hid0] Hrest']; subst.
  unfold child in Hid0.
  destruct (find_child "id" 0 (children_of d0)) as [[j0 id]|]; [|discriminate].
  cbn [required bind snd fst].
  match goal with |- context [fold_right ?f ?a ?l] =>
    assert (Hfold : exists names, fold_right f a l = inr names) end.
  { clear -HF. induction HF as [|d ds [id Hid] _ [names IH]].
    - eexists. reflexivity.
    - cbn [fold_right]. rewrite Hid, IH. eexists. reflexivity. }
  destruct Hfold as [names ->].
  not_a_name_access.
Qed.

Lemma rewrite_enter_names (this : Statement B) bundleExports deshadowList
      (n : estree) par key p (st : rewrite B) e :
  named n = true ->
  rewrite_enter this bundleExports deshadowList n par key p st = inl e ->
  name_access_failure e = false.
Proof.
  intros Hn. unfold rewrite_enter.
  destruct (skipped (w_flags st) p); [discriminate|].
  destruct (w_topLevel st && type_is n "VariableDeclaration") eqn:Et.
  - apply andb_prop in Et as [_ Hv].
    destruct (export_rewrite bundleExports n p (w_magicString st) (w_flags st))
      as [e'|r] eqn:Eer; cbn [bind].
    + intros [= <-]. eapply export_rewrite_names; eassumption.
    + unfold enter_scope, rewrite_identifier. not_a_name_access.
  - cbn [bind]. unfold enter_scope, rewrite_identifier. not_a_name_access.
Qed.

Lemma rewrite_leave_names (this : Statement B) (n : estree) p (st : rewrite B) e :
  rewrite_leave this n p st = inl e -> name_access_failure e = false.
Proof. unfold rewrite_leave. destruct (tag_at (tags this) p); discriminate. Qed.

Lemma replaceIdentifiers_names (reverse : bool) (this : Statement B) names bundleExports e :
  everywhere named (node this) = true ->
  replaceIdentifiers reverse this names bundleExports = inl e ->
  name_access_failure e = false.
Proof.
  intros Hwf. unfold replaceIdentifiers.
  match goal with |- context [if ?c then _ else _] => destruct c end; [|discriminate].
  match goal with |- context [walk reverse ?en ?le ?n ?s] =>
    destruct (walk reverse en le n s) as [e'|c] eqn:Ec end; cbn [bind]; [|discriminate].
  intros [= <-]. unfold walk in Ec.
  eapply (visit_error name_access_failure named); [| |exact Hwf|exact Ec].
  - intros. eapply rewrite_enter_names; eassumption.
  - intros. eapply rewrite_leave_names; eassumption.
Qed.

(** C10: [analyse] and [replaceIdentifiers] read the name of a function or
    class declaration's identifier, of each declarator's binding, and the
    first declarator of a top-level variable declaration without a presence
    check: a function or class declaration without identifier, or a variable
    declaration without declarator, makes them fail.  When every function
    and class declaration of the statement carries an identifier and every
    variable declaration has at least one declarator, each with a simple
    bound name, none of these accesses fails. *)
Theorem name_accesses_never_fail :
  forall (reverse : bool) (this : Statement B) names bundleExports s,
    everywhere named (node this) = true ->
    name_access s = true ->
    analyse getLocation reverse this <> inl (TypeError s)
    /\ replaceIdentifiers reverse this names bundleExports <> inl (TypeError s)
    /\ (forall ms md,
           analyse getLocation reverse (new_Statement Examples.anonymous_function ms md)
           = inl (TypeError FunctionId))
    /\ (forall ms md,
           analyse getLocation reverse (new_Statement Examples.anonymous_class ms md)
           = inl (TypeError ClassId))
    /\ (forall ms md,
           analyse getLocation reverse (new_Statement Examples.var_without_binding ms md)
           = inl (TypeError DeclaratorId))
    /\ (forall ms md,
           replaceIdentifiers reverse (new_Statement Examples.var_without_declarator ms md)
                              [] [("x", "exports.x")]
           = inl (TypeError FirstDeclarator)).
Proof.
  intros reverse this names bundleExports s Hwf Hs.
  split; [|split].
  - intros H. apply (analyse_names reverse this _ Hwf) in H. cbn in H. congruence.
  - intros H. apply (replaceIdentifiers_names reverse this _ _ _ Hwf) in H. cbn in H. congruence.
  - repeat split; intros; destruct reverse; reflexivity.
Qed.
End NameAccess.

(** The witness of C10: [export function a(){ return b(); }] carries its
    names. *)
Lemma name_accesses_never_fail_witness :
  let this := new_Statement Examples.export_function_a (Examples.buffer_of "")
                            (Examples.importing []) in
  everywhere named (node this) = true
  /\ analyse Examples.first_line false this <> inl (TypeError FunctionId)
  /\ replaceIdentifiers false this [("b", "c")] [] <> inl (TypeError FirstDeclarator).
Proof.
  intros this. split; [reflexivity|]. split.
  - apply (name_accesses_never_fail Examples.first_line false this [] [] FunctionId);
      reflexivity.
  - apply (name_accesses_never_fail Examples.first_line false this [("b", "c")] []
             FirstDeclarator); reflexivity.
Defined.

(** The same rewrite through [replaceIdentifiers]: a single exported
    declarator is overwritten, several declarators get assignments inserted
    after the declaration, or appended when the insertion is refused. *)
Lemma export_rewrite_examples (reverse : bool) :
  (exists st b st',
      Examples.analysed reverse Examples.var_x [] = inr st
      /\ replaceIdentifiers reverse st [] [("x", "exports.x")] = inr (b, st')
      /\ Examples.text_edits b = [Overwrite 0 5 "exports.x"])
  /\ (exists st b st',
         Examples.analysed reverse Examples.var_x_y [] = inr st
         /\ replaceIdentifiers reverse st [] [("y", "exports.y")] = inr (b, st')
         /\ Examples.text_edits b = [Insert 17 (newline ++ "exports.y = y;")%string])
  /\ (exists st b st',
         analyse Examples.first_line reverse
                 (new_Statement Examples.var_x_y (mkLog "" [17] []) (Examples.importing []))
         = inr st
         /\ replaceIdentifiers reverse st [] [("y", "exports.y")] = inr (b, st')
         /\ Examples.text_edits b = [Append (newline ++ "exports.y = y;")%string]).
Proof.
  destruct reverse; repeat split; do 3 eexists;
    (split; [vm_compute; reflexivity|]); (split; [vm_compute; reflexivity|]); reflexivity.
Qed.

(** ** Expansion *)
Section ExpandFacts.

Context {B : Type}.
Implicit Types (h : stmt_heap B) (st : Statement B).

Lemma update_length {A : Type} (l : list A) (i : nat) (f : A -> A) :
  List.length (update l i f) = List.length l.
Proof.
  revert i. induction l as [|x l IH]; intros [|i]; cbn; try reflexivity.
  f_equal. apply IH.
Qed.

Lemma update_nth {A : Type} (l : list A) (i j : nat) (f : A -> A) :
  nth_error (update l i f) j
  = if Nat.eqb j i then option_map f (nth_error l j) else nth_error l j.
Proof.
  revert i j. induction l as [|x l IH]; intros [|i] [|j]; cbn; try reflexivity.
  - destruct (Nat.eqb j i); reflexivity.
  - apply IH.
Qed.

Lemma included_spec h i :
  included h i = true <-> exists st, nth_error h i = Some st /\ isIncluded st = true.
Proof.
  unfold included. destruct (nth_error h i) as [st|].
  - split; [eauto|]. intros [st' [[= <-] H]]. exact H.
  - split; [discriminate|]. intros [st' [[=] _]].
Qed.

Lemma existsb_eqb_In (i : nat) (l : list nat) : existsb (Nat.eqb i) l = true <-> In i l.
Proof.
  rewrite existsb_exists. split.
  - intros [x [Hx E]]. apply Nat.eqb_eq in E. subst. exact Hx.
  - intros H. exists i. split; [exact H|apply Nat.eqb_refl].
Qed.

Lemma adds_refl h : adds h [] h.
Proof.
  repeat split; try constructor.
  - intros i st H. exact H.
  - destruct H.
  - destruct H.
Qed.

Lemma adds_included h r h' i :
  adds h r h' -> included h' i = included h i || existsb (Nat.eqb i) r.
Proof.
  intros (Hlen & Hnth & Hnd & Hin). unfold included at 1 2.
  destruct (nth_error h i) as [st|] eqn:E.
  - rewrite (Hnth _ _ E). destruct (existsb (Nat.eqb i) r); cbn.
    + symmetry. apply orb_true_r.
    + symmetry. apply orb_false_r.
  - assert (Hn : nth_error h' i = None).
    { apply nth_error_None. rewrite Hlen. apply nth_error_None. exact E. }
    rewrite Hn. cbn.
    destruct (existsb (Nat.eqb i) r) eqn:Ex; [|reflexivity].
    apply existsb_eqb_In in Ex. apply Hin in Ex as [_ Hlt].
    apply nth_error_None in E. lia.
Qed.

Lemma adds_monotone h r h' i : adds h r h' -> included h i = true -> included h' i = true.
Proof. intros Ha Hi. rewrite (adds_included _ _ _ _ Ha), Hi. reflexivity. Qed.

Lemma adds_In h r h' i :
  adds h r h' -> included h' i = true -> included h i = false -> In i r.
Proof.
  intros Ha H' H. rewrite (adds_included _ _ _ _ Ha), H in H'. cbn in H'.
  apply existsb_eqb_In. exact H'.
Qed.

Lemma adds_In_included h r h' i : adds h r h' -> In i r -> included h' i = true.
Proof.
  intros Ha Hi. rewrite (adds_included _ _ _ _ Ha).
  apply existsb_eqb_In in Hi. rewrite Hi. apply orb_true_r.
Qed.

Lemma NoDup_app_disjoint {A : Type} (l1 l2 : list A) :
  NoDup l1 -> NoDup l2 -> (forall x, In x l1 -> ~ In x l2) -> NoDup (l1 ++ l2).
Proof.
  induction l1 as [|a l1 IH]; intros H1 H2 Hd; cbn; [exact H2|].
  inversion H1; subst. constructor.
  - rewrite in_app_iff. intros [H|H]; [contradiction|]. eapply Hd; [left; reflexivity|exact H].
  - apply IH; auto. intros x Hx. apply Hd. right. exact Hx.
Qed.

Lemma adds_trans h r1 h1 r2 h2 : adds h r1 h1 -> adds h1 r2 h2 -> adds h (r1 ++ r2) h2.
Proof.
  intros Ha1 Ha2.
  pose proof Ha1 as (Hlen1 & Hnth1 & Hnd1 & Hin1).
  pose proof Ha2 as (Hlen2 & Hnth2 & Hnd2 & Hin2).
  repeat split.
  - congruence.
  - intros i st E. rewrite (Hnth2 _ _ (Hnth1 _ _ E)). rewrite existsb_app.
    destruct (existsb (Nat.eqb i) r1), (existsb (Nat.eqb i) r2); reflexivity.
  - apply NoDup_app_disjoint; auto.
    intros x Hx1 Hx2. apply Hin2 in Hx2 as [Hx2 _].
    rewrite (adds_In_included _ _ _ _ Ha1 Hx1) in Hx2. discriminate.
  - apply in_app_iff in H as [H|H]; [apply Hin1; exact H|].
    apply Hin2 in H as [H _]. rewrite (adds_included _ _ _ _ Ha1) in H.
    apply orb_false_iff in H. tauto.
  - apply in_app_iff in H as [H|H]; [apply Hin1; exact H|].
    apply Hin2 in H as [_ H]. lia.
Qed.

Lemma adds_mark h this st :
  nth_error h this = Some st -> isIncluded st = false ->
  adds h [this] (update h this include).
Proof.
  intros E Hi. repeat split.
  - apply update_length.
  - intros i st' E'. rewrite update_nth, E'. cbn [existsb option_map].
    rewrite orb_false_r. destruct (Nat.eqb i this); reflexivity.
  - constructor; [intros []|constructor].
  - destruct H as [<-|[]]. unfold included. rewrite E. exact Hi.
  - destruct H as [<-|[]]. apply nth_error_Some. congruence.
Qed.

Lemma pending_le h : forall h',
  List.length h' = List.length h ->
  (forall i, included h i = true -> included h' i = true) ->
  pending h' <= pending h.
Proof.
  unfold pending.
  induction h as [|st h IH]; intros [|st' h'] Hlen Hmono; cbn in *; try lia; try discriminate.
  assert (Hrec : List.length (filter (fun st => negb (isIncluded st)) h')
                 <= List.length (filter (fun st => negb (isIncluded st)) h)).
  { apply IH; [lia|]. intros i. exact (Hmono (S i)). }
  specialize (Hmono 0). unfold included in Hmono. cbn in Hmono.
  destruct (isIncluded st); cbn.
  - rewrite Hmono by reflexivity. cbn. exact Hrec.
  - destruct (isIncluded st'); cbn; lia.
Qed.

Lemma pending_mark h : forall this st,
  nth_error h this = Some st -> isIncluded st = false ->
  S (pending (update h this include)) = pending h.
Proof.
  unfold pending.
  induction h as [|st0 h IH]; intros [|this] st E Hi; cbn in *; try discriminate.
  - injection E as ->. rewrite Hi. reflexivity.
  - destruct (isIncluded st0); cbn; [|f_equal]; eapply IH; eassumption.
Qed.

Lemma adds_pending h r h' : adds h r h' -> pending h' <= pending h.
Proof.
  intros Ha. apply pending_le; [apply Ha|].
  intros i. apply (adds_monotone h r h' i Ha).
Qed.

Lemma adds_refs_valid h r h' : adds h r h' -> refs_valid h -> refs_valid h'.
Proof.
  intros (Hlen & Hnth & _ & _) Hv i st' nm l E Hget.
  rewrite Hlen.
  destruct (nth_error h i) as [st|] eqn:E0.
  - rewrite (Hnth _ _ E0) in E. injection E as <-.
    apply (Hv i st nm l E0).
    destruct (existsb (Nat.eqb i) r); exact Hget.
  - apply nth_error_None in E0. rewrite <- Hlen in E0.
    apply nth_error_None in E0. congruence.
Qed.

Lemma adds_ready f L h r h' : adds h r h' -> ready f L h -> ready f L h'.
Proof.
  intros Ha (Hv & Hp & Hl). repeat split.
  - eapply adds_refs_valid; eassumption.
  - pose proof (adds_pending _ _ _ Ha). lia.
  - destruct Ha as [Hlen _]. congruence.
Qed.

Lemma chain_adds {A : Type} (step : A -> stmt_heap B -> list nat -> stmt_heap B -> Prop) :
  (forall x h r h', step x h r h' -> adds h r h') ->
  forall xs h rs h', chain step xs h rs h' -> adds h (concat rs) h'.
Proof.
  intros Hstep. induction 1 as [h|x xs h r h1 rs h2 Hs _ IH]; cbn.
  - apply adds_refl.
  - eapply adds_trans; [apply (Hstep _ _ _ _ Hs)|exact IH].
Qed.

Lemma chain_app {A : Type} (step : A -> stmt_heap B -> list nat -> stmt_heap B -> Prop)
      xs1 xs2 h rs1 h1 rs2 h2 :
  chain step xs1 h rs1 h1 -> chain step xs2 h1 rs2 h2 ->
  chain step (xs1 ++ xs2) h (rs1 ++ rs2) h2.
Proof.
  induction 1; cbn; intros H2; [exact H2|].
  econstructor; [eassumption|]. auto.
Qed.

(** [sequence] with callbacks that push what a step yields. *)
Lemma sequence_chain {A : Type}
      (callback : A -> list nat * stmt_heap B -> option (list nat * stmt_heap B))
      (step : A -> stmt_heap B -> list nat -> stmt_heap B -> Prop)
      (I : stmt_heap B -> Prop) (arr : list A) :
  (forall x, In x arr -> forall r hc, I hc ->
     exists r' hc', callback x (r, hc) = Some (r ++ r', hc') /\ step x hc r' hc' /\ I hc') ->
  forall r0 h0, I h0 ->
    exists rs h', sequence callback arr (r0, h0) = Some (r0 ++ concat rs, h')
                  /\ chain step arr h0 rs h' /\ I h'.
Proof.
  induction arr as [|x arr IH]; intros Hcb r0 h0 HI; cbn [sequence].
  - exists [], h0. cbn. rewrite app_nil_r. split; [reflexivity|]. split; [constructor|exact HI].
  - destruct (Hcb x (or_introl eq_refl) r0 h0 HI) as (r' & hc' & -> & Hs & HI').
    destruct (IH (fun y Hy => Hcb y (or_intror Hy)) (r0 ++ r') hc' HI')
      as (rs & h' & -> & Hc & HI'').
    exists (r' :: rs), h'. cbn. rewrite app_assoc.
    split; [reflexivity|]. split; [econstructor; eassumption|exact HI''].
Qed.

Lemma define_returns f (m : Mod.t B) L h nm :
  returns B f -> ready f L h ->
  (forall l, Obj.get (Mod.definitions m) nm = Some l -> Forall (fun s => s < L) l) ->
  exists r h', define f m nm h = Some (r, h') /\ adds h r h'.
Proof.
  intros Hret Hr Hrefs. unfold define, define_with.
  destruct (Obj.get (Mod.definitions m) nm) as [statements|].
  - specialize (Hrefs _ eq_refl). rewrite Forall_forall in Hrefs.
    destruct (sequence_chain
                (fun statement rh => push_all (fst rh) (expand f statement (snd rh)))
                (fun s h r h' => expand f s h = Some (r, h') /\ adds h r h')
                (ready f L) statements) with (r0 := @nil nat) (h0 := h)
      as (rs & h' & Hseq & Hch & _).
    + intros s Hs r hc Hc. cbn [fst snd].
      destruct (Hret L hc s Hc (Hrefs _ Hs)) as (r' & hc' & He & Ha & _).
      exists r', hc'. rewrite He. cbn.
      split; [reflexivity|]. split; [split; [reflexivity|assumption]|eapply adds_ready; eassumption].
    + exact Hr.
    + exists (concat rs), h'. split; [exact Hseq|].
      eapply chain_adds; [|exact Hch]. intros x h1 r h2 [_ Ha]. exact Ha.
  - exists [], h. split; [reflexivity|apply adds_refl].
Qed.

Lemma modifier_step_adds f L s h r h' :
  returns B f -> ready f L h -> s < L -> modifier_step f s h r h' ->
  adds h r h' /\ included h' s = true /\ (r = [] \/ In s r).
Proof.
  intros Hret Hr Hs. unfold modifier_step.
  destruct (included h s) eqn:Ei.
  - intros [-> ->]. split; [apply adds_refl|]. split; [exact Ei|left; reflexivity].
  - intros He. destruct (Hret L h s Hr Hs) as (r' & h'' & He' & Ha & Hi).
    rewrite He in He'. injection He' as <- <-.
    split; [exact Ha|]. split; [exact Hi|]. right. eapply adds_In; eassumption.
Qed.

Lemma modifications_chain f L (ms : list nat) :
  returns B f -> Forall (fun s => s < L) ms ->
  forall r0 h0, ready f L h0 ->
    exists rs h', expand_modifications (expand f) ms (r0, h0) = Some (r0 ++ concat rs, h')
                  /\ chain (modifier_step f) ms h0 rs h' /\ ready f L h'.
Proof.
  intros Hret Hms. rewrite Forall_forall in Hms. unfold expand_modifications.
  apply sequence_chain.
  intros s Hs r hc Hc. cbn [fst snd].
  pose proof Hc as (_ & _ & Hlen).
  destruct (nth_error hc s) as [st|] eqn:E.
  2:{ apply nth_error_None in E. specialize (Hms _ Hs). lia. }
  destruct (isIncluded st) eqn:Ei; cbn [negb].
  - exists [], hc. rewrite app_nil_r. split; [reflexivity|]. split; [|exact Hc].
    unfold modifier_step, included. rewrite E, Ei. split; reflexivity.
  - destruct (Hret L hc s Hc (Hms _ Hs)) as (r' & hc' & He & Ha & _).
    exists r', hc'. rewrite He. cbn. split; [reflexivity|]. split.
    + unfold modifier_step, included. rewrite E, Ei. exact He.
    + eapply adds_ready; eassumption.
Qed.

Lemma modifiers_chain f L (m : Mod.t B) (names : list string) :
  returns B f ->
  (forall nm l, Obj.get (Mod.modifications m) nm = Some l -> Forall (fun s => s < L) l) ->
  forall r0 h0, ready f L h0 ->
    exists rs h',
      sequence (fun nm rh =>
                  match Obj.get (Mod.modifications m) nm with
                  | Some modifications => expand_modifications (expand f) modifications rh
                  | None => Some rh
                  end) names (r0, h0)
      = Some (r0 ++ concat rs, h')
      /\ chain (modifier_step f)
               (flat_map (fun nm => match Obj.get (Mod.modifications m) nm with
                                    | Some modifications => modifications
                                    | None => []
                                    end) names)
               h0 rs h'
      /\ ready f L h'.
Proof.
  intros Hret Hrefs. induction names as [|nm names IH]; intros r0 h0 Hr; cbn [sequence flat_map].
  - exists [], h0. cbn. rewrite app_nil_r. split; [reflexivity|]. split; [constructor|exact Hr].
  - destruct (Obj.get (Mod.modifications m) nm) as [ms|] eqn:E.
    + destruct (modifications_chain f L ms Hret (Hrefs _ _ E) r0 h0 Hr)
        as (rs1 & h1 & -> & Hc1 & Hr1).
      destruct (IH (r0 ++ concat rs1) h1 Hr1) as (rs2 & h2 & -> & Hc2 & Hr2).
      exists (rs1 ++ rs2), h2. rewrite concat_app, app_assoc.
      split; [reflexivity|]. split; [eapply chain_app; eassumption|exact Hr2].
    + cbn [app]. apply IH. exact Hr.
Qed.

Lemma chain_impl {A : Type} (step1 step2 : A -> stmt_heap B -> list nat -> stmt_heap B -> Prop) :
  (forall x h r h', step1 x h r h' -> step2 x h r h') ->
  forall xs h rs h', chain step1 xs h rs h' -> chain step2 xs h rs h'.
Proof. intros Himp. induction 1; econstructor; eauto. Qed.

Lemma modifier_chain_facts f L :
  returns B f ->
  forall ms h rs h',
    chain (modifier_step f) ms h rs h' ->
    Forall (fun s => s < L) ms -> ready f L h ->
    adds h (concat rs) h' /\ ready f L h'
    /\ Forall2 (fun m b => b = [] \/ In m b) ms rs
    /\ (forall m, In m ms -> included h' m = true).
Proof.
  intros Hret. induction 1 as [h|m ms h r h1 rs h2 Hs Hch IH]; intros Hms Hr.
  - split; [apply adds_refl|]. split; [exact Hr|]. split; [constructor|]. intros m [].
  - inversion Hms as [|? ? Hm Hms']; subst.
    destruct (modifier_step_adds f L m h r h1 Hret Hr Hm Hs) as (Ha & Hi & Hin).
    destruct (IH Hms' (adds_ready _ _ _ _ _ Ha Hr)) as (Ha' & Hr' & HF & Hall).
    split; [cbn; eapply adds_trans; eassumption|]. split; [exact Hr'|].
    split; [constructor; assumption|].
    intros m' [<-|Hm']; [|apply Hall; exact Hm'].
    eapply adds_monotone; eassumption.
Qed.

Lemma adds_perm h r r' h' : adds h r h' -> Permutation r r' -> adds h r' h'.
Proof.
  intros (Hlen & Hnth & Hnd & Hin) Hp.
  assert (Hex : forall i, existsb (Nat.eqb i) r' = existsb (Nat.eqb i) r).
  { intros i. destruct (existsb (Nat.eqb i) r) eqn:E.
    - apply existsb_eqb_In. apply existsb_eqb_In in E. eapply Permutation_in; eassumption.
    - destruct (existsb (Nat.eqb i) r') eqn:E'; [|reflexivity].
      apply existsb_eqb_In in E'. apply Permutation_sym in Hp.
      apply (Permutation_in _ Hp) in E'. apply existsb_eqb_In in E'. congruence. }
  split; [exact Hlen|]. split; [|split].
  - intros i st E. rewrite Hex. apply Hnth. exact E.
  - eapply Permutation_NoDup; eassumption.
  - intros i Hi. apply Hin. eapply Permutation_in; [apply Permutation_sym|]; eassumption.
Qed.

(** [expand] on a statement not yet included, when the calls with fuel [f]
    return. *)
Lemma expand_decomposition f L h this st :
  returns B f -> refs_valid h -> List.length h = L -> pending h <= f ->
  nth_error h this = Some st -> isIncluded st = false ->
  exists dss mss h2 h3,
    chain (define_step f (module st)) (Obj.keys (dependsOn st))
          (update h this include) dss h2
    /\ chain (modifier_step f) (modifiers_of st) h2 mss h3
    /\ expand (S f) this h = Some (concat dss ++ this :: concat mss, h3)
    /\ adds (update h this include) (concat dss) h2
    /\ adds h2 (concat mss) h3
    /\ ready f L h2.
Proof.
  intros Hret Hv Hl Hp E Ei.
  pose proof (adds_mark h this st E Ei) as Hmark.
  assert (Hr1 : ready f L (update h this include)).
  { split; [eapply adds_refs_valid; eassumption|]. split.
    - pose proof (pending_mark h this st E Ei). lia.
    - rewrite update_length. exact Hl. }
  destruct (sequence_chain
              (fun nm rh => push_all (fst rh) (define_with (expand f) (module st) nm (snd rh)))
              (fun nm h r h' => define_step f (module st) nm h r h' /\ adds h r h')
              (ready f L) (Obj.keys (dependsOn st)))
    with (r0 := @nil nat) (h0 := update h this include)
    as (dss & h2 & Hseq & Hch & Hr2).
  { intros nm _ r hc Hc. cbn [fst snd].
    destruct (define_returns f (module st) L hc nm Hret Hc) as (r' & hc' & Hd & Ha).
    - intros l Hget. rewrite <- Hl. apply (Hv this st nm l E). left. exact Hget.
    - exists r', hc'. unfold define in Hd. rewrite Hd. cbn.
      split; [reflexivity|]. split; [split; assumption|eapply adds_ready; eassumption]. }
  { exact Hr1. }
  destruct (modifiers_chain f L (module st) (Obj.keys (defines st)) Hret)
    with (r0 := concat dss ++ [this]) (h0 := h2)
    as (mss & h3 & Hseq2 & Hch2 & Hr3).
  { intros nm l Hget. rewrite <- Hl. apply (Hv this st nm l E). right. exact Hget. }
  { exact Hr2. }
  exists dss, mss, h2, h3.
  split; [eapply chain_impl; [|exact Hch]; intros ? ? ? ? [H _]; exact H|].
  split; [exact Hch2|].
  assert (Hmods : Forall (fun s => s < L) (modifiers_of st)).
  { apply Forall_forall. intros m Hm. unfold modifiers_of in Hm.
    apply in_flat_map in Hm as (nm & _ & Hm).
    destruct (Obj.get (Mod.modifications (module st)) nm) as [l|] eqn:Hget; [|destruct Hm].
    rewrite <- Hl. pose proof (Hv this st nm l E (or_intror Hget)) as HF.
    rewrite Forall_forall in HF. apply HF. exact Hm. }
  destruct (modifier_chain_facts f L Hret _ _ _ _ Hch2 Hmods Hr2) as (Ha2 & _ & _ & _).
  split; [|split; [|split; [exact Ha2|exact Hr2]]].
  - cbn [expand]. unfold expand_body. rewrite E, Ei.
    cbn [app] in Hseq.
    match goal with
    | |- match ?x with _ => _ end = _ =>
        replace x with (Some (concat dss, h2)) by (symmetry; exact Hseq)
    end.
    etransitivity; [exact Hseq2|]. rewrite <- app_assoc. reflexivity.
  - eapply chain_adds; [|exact Hch]. intros ? ? ? ? [_ H]. exact H.
Qed.

Lemma expand_included f h this st :
  nth_error h this = Some st -> isIncluded st = true ->
  expand (S f) this h = Some ([], h).
Proof. intros E Ei. cbn [expand]. unfold expand_body. rewrite E, Ei. reflexivity. Qed.

Lemma expand_returns : forall f, returns B f.
Proof.
  induction f as [|f IH]; intros L h s (Hv & Hp & Hl) Hs.
  - lia.
  - destruct (nth_error h s) as [st|] eqn:E.
    2:{ apply nth_error_None in E. lia. }
    destruct (isIncluded st) eqn:Ei.
    + exists [], h. split; [eapply expand_included; eassumption|].
      split; [apply adds_refl|]. unfold included. rewrite E. exact Ei.
    + destruct (expand_decomposition f L h s st IH Hv Hl) as
          (dss & mss & h2 & h3 & _ & _ & He & Ha1 & Ha2 & _); try assumption; [lia|].
      exists (concat dss ++ s :: concat mss), h3. split; [exact He|].
      assert (Ha : adds h (concat dss ++ s :: concat mss) h3).
      { eapply adds_perm.
        - eapply adds_trans; [eapply adds_mark; eassumption|].
          eapply adds_trans; eassumption.
        - cbn [app]. apply Permutation_middle. }
      split; [exact Ha|].
      eapply adds_In_included; [exact Ha|]. apply in_elt.
Qed.

Lemma session_returns f L : forall calls h,
  ready f L h -> Forall (fun s => s < L) calls ->
  exists rs h', session f calls h = Some (rs, h') /\ adds h (concat rs) h'.
Proof.
  induction calls as [|s calls IH]; intros h Hr Hc; cbn [session].
  - exists [], h. split; [reflexivity|apply adds_refl].
  - inversion Hc; subst.
    destruct (expand_returns f L h s Hr) as (r & h1 & -> & Ha & _); [assumption|].
    destruct (IH h1 (adds_ready _ _ _ _ _ Ha Hr)) as (rs & h2 & -> & Ha2); [assumption|].
    exists (r :: rs), h2. split; [reflexivity|]. cbn. eapply adds_trans; eassumption.
Qed.

(** C1: [expand] on a statement [this] not yet included yields, in this
    order, what [Module.define] produced for each name of [dependsOn]
    ([dss], one list per name), then [this], then the expansions [mss] of
    the statements recorded as modifying the names of [defines], taken in
    recorded order, with an empty list for a modifier already included when
    its turn comes and its own expansion otherwise.  [this] appears once,
    after the dependency statements; every modifier ends up included and,
    when not included before the modifiers are run, appears after [this];
    no statement appears twice in the result, nor across the results of the
    calls of a session. *)
Theorem expand_order :
  forall (f : nat) (h : stmt_heap B) (this : nat) (st : Statement B),
    refs_valid h -> pending h <= f ->
    nth_error h this = Some st -> isIncluded st = false ->
    exists dss mss h2 h3,
      chain (define_step f (module st)) (Obj.keys (dependsOn st))
            (update h this include) dss h2
      /\ chain (modifier_step f) (modifiers_of st) h2 mss h3
      /\ expand (S f) this h = Some (concat dss ++ this :: concat mss, h3)
      /\ ~ In this (concat dss) /\ ~ In this (concat mss)
      /\ NoDup (concat dss ++ this :: concat mss)
      /\ (forall s, In s (concat dss ++ this :: concat mss) ->
                    included h s = false /\ included h3 s = true)
      /\ (forall m, In m (modifiers_of st) ->
                    included h3 m = true
                    /\ (included h2 m = false -> In m (concat mss)))
      /\ Forall2 (fun m b => b = [] \/ In m b) (modifiers_of st) mss
      /\ (forall calls, Forall (fun s => s < List.length h) calls ->
                        exists rs h', session (S f) calls h = Some (rs, h')
                                      /\ NoDup (concat rs)).
Proof.
  intros f h this st Hv Hp E Ei.
  destruct (expand_decomposition f (List.length h) h this st (expand_returns f) Hv eq_refl Hp E Ei)
    as (dss & mss & h2 & h3 & Hc1 & Hc2 & He & Ha1 & Ha2 & Hr2).
  pose proof (adds_mark h this st E Ei) as Hmark.
  assert (Hthis1 : included (update h this include) this = true)
    by (eapply adds_In_included; [exact Hmark|left; reflexivity]).
  assert (Ha : adds h (concat dss ++ this :: concat mss) h3).
  { eapply adds_perm.
    - eapply adds_trans; [exact Hmark|]. eapply adds_trans; eassumption.
    - cbn [app]. apply Permutation_middle. }
  assert (Hmods : Forall (fun s => s < List.length h) (modifiers_of st)).
  { apply Forall_forall. intros m Hm. unfold modifiers_of in Hm.
    apply in_flat_map in Hm as (nm & _ & Hm).
    destruct (Obj.get (Mod.modifications (module st)) nm) as [l|] eqn:Hget; [|destruct Hm].
    pose proof (Hv this st nm l E (or_intror Hget)) as HF.
    rewrite Forall_forall in HF. apply HF. exact Hm. }
  destruct (modifier_chain_facts f _ (expand_returns f) _ _ _ _ Hc2 Hmods Hr2)
    as (_ & _ & HF2 & Hall).
  exists dss, mss, h2, h3.
  split; [exact Hc1|]. split; [exact Hc2|]. split; [exact He|].
  split; [|split; [|split; [|split; [|split; [|split]]]]].
  - intros Hin. destruct Ha1 as (_ & _ & _ & Hnot).
    apply Hnot in Hin as [Hin _]. congruence.
  - intros Hin. destruct Ha2 as (_ & _ & _ & Hnot).
    apply Hnot in Hin as [Hin _].
    rewrite (adds_monotone _ _ _ _ Ha1 Hthis1) in Hin. discriminate.
  - apply Ha.
  - intros s Hs. split; [apply Ha; exact Hs|eapply adds_In_included; eassumption].
  - intros m Hm. split; [apply Hall; exact Hm|].
    intros Hnot. eapply adds_In; [exact Ha2|apply Hall; exact Hm|exact Hnot].
  - exact HF2.
  - intros calls Hcalls.
    destruct (session_returns (S f) (List.length h) calls h) as (rs & h' & Hs & Has).
    + split; [exact Hv|]. split; [lia|reflexivity].
    + exact Hcalls.
    + exists rs, h'. split; [exact Hs|apply Has].
Qed.

Lemma sequence_agree {A St : Type} (cb1 cb2 : A -> St -> option St) (J : St -> Prop)
      (arr : list A) :
  (forall x s, J s -> cb1 x s = cb2 x s) ->
  (forall x s s', J s -> cb2 x s = Some s' -> J s') ->
  forall s, J s ->
    sequence cb1 arr s = sequence cb2 arr s
    /\ (forall s', sequence cb2 arr s = Some s' -> J s').
Proof.
  intros Hagree Hpres. induction arr as [|x arr IH]; intros s HJ; cbn [sequence].
  - split; [reflexivity|]. intros s' [= <-]. exact HJ.
  - rewrite (Hagree x s HJ). destruct (cb2 x s) as [s1|] eqn:E.
    + apply IH. eapply Hpres; eassumption.
    + split; [reflexivity|discriminate].
Qed.

Lemma expand_adds f L h s r h' :
  ready f L h -> expand f s h = Some (r, h') -> adds h r h'.
Proof.
  intros Hr He. destruct (Nat.lt_ge_cases s L) as [Hs|Hs].
  - destruct (expand_returns f L h s Hr Hs) as (r' & h'' & He' & Ha & _).
    rewrite He in He'. injection He' as <- <-. exact Ha.
  - destruct Hr as (_ & _ & Hl). destruct f as [|f]; [discriminate|].
    cbn [expand] in He. unfold expand_body in He.
    assert (E : nth_error h s = None) by (apply nth_error_None; lia).
    rewrite E in He. discriminate.
Qed.

Lemma within_push f L this r hc s :
  within B f L this (r, hc) ->
  push_all r (after_inclusion this (expand f) s hc) = push_all r (expand f s hc)
  /\ (forall rh', push_all r (expand f s hc) = Some rh' -> within B f L this rh').
Proof.
  intros [Hr Hi]. cbn [snd] in *. unfold after_inclusion. rewrite Hi.
  split; [reflexivity|].
  destruct (expand f s hc) as [[r' hc']|] eqn:E; cbn; [|discriminate].
  intros rh' [= <-]. pose proof (expand_adds f L hc s r' hc' Hr E) as Ha.
  split; cbn [snd]; [eapply adds_ready|eapply adds_monotone]; eassumption.
Qed.

Lemma define_with_agree f L this (m : Mod.t B) nm r hc :
  within B f L this (r, hc) ->
  push_all r (define_with (after_inclusion this (expand f)) m nm hc)
  = push_all r (define_with (expand f) m nm hc)
  /\ (forall rh', push_all r (define_with (expand f) m nm hc) = Some rh' ->
                  within B f L this rh').
Proof.
  intros Hw. unfold define_with.
  destruct (Obj.get (Mod.definitions m) nm) as [statements|].
  - destruct (sequence_agree
                (fun statement rh =>
                   push_all (fst rh) (after_inclusion this (expand f) statement (snd rh)))
                (fun statement rh => push_all (fst rh) (expand f statement (snd rh)))
                (within B f L this) statements) with (s := (@nil nat, hc)) as [Heq Hpres].
    + intros s [r0 h0] H0. apply (within_push f L this r0 h0 s H0).
    + intros s [r0 h0] rh' H0. apply (within_push f L this r0 h0 s H0).
    + exact Hw.
    + split; [f_equal; exact Heq|].
      match goal with
      | |- forall rh', push_all r ?x = _ -> _ => destruct x as [[r1 h1]|] eqn:Es
      end; cbn; [|discriminate].
      intros rh' [= <-]. exact (Hpres _ eq_refl).
  - split; [reflexivity|]. cbn. intros rh' [= <-]. exact Hw.
Qed.

Lemma expand_modifications_agree f L this (ms : list nat) rh :
  within B f L this rh ->
  expand_modifications (after_inclusion this (expand f)) ms rh
  = expand_modifications (expand f) ms rh
  /\ (forall rh', expand_modifications (expand f) ms rh = Some rh' -> within B f L this rh').
Proof.
  intros Hw. unfold expand_modifications. apply sequence_agree; [| |exact Hw].
  - intros s [r0 h0] H0. cbn [fst snd].
    destruct (nth_error h0 s) as [st0|]; [|reflexivity].
    destruct (negb (isIncluded st0)); [|reflexivity].
    apply (within_push f L this r0 h0 s H0).
  - intros s [r0 h0] rh' H0. cbn [fst snd].
    destruct (nth_error h0 s) as [st0|]; [|discriminate].
    destruct (negb (isIncluded st0)); [|intros [= <-]; exact H0].
    apply (within_push f L this r0 h0 s H0).
Qed.

Lemma expand_body_after_inclusion f L h this :
  ready (S f) L h ->
  expand_body (after_inclusion this (expand f)) this h = expand_body (expand f) this h.
Proof.
  intros (Hv & Hp & Hl). unfold expand_body.
  destruct (nth_error h this) as [st|] eqn:E; [|reflexivity].
  destruct (isIncluded st) eqn:Ei; [reflexivity|].
  pose proof (adds_mark h this st E Ei) as Hmark.
  assert (Hw : within B f L this (@nil nat, update h this include)).
  { split; cbn [snd].
    - split; [eapply adds_refs_valid; eassumption|]. split.
      + pose proof (pending_mark h this st E Ei). lia.
      + rewrite update_length. exact Hl.
    - eapply adds_In_included; [exact Hmark|left; reflexivity]. }
  destruct (sequence_agree
              (fun nm rh => push_all (fst rh)
                              (define_with (after_inclusion this (expand f)) (module st) nm (snd rh)))
              (fun nm rh => push_all (fst rh) (define_with (expand f) (module st) nm (snd rh)))
              (within B f L this) (Obj.keys (dependsOn st)))
    with (s := (@nil nat, update h this include)) as [Heq Hpres].
  - intros nm [r0 h0] H0. apply (define_with_agree f L this (module st) nm r0 h0 H0).
  - intros nm [r0 h0] rh' H0. apply (define_with_agree f L this (module st) nm r0 h0 H0).
  - exact Hw.
  - match goal with
    | |- match ?x with _ => _ end = _ => replace x with
          (sequence
             (fun nm rh => push_all (fst rh) (define_with (expand f) (module st) nm (snd rh)))
             (Obj.keys (dependsOn st)) (@nil nat, update h this include))
          by (symmetry; exact Heq)
    end.
    match goal with
    | |- _ = match ?x with _ => _ end => destruct x as [[r1 h1]|] eqn:Es
    end; [|reflexivity].
    specialize (Hpres _ eq_refl).
    assert (Hw1 : within B f L this (r1 ++ [this], h1)) by exact Hpres.
    apply (sequence_agree
             (fun nm rh =>
                match Obj.get (Mod.modifications (module st)) nm with
                | Some modifications =>
                    expand_modifications (after_inclusion this (expand f)) modifications rh
                | None => Some rh
                end)
             (fun nm rh =>
                match Obj.get (Mod.modifications (module st)) nm with
                | Some modifications => expand_modifications (expand f) modifications rh
                | None => Some rh
                end)
             (within B f L this)); [| |exact Hw1].
    + intros nm rh H0. destruct (Obj.get (Mod.modifications (module st)) nm); [|reflexivity].
      apply (expand_modifications_agree f L this l rh H0).
    + intros nm rh rh' H0.
      destruct (Obj.get (Mod.modifications (module st)) nm); [|intros [= <-]; exact H0].
      apply (expand_modifications_agree f L this l rh H0).
Qed.

(** C2: a call of [expand] on a statement already included returns the
    empty list at once and leaves the heap as it is.  A first call returns
    (whatever the dependencies, cyclic or not), leaves the statement
    included, and makes every recursive call on a heap in which the
    statement is already included: refusing the recursive calls made before
    that changes nothing.  No call makes an included statement not
    included, and a second call returns the empty list. *)
Theorem expand_gate :
  forall (f : nat) (h : stmt_heap B) (this : nat) (st : Statement B),
    refs_valid h -> pending h <= f -> nth_error h this = Some st ->
    (isIncluded st = true -> forall f', expand (S f') this h = Some ([], h))
    /\ exists r h',
        expand (S f) this h = Some (r, h')
        /\ expand_body (after_inclusion this (expand f)) this h = Some (r, h')
        /\ included h' this = true
        /\ (forall s, included h s = true -> included h' s = true)
        /\ (forall f', expand (S f') this h' = Some ([], h')).
Proof.
  intros f h this st Hv Hp E.
  split; [intros Ei f'; eapply expand_included; eassumption|].
  assert (Hr : ready (S f) (List.length h) h) by (split; [exact Hv|split; [lia|reflexivity]]).
  assert (Hs : this < List.length h) by (apply nth_error_Some; congruence).
  destruct (expand_returns (S f) _ h this Hr Hs) as (r & h' & He & Ha & Hi).
  exists r, h'. split; [exact He|]. split; [|split; [exact Hi|split]].
  - rewrite (expand_body_after_inclusion f _ h this Hr). exact He.
  - intros s. apply (adds_monotone h r h' s Ha).
  - intros f'. apply included_spec in Hi as (st' & E' & Ei').
    eapply expand_included; eassumption.
Qed.
End ExpandFacts.

Lemma refs_validb_sound {B : Type} (h : stmt_heap B) : refs_validb h = true -> refs_valid h.
Proof.
  unfold refs_validb, refs_valid. intros Hb i st nm l E Hget.
  rewrite forallb_forall in Hb. specialize (Hb st (nth_error_In _ _ E)).
  apply andb_prop in Hb as [Hd Hm].
  assert (Hin : forall (o : Obj.t (list nat)), Obj.get o nm = Some l -> exists k, In (k, l) o).
  { induction o as [|[k v] o IH]; cbn; [discriminate|].
    destruct (String.eqb k nm).
    - intros [= ->]. exists k. left. reflexivity.
    - intros H. destruct (IH H) as [k' Hk']. exists k'. right. exact Hk'. }
  apply Forall_forall. intros s Hs.
  rewrite forallb_forall in Hd, Hm.
  destruct Hget as [Hget|Hget]; apply Hin in Hget as [k Hk].
  - specialize (Hd _ Hk). cbn in Hd. rewrite forallb_forall in Hd.
    apply Nat.ltb_lt. apply Hd. exact Hs.
  - specialize (Hm _ Hk). cbn in Hm. rewrite forallb_forall in Hm.
    apply Nat.ltb_lt. apply Hm. exact Hs.
Qed.

(** The witness of C1: expanding statement 0 of the example bundle. *)
Lemma expand_order_witness :
  refs_valid Examples.bundle
  /\ pending Examples.bundle <= 4
  /\ expand 5 0 Examples.bundle
     = Some ([1; 0; 3; 2], map include Examples.bundle)
  /\ exists dss mss h2 h3,
      chain (define_step 4 Examples.bundle_module) ["b"]
            (update Examples.bundle 0 include) dss h2
      /\ chain (modifier_step 4) [2] h2 mss h3
      /\ expand 5 0 Examples.bundle = Some (concat dss ++ 0 :: concat mss, h3)
      /\ NoDup (concat dss ++ 0 :: concat mss).
Proof.
  assert (Hv : refs_valid Examples.bundle) by (apply refs_validb_sound; reflexivity).
  assert (Hp : pending Examples.bundle <= 4) by (vm_compute; lia).
  split; [exact Hv|]. split; [exact Hp|]. split; [reflexivity|].
  destruct (expand_order 4 Examples.bundle 0 (Examples.statement_with ["b"] ["a"])
                         Hv Hp eq_refl eq_refl)
    as (dss & mss & h2 & h3 & Hc1 & Hc2 & He & _ & _ & Hnd & _).
  exists dss, mss, h2, h3. repeat split; assumption.
Defined.

(** The witness of C2: statements 0 and 1 of the example bundle depend on
    each other. *)
Lemma expand_gate_witness :
  refs_valid Examples.bundle
  /\ pending Examples.bundle <= 4
  /\ expand 5 1 Examples.bundle
     = Some ([0; 3; 2; 1], map include Examples.bundle)
  /\ exists r h',
      expand 5 1 Examples.bundle = Some (r, h')
      /\ included h' 1 = true
      /\ expand 1 1 h' = Some ([], h').
Proof.
  assert (Hv : refs_valid Examples.bundle) by (apply refs_validb_sound; reflexivity).
  assert (Hp : pending Examples.bundle <= 4) by (vm_compute; lia).
  split; [exact Hv|]. split; [exact Hp|]. split; [reflexivity|].
  destruct (expand_gate 4 Examples.bundle 1 (Examples.statement_with ["a"] ["b"])
                        Hv Hp eq_refl)
    as (_ & r & h' & He & _ & Hi & _ & Hagain).
  exists r, h'. repeat split; [exact He|exact Hi|apply Hagain].
Defined.

(** ** Walks that know where they are *)
Lemma find_child_nth (k : string) (cs : list (string * estree)) :
  forall i j c, find_child k i cs = Some (j, c) ->
                i <= j /\ nth_error cs (j - i) = Some (k, c).
Proof.
  induction cs as [|[k' c'] cs IH]; intros i j c H; cbn [find_child] in H; [discriminate|].
  destruct (String.eqb k' k) eqn:E.
  - injection H as <- <-. apply String.eqb_eq in E. subst k'.
    split; [apply Nat.le_refl|]. rewrite Nat.sub_diag. reflexivity.
  - destruct (IH _ _ _ H) as [Hle Hn]. split; [lia|].
    replace (j - i) with (S (j - S i)) by lia. exact Hn.
Qed.

Lemma node_at_app (n : estree) (p q : path) :
  node_at n (p ++ q) = match node_at n p with
                       | Some m => node_at m q
                       | None => None
                       end.
Proof.
  revert n. induction p as [|i p IH]; intros n; cbn [app node_at]; [reflexivity|].
  destruct (nth_error (children_of n) i) as [kc|]; [apply IH|reflexivity].
Qed.

Lemma node_at_child (root : estree) (p : path) (a : attrs) (cs : list (string * estree))
      (i : nat) (kc : string * estree) :
  node_at root p = Some (Node a cs) -> nth_error cs i = Some kc ->
  node_at root (p ++ [i]) = Some (snd kc).
Proof.
  intros Hp Hi. rewrite node_at_app, Hp. cbn [node_at children_of]. rewrite Hi. reflexivity.
Qed.

Section WalkInvariantAt.
Context {St : Type}.
Variable I : St -> Prop.
Variable sub : estree -> path -> Prop.
Variable reverse : bool.
Variable enter : estree -> option estree -> string -> path -> St -> result (bool * St).
Variable leave : estree -> path -> St -> result St.

Hypothesis sub_child : forall a cs p i kc,
    sub (Node a cs) p -> nth_error cs i = Some kc -> sub (snd kc) (p ++ [i]).
Hypothesis enter_I : forall n par key p s b s',
    sub n p -> I s -> enter n par key p s = inr (b, s') -> I s'.
Hypothesis leave_I : forall n p s s', sub n p -> I s -> leave n p s = inr s' -> I s'.

Lemma each_invariant_at {A : Type} (f : nat -> A -> St -> result St) (l : list A) :
  forall i0,
    (forall k x, nth_error l k = Some x -> forall s s', I s -> f (i0 + k) x s = inr s' -> I s') ->
    forall s s', I s -> each reverse f i0 l s = inr s' -> I s'.
Proof.
  induction l as [|x l IH]; intros i0 Hf s s' HI He; cbn [each] in He.
  - injection He as <-. exact HI.
  - assert (Hx : forall s s', I s -> f i0 x s = inr s' -> I s').
    { intros s0 s0' H0 H. apply (Hf 0 x eq_refl s0 s0' H0). rewrite Nat.add_0_r. exact H. }
    assert (Hl : forall s s', I s -> each reverse f (S i0) l s = inr s' -> I s').
    { apply IH. intros k y Hk s0 s0' H0 H. apply (Hf (S k) y Hk s0 s0' H0).
      rewrite Nat.add_succ_r. exact H. }
    destruct reverse.
    + destruct (each true f (S i0) l s) as [e|sm] eqn:E; cbn [bind] in He; [discriminate|].
      apply (Hx sm s'); [|exact He]. apply (Hl s sm HI E).
    + destruct (f i0 x s) as [e|sm] eqn:E; cbn [bind] in He; [discriminate|].
      apply (Hl sm s'); [|exact He]. apply (Hx s sm HI E).
Qed.

Lemma visit_invariant_at (n : estree) :
  forall par key p s s',
    sub n p -> I s -> visit reverse enter leave n par key p s = inr s' -> I s'.
Proof.
  induction n as [a cs IH] using estree_induction. intros par key p s s' Hsub HI Hv.
  cbn [visit] in Hv.
  destruct (enter (Node a cs) par key p s) as [e|[b s1]] eqn:Een; cbn [bind fst snd] in Hv;
    [discriminate|].
  pose proof (enter_I _ _ _ _ _ _ _ Hsub HI Een) as HI1.
  destruct b; [injection Hv as <-; exact HI1|].
  match type of Hv with
  | bind ?m _ = _ => destruct m as [e|s2] eqn:Eeach
  end; cbn [bind] in Hv; [discriminate|].
  apply (leave_I _ _ _ _ Hsub) in Hv; [exact Hv|].
  eapply each_invariant_at; [|exact HI1|exact Eeach].
  intros k kc Hk s0 s0' HI0 H. cbn [Nat.add] in H. rewrite Forall_forall in IH.
  apply (IH kc (nth_error_In _ _ Hk) _ _ _ _ _ (sub_child a cs p k kc Hsub Hk) HI0 H).
Qed.
End WalkInvariantAt.

(** ** The [_skip] flags of the rename pass *)
Section SkipFlags.
Context {B : Type} {TB : TextBuffer B}.
Variable reverse : bool.

Lemma frame_refl P (s : rewrite B) : frame P s s.
Proof. split; auto. Qed.

Lemma frame_trans P (s1 s2 s3 : rewrite B) :
  frame P s1 s2 -> frame P s2 s3 -> frame P s1 s3.
Proof.
  intros [M1 F1] [M2 F2]. split; [auto|].
  intros q Hq. destruct (F2 q Hq) as [H|H]; [|auto]. destruct (F1 q H); auto.
Qed.

Lemma frame_weaken (P Q : path -> Prop) (s s' : rewrite B) :
  (forall q, P q -> Q q) -> frame P s s' -> frame Q s s'.
Proof.
  intros HPQ [M F]. split; [exact M|]. intros q Hq. destruct (F q Hq); auto.
Qed.

Lemma frame_flags P (s s' : rewrite B) : w_flags s' = w_flags s -> frame P s s'.
Proof. intros E. split; intros q; rewrite E; auto. Qed.

Lemma path_eqb_refl (p : path) : path_eqb p p = true.
Proof. unfold path_eqb. destruct (list_eq_dec Nat.eq_dec p p); congruence. Qed.

Lemma path_eqb_eq (p q : path) : path_eqb p q = true -> p = q.
Proof. unfold path_eqb. destruct (list_eq_dec Nat.eq_dec p q); [auto|discriminate]. Qed.

Lemma skipped_set_skip (fl : skip_flags) (x q : path) :
  skipped (set_skip fl x) q = skipped fl q || path_eqb q x.
Proof.
  unfold set_skip. destruct (skipped fl x) eqn:E.
  - destruct (path_eqb q x) eqn:Eq.
    + apply path_eqb_eq in Eq. subst. rewrite E. reflexivity.
    + rewrite orb_false_r. reflexivity.
  - unfold skipped. cbn [existsb]. apply orb_comm.
Qed.

Lemma set_skip_present (fl : skip_flags) (x : path) :
  skipped fl x = true -> set_skip fl x = fl.
Proof. unfold set_skip. intros ->. reflexivity. Qed.

Lemma through_below p i0 q : through p i0 q -> below p q.
Proof. intros (k & r & _ & ->). exists (k :: r). split; [discriminate|reflexivity]. Qed.

Lemma below_through p k i0 q : i0 <= k -> below (p ++ [k]) q -> through p i0 q.
Proof.
  intros Hk (r & _ & ->). exists k, r. split; [exact Hk|].
  rewrite <- app_assoc. reflexivity.
Qed.

Lemma not_below_self p : ~ below p p.
Proof.
  intros (r & Hr & E). apply Hr.
  rewrite <- (app_nil_r p) in E at 1. apply app_inv_head in E. auto.
Qed.

(** *** What [enter] and [leave] do to the flags *)

Lemma export_rewrite_flags bundleExports (n : estree) p (ms : B) fl ms' fl' :
  export_rewrite bundleExports n p ms fl = inr (ms', fl') ->
  (fl' = fl /\ forall K, export_rewrite bundleExports n p ms K = inr (ms', K))
  \/ (exists i j, fl' = set_skip fl (p ++ [i; j])
                  /\ forall K, export_rewrite bundleExports n p ms K
                               = inr (ms', set_skip K (p ++ [i; j]))).
Proof.
  unfold export_rewrite.
  destruct (find_child "declarations" 0 (children_of n)) as [first|]; cbn [required bind];
    [|discriminate].
  destruct (find_child "id" 0 (children_of (snd first))) as [id|]; cbn [required bind];
    [|discriminate].
  match goal with |- context [if ?c then _ else _] => destruct c end.
  - match goal with |- context [overwrite ?a ?b ?c ?d] => destruct (overwrite a b c d) end;
      cbn [bind]; [|discriminate].
    intros [= <- <-]. right. exists (fst first), (fst id). split; reflexivity.
  - match goal with |- context [fold_right ?f ?a ?l] => destruct (fold_right f a l) end;
      cbn [bind]; [discriminate|].
    match goal with |- context [insert ?a ?b ?c] => destruct (insert a b c) end;
      intros [= <- <-]; left; split; reflexivity.
Qed.

Lemma rewrite_identifier_flags (n : estree) par key (st st' : rewrite B) :
  rewrite_identifier n par key st = inr st' ->
  w_flags st' = w_flags st
  /\ forall K, rewrite_identifier n par key (set_flags st K) = inr (set_flags st' K).
Proof.
  destruct st as [ms nm stack tl fl].
  unfold rewrite_identifier, set_flags. cbn [w_names w_magicString w_flags w_topLevel
                                            w_replacementStack].
  intros H. unfold bind, required in H |- *.
  repeat match type of H with
         | context [match ?x with _ => _ end] =>
             lazymatch x with
             | context [match _ with _ => _ end] => fail
             | _ => destruct x; cbn [bind required] in H |- *
             end
         end;
    try discriminate; injection H as <-; split; reflexivity.
Qed.

Lemma enter_scope_flags (this : Statement B) deshadowList (n : estree) par key p
      (st : rewrite B) b st' :
  enter_scope this deshadowList n par key p st = inr (b, st') ->
  w_flags st' = w_flags st
  /\ forall K, enter_scope this deshadowList n par key p (set_flags st K)
               = inr (b, set_flags st' K).
Proof.
  unfold enter_scope.
  destruct (tag_at (tags this) p) as [s|].
  - cbn [set_flags w_names w_magicString w_flags w_topLevel w_replacementStack].
    destruct (w_names st) as [names|]; cbn [required bind]; [|discriminate].
    destruct (deref (scopes this) s) as [sc|]; cbn [required bind]; [|discriminate].
    destruct (negb (snd (scoped_names names deshadowList sc))).
    + intros [= <- <-]. split; reflexivity.
    + match goal with |- context [rewrite_identifier n par key ?x] =>
        destruct (rewrite_identifier n par key x) as [e|st2] eqn:E end;
        cbn [bind]; [discriminate|].
      intros [= <- <-]. destruct (rewrite_identifier_flags _ _ _ _ _ E) as [Hf Hk].
      split; [exact Hf|]. intros K. specialize (Hk K). unfold set_flags in Hk.
      cbn [w_names w_magicString w_flags w_topLevel w_replacementStack] in Hk.
      rewrite Hk. reflexivity.
  - destruct (rewrite_identifier n par key st) as [e|st2] eqn:E; cbn [bind]; [discriminate|].
    intros [= <- <-]. destruct (rewrite_identifier_flags _ _ _ _ _ E) as [Hf Hk].
    split; [exact Hf|]. intros K. rewrite Hk. reflexivity.
Qed.

Lemma rewrite_enter_frame (this : Statement B) bundleExports deshadowList
      (n : estree) par key p (st : rewrite B) b st' :
  rewrite_enter this bundleExports deshadowList n par key p st = inr (b, st') ->
  frame (below p) st st'.
Proof.
  unfold rewrite_enter.
  destruct (skipped (w_flags st) p); [intros [= <- <-]; apply frame_refl|].
  destruct (w_topLevel st && type_is n "VariableDeclaration").
  - destruct (export_rewrite bundleExports n p (w_magicString st) (w_flags st))
      as [e|[ms' fl']] eqn:E; cbn [bind fst snd]; [discriminate|].
    intros H. apply enter_scope_flags in H as [Hf _].
    cbn [w_flags] in Hf.
    destruct (export_rewrite_flags _ _ _ _ _ _ _ E) as [[-> _]|(i & j & -> & _)].
    + apply frame_flags. exact Hf.
    + split; intros q; rewrite Hf, skipped_set_skip.
      * intros ->. reflexivity.
      * intros H. apply orb_prop in H as [H|H]; [left; exact H|].
        apply path_eqb_eq in H. right. exists [i; j]. split; [discriminate|exact H].
  - cbn [bind]. intros H. apply enter_scope_flags in H as [Hf _].
    apply frame_flags. exact Hf.
Qed.

Lemma rewrite_leave_flags (this : Statement B) (n : estree) p (st st' : rewrite B) :
  rewrite_leave this n p st = inr st' ->
  w_flags st' = w_flags st
  /\ forall K, rewrite_leave this n p (set_flags st K) = inr (set_flags st' K).
Proof.
  unfold rewrite_leave. destruct (tag_at (tags this) p); intros [= <-]; split; reflexivity.
Qed.

(** *** The flags along a walk *)

Lemma each_frame {A : Type} (p : path) (f : nat -> A -> rewrite B -> result (rewrite B))
      (l : list A) :
  (forall x, In x l -> forall i s s', f i x s = inr s' -> frame (below (p ++ [i])) s s') ->
  forall i0 s s', each reverse f i0 l s = inr s' -> frame (through p i0) s s'.
Proof.
  induction l as [|x l IH]; intros Hf i0 s s' He; cbn [each] in He.
  - injection He as <-. apply frame_refl.
  - assert (Hrest : forall s1 s2, each reverse f (S i0) l s1 = inr s2 ->
                                  frame (through p i0) s1 s2).
    { intros s1 s2 H. eapply frame_weaken; [|eapply IH; [|exact H]].
      - intros q (k & r & Hk & ->). exists k, r. split; [lia|reflexivity].
      - intros y Hy. apply Hf. right. exact Hy. }
    assert (Hx : forall s1 s2, f i0 x s1 = inr s2 -> frame (through p i0) s1 s2).
    { intros s1 s2 H. eapply frame_weaken; [|eapply Hf; [left; reflexivity|exact H]].
      intros q. apply below_through. lia. }
    destruct reverse.
    + destruct (each true f (S i0) l s) as [e|sm] eqn:E; cbn [bind] in He; [discriminate|].
      eapply frame_trans; [apply Hrest; exact E|apply Hx; exact He].
    + destruct (f i0 x s) as [e|sm] eqn:E; cbn [bind] in He; [discriminate|].
      eapply frame_trans; [apply Hx; exact E|apply Hrest; exact He].
Qed.

Lemma visit_frame (this : Statement B) bundleExports deshadowList (n : estree) :
  forall par key p s s',
    visit reverse (rewrite_enter this bundleExports deshadowList) (rewrite_leave this)
          n par key p s = inr s' ->
    frame (below p) s s'.
Proof.
  induction n as [a cs IH] using estree_induction. intros par key p s s' Hv.
  cbn [visit] in Hv.
  destruct (rewrite_enter this bundleExports deshadowList (Node a cs) par key p s)
    as [e|[b s1]] eqn:Een; cbn [bind fst snd] in Hv; [discriminate|].
  pose proof (rewrite_enter_frame _ _ _ _ _ _ _ _ _ _ Een) as Hen.
  destruct b; [injection Hv as <-; exact Hen|].
  match type of Hv with
  | bind ?m _ = _ => destruct m as [e|s2] eqn:Eeach
  end; cbn [bind] in Hv; [discriminate|].
  apply rewrite_leave_flags in Hv as [Hf _].
  eapply frame_trans; [exact Hen|]. eapply frame_trans; [|apply frame_flags; exact Hf].
  eapply frame_weaken; [apply through_below|].
  eapply (each_frame p); [|exact Eeach].
  intros [k c] Hin i s0 s0' H. cbn [fst snd] in H.
  rewrite Forall_forall in IH. eapply (IH _ Hin). exact H.
Qed.

(** *** Running the walk again with the flags it has set *)

Lemma rewrite_enter_again (this : Statement B) bundleExports deshadowList
      (n : estree) par key p (st : rewrite B) b st' K :
  rewrite_enter this bundleExports deshadowList n par key p st = inr (b, st') ->
  skipped K p = skipped (w_flags st) p ->
  (forall q, skipped (w_flags st') q = true -> skipped K q = true) ->
  rewrite_enter this bundleExports deshadowList n par key p (set_flags st K)
  = inr (b, set_flags st' K).
Proof.
  unfold rewrite_enter. cbn [set_flags w_flags w_topLevel w_magicString].
  intros H Hp Hsub. rewrite Hp.
  destruct (skipped (w_flags st) p); [injection H as <- <-; reflexivity|].
  destruct (w_topLevel st && type_is n "VariableDeclaration").
  - destruct (export_rewrite bundleExports n p (w_magicString st) (w_flags st))
      as [e|[ms' fl']] eqn:E; cbn [bind fst snd] in H; [discriminate|].
    destruct (enter_scope_flags _ _ _ _ _ _ _ _ _ H) as [Hf Hk].
    cbn [w_flags] in Hf. specialize (Hk K). unfold set_flags in Hk at 1.
    cbn [w_names w_magicString w_flags w_topLevel w_replacementStack] in Hk.
    destruct (export_rewrite_flags _ _ _ _ _ _ _ E) as [[-> HK]|(i & j & -> & HK)].
    + rewrite HK. cbn [bind fst snd]. exact Hk.
    + rewrite HK. cbn [bind fst snd].
      rewrite set_skip_present; [exact Hk|].
      apply Hsub. rewrite Hf, skipped_set_skip, path_eqb_refl. apply orb_true_r.
  - cbn [bind] in H |- *.
    destruct (enter_scope_flags _ _ _ _ _ _ _ _ _ H) as [_ Hk]. apply Hk.
Qed.

Lemma each_again {A : Type} (p : path) (K : skip_flags)
      (f : nat -> A -> rewrite B -> result (rewrite B)) (l : list A) :
  (forall x, In x l -> forall i s s', f i x s = inr s' -> frame (below (p ++ [i])) s s') ->
  (forall x, In x l -> forall i s s',
      f i x s = inr s' ->
      (forall q, skipped (w_flags s') q = true -> skipped K q = true) ->
      (forall r, skipped K ((p ++ [i]) ++ r) = true ->
                 skipped (w_flags s') ((p ++ [i]) ++ r) = true) ->
      f i x (set_flags s K) = inr (set_flags s' K)) ->
  forall i0 s s',
    each reverse f i0 l s = inr s' ->
    (forall q, skipped (w_flags s') q = true -> skipped K q = true) ->
    (forall k r, i0 <= k -> skipped K (p ++ k :: r) = true ->
                 skipped (w_flags s') (p ++ k :: r) = true) ->
    each reverse f i0 l (set_flags s K) = inr (set_flags s' K).
Proof.
  induction l as [|x l IH]; intros Hfr Hsim i0 s s' He Hsub Hin; cbn [each] in He |- *.
  - injection He as <-. reflexivity.
  - assert (Hfr' : forall y, In y l -> forall i s s',
                 f i y s = inr s' -> frame (below (p ++ [i])) s s')
      by (intros y Hy; apply Hfr; right; exact Hy).
    assert (Hsim' : forall y, In y l -> forall i s s',
                 f i y s = inr s' ->
                 (forall q, skipped (w_flags s') q = true -> skipped K q = true) ->
                 (forall r, skipped K ((p ++ [i]) ++ r) = true ->
                            skipped (w_flags s') ((p ++ [i]) ++ r) = true) ->
                 f i y (set_flags s K) = inr (set_flags s' K))
      by (intros y Hy; apply Hsim; right; exact Hy).
    destruct reverse eqn:Erev.
    + destruct (each true f (S i0) l s) as [e|sm] eqn:E; cbn [bind] in He; [discriminate|].
      pose proof (Hfr x (or_introl eq_refl) i0 sm s' He) as [Mx Fx].
      rewrite (IH Hfr' Hsim' (S i0) s sm E).
      * cbn [bind]. apply (Hsim x (or_introl eq_refl) i0 sm s' He Hsub).
        intros r Hr. rewrite <- app_assoc in Hr |- *. cbn [app] in Hr |- *.
        apply Hin; [lia|exact Hr].
      * intros q Hq. apply Hsub. apply Mx. exact Hq.
      * intros k r Hk Hr. pose proof (Hin k r ltac:(lia) Hr) as H'.
        destruct (Fx _ H') as [H''|(r' & _ & Hbad)]; [exact H''|].
        rewrite <- app_assoc in Hbad. apply app_inv_head in Hbad.
        cbn [app] in Hbad. injection Hbad as Hbad _. lia.
    + destruct (f i0 x s) as [e|sm] eqn:E; cbn [bind] in He; [discriminate|].
      assert (He' : each reverse f (S i0) l sm = inr s') by (rewrite Erev; exact He).
      pose proof (each_frame p f l Hfr' (S i0) sm s' He') as [Mr Fr].
      rewrite (Hsim x (or_introl eq_refl) i0 s sm E).
      * cbn [bind]. apply (IH Hfr' Hsim' (S i0) sm s' He Hsub).
        intros k r Hk Hr. apply Hin; [lia|exact Hr].
      * intros q Hq. apply Hsub. apply Mr. exact Hq.
      * intros r Hr. rewrite <- app_assoc in Hr |- *. cbn [app] in Hr |- *.
        pose proof (Hin i0 r ltac:(lia) Hr) as H'.
        destruct (Fr _ H') as [H''|(k & r' & Hk & Hbad)]; [exact H''|].
        apply app_inv_head in Hbad. injection Hbad as Hbad _. lia.
Qed.

Lemma visit_again (this : Statement B) bundleExports deshadowList (K : skip_flags)
      (n : estree) :
  forall par key p s s',
    visit reverse (rewrite_enter this bundleExports deshadowList) (rewrite_leave this)
          n par key p s = inr s' ->
    (forall q, skipped (w_flags s') q = true -> skipped K q = true) ->
    (forall r, skipped K (p ++ r) = true -> skipped (w_flags s') (p ++ r) = true) ->
    visit reverse (rewrite_enter this bundleExports deshadowList) (rewrite_leave this)
          n par key p (set_flags s K) = inr (set_flags s' K).
Proof.
  induction n as [a cs IH] using estree_induction. intros par key p s s' Hv Hsub Hin.
  pose proof (visit_frame this bundleExports deshadowList (Node a cs) _ _ _ _ _ Hv)
    as [Mall Fall].
  cbn [visit] in Hv |- *.
  destruct (rewrite_enter this bundleExports deshadowList (Node a cs) par key p s)
    as [e|[b s1]] eqn:Een; cbn [bind fst snd] in Hv; [discriminate|].
  assert (Hp : skipped K p = skipped (w_flags s) p).
  { destruct (skipped (w_flags s) p) eqn:Es.
    - apply Hsub. apply Mall. exact Es.
    - destruct (skipped K p) eqn:Ek; [|reflexivity].
      specialize (Hin []). rewrite app_nil_r in Hin. specialize (Hin Ek).
      destruct (Fall _ Hin) as [H|H]; [congruence|].
      exfalso. exact (not_below_self p H). }
  destruct b.
  - injection Hv as <-.
    rewrite (rewrite_enter_again _ _ _ _ _ _ _ _ _ _ K Een Hp Hsub). reflexivity.
  - match type of Hv with
    | bind ?m _ = _ => destruct m as [e|s2] eqn:Eeach
    end; cbn [bind] in Hv; [discriminate|].
    destruct (rewrite_leave_flags _ _ _ _ _ Hv) as [Hf Hl].
    assert (Hfr : forall x, In x cs -> forall i s0 s0',
                 visit reverse (rewrite_enter this bundleExports deshadowList)
                       (rewrite_leave this) (snd x) (Some (Node a cs)) (fst x)
                       (p ++ [i]) s0 = inr s0' ->
                 frame (below (p ++ [i])) s0 s0').
    { intros x _ i s0 s0' H. eapply visit_frame. exact H. }
    pose proof (each_frame p _ cs Hfr 0 s1 s2 Eeach) as [Meach _].
    rewrite (rewrite_enter_again _ _ _ _ _ _ _ _ _ _ K Een Hp).
    2:{ intros q Hq. apply Hsub. rewrite Hf. apply Meach. exact Hq. }
    cbn [bind fst snd].
    rewrite (each_again p K _ cs Hfr) with (s' := s2).
    + cbn [bind]. apply Hl.
    + intros x Hx i s0 s0' H Hs Hi. rewrite Forall_forall in IH.
      apply (IH x Hx _ _ _ _ _ H Hs Hi).
    + exact Eeach.
    + intros q Hq. apply Hsub. rewrite Hf. exact Hq.
    + intros k r _ Hr. rewrite <- Hf. apply (Hin (k :: r)). exact Hr.
Qed.

(** *** Where the flags are put *)

Lemma export_rewrite_binding bundleExports (n : estree) p (ms : B) fl ms' fl' :
  export_rewrite bundleExports n p ms fl = inr (ms', fl') ->
  fl' = fl
  \/ exists first id,
      find_child "declarations" 0 (children_of n) = Some first
      /\ find_child "id" 0 (children_of (snd first)) = Some id
      /\ List.length (childs "declarations" n) = 1
      /\ truthy_at bundleExports (name_of (snd id)) = true
      /\ fl' = set_skip fl (p ++ [fst first; fst id]).
Proof.
  unfold export_rewrite.
  destruct (find_child "declarations" 0 (children_of n)) as [first|] eqn:Ef;
    cbn [required bind]; [|discriminate].
  destruct (find_child "id" 0 (children_of (snd first))) as [id|] eqn:Ei;
    cbn [required bind]; [|discriminate].
  destruct (Nat.eqb (List.length (childs "declarations" n)) 1) eqn:E1; cbn [andb].
  - destruct (truthy_at bundleExports (name_of (snd id))) eqn:Et.
    + match goal with |- context [overwrite ?a ?b ?c ?d] => destruct (overwrite a b c d) end;
        cbn [bind]; [|discriminate].
      intros [= _ <-]. right. exists first, id. apply Nat.eqb_eq in E1.
      repeat split; assumption || reflexivity.
    + match goal with |- context [fold_right ?f ?a ?l] => destruct (fold_right f a l) end;
        cbn [bind]; [discriminate|].
      match goal with |- context [insert ?a ?b ?c] => destruct (insert a b c) end;
        intros [= _ <-]; left; reflexivity.
  - match goal with |- context [fold_right ?f ?a ?l] => destruct (fold_right f a l) end;
      cbn [bind]; [discriminate|].
    match goal with |- context [insert ?a ?b ?c] => destruct (insert a b c) end;
      intros [= _ <-]; left; reflexivity.
Qed.

Lemma rewrite_enter_binding (root : estree) (this : Statement B) bundleExports deshadowList
      (n : estree) par key p (st : rewrite B) b st' :
  node_at root p = Some n ->
  rewrite_enter this bundleExports deshadowList n par key p st = inr (b, st') ->
  forall q, skipped (w_flags st') q = true ->
            skipped (w_flags st) q = true \/ exported_binding root bundleExports q.
Proof.
  intros Hat. unfold rewrite_enter.
  destruct (skipped (w_flags st) p); [intros [= <- <-]; auto|].
  destruct (w_topLevel st && type_is n "VariableDeclaration") eqn:Etop.
  - destruct (export_rewrite bundleExports n p (w_magicString st) (w_flags st))
      as [e|[ms' fl']] eqn:E; cbn [bind fst snd]; [discriminate|].
    intros H q. apply enter_scope_flags in H as [Hf _]. cbn [w_flags] in Hf. rewrite Hf.
    destruct (export_rewrite_binding _ _ _ _ _ _ _ E)
      as [->|(first & id & Hfirst & Hid & Hone & Htarget & ->)]; [auto|].
    rewrite skipped_set_skip. intros Hq. apply orb_prop in Hq as [Hq|Hq]; [left; exact Hq|].
    apply path_eqb_eq in Hq. right.
    apply andb_prop in Etop as [_ Hty].
    destruct first as [i d1]. destruct id as [j d2]. cbn [fst snd] in *.
    destruct (find_child_nth _ _ _ _ _ Hfirst) as [_ Hn1].
    destruct (find_child_nth _ _ _ _ _ Hid) as [_ Hn2].
    rewrite Nat.sub_0_r in Hn1, Hn2.
    exists p, n, (i, d1), (j, d2). cbn [fst snd].
    repeat split; try assumption.
    subst q. rewrite node_at_app, Hat. cbn [node_at]. rewrite Hn1. cbn [snd].
    rewrite Hn2. reflexivity.
  - cbn [bind]. intros H q. apply enter_scope_flags in H as [Hf _]. rewrite Hf. auto.
Qed.

(** C8, as amended: [replaceIdentifiers] returns an edited clone of the
    buffer and leaves the statement as it is but for [_skip] flags that it
    adds to nodes, each of them the binding identifier of an
    export-rewritten single declarator: node, scope tags, scope, [defines],
    [modifies], [dependsOn], [isIncluded] and the statement's own buffer
    are the same afterwards, no flag is removed, every flag that is new
    sits on the binding of the only declarator of a variable declaration
    whose name has an export target, and calling it again with the same
    arguments yields the same edited buffer and the same statement. *)
Theorem replaceIdentifiers_adds_flags_only :
  forall (this : Statement B) names bundleExports b this',
    replaceIdentifiers reverse this names bundleExports = inr (b, this') ->
    this' = with_flags this (flags this')
    /\ (forall p, skipped (flags this) p = true -> skipped (flags this') p = true)
    /\ (forall q, skipped (flags this') q = true ->
                  skipped (flags this) q = true
                  \/ exported_binding (node this) bundleExports q)
    /\ replaceIdentifiers reverse this' names bundleExports = inr (b, this').
Proof.
  intros this names bundleExports b this'. unfold replaceIdentifiers.
  match goal with |- context [if ?c then _ else _] => destruct c eqn:Ec end.
  - match goal with |- context [walk reverse ?en ?le ?n ?s] =>
      destruct (walk reverse en le n s) as [e|st] eqn:Ew end; cbn [bind]; [discriminate|].
    intros [= <- <-]. unfold walk in Ew.
    pose proof (visit_frame _ _ _ _ _ _ _ _ _ Ew) as [Mall _].
    split; [reflexivity|]. split; [exact Mall|].
    split.
    { cbn [with_flags flags].
      set (I := fun s : rewrite B =>
                  forall q, skipped (w_flags s) q = true ->
                            skipped (flags this) q = true
                            \/ exported_binding (node this) bundleExports q).
      assert (HI : I st); [|exact HI].
      eapply (visit_invariant_at I (fun n p => node_at (node this) p = Some n));
        [| | | | |exact Ew].
      - intros a cs p i kc Hp Hi. apply (node_at_child _ _ a cs i kc Hp Hi).
      - intros n par key p s b0 s' Hp Hs Hen q Hq.
        destruct (rewrite_enter_binding _ _ _ _ _ _ _ _ _ _ _ Hp Hen q Hq) as [H|H];
          [apply Hs; exact H|right; exact H].
      - intros n p s s' _ Hs. unfold rewrite_leave.
        destruct (tag_at (tags this) p); intros [= <-]; exact Hs.
      - reflexivity.
      - intros q Hq. left. exact Hq. }
    cbn [with_flags node magicString flags].
    change (rewrite_enter (with_flags this (w_flags st)))
      with (rewrite_enter this).
    change (rewrite_leave (with_flags this (w_flags st))) with (rewrite_leave this).
    unfold walk.
    match goal with
    | |- context [visit reverse ?en ?le ?n ?par ?key ?p ?s] =>
        change s with (set_flags
                         (mkRewrite (clone (magicString this)) (Some names) [names] true
                                    (flags this))
                         (w_flags st))
    end.
    rewrite (visit_again this bundleExports _ (w_flags st) _ _ _ _ _ _ Ew).
    + cbn [bind set_flags w_magicString w_flags]. reflexivity.
    + auto.
    + auto.
  - intros [= <- <-]. split; [destruct this; reflexivity|]. split; [auto|].
    split; [auto|reflexivity].
Qed.
End SkipFlags.

(** The witness of C8: [var x = 1;] rewritten to the export target
    [exports.x], twice; the flag it gets is on the binding [x]. *)
Lemma replaceIdentifiers_adds_flags_only_witness :
  exists b st',
    replaceIdentifiers false Examples.var_x_analysed [] [("x", "exports.x")] = inr (b, st')
    /\ replaceIdentifiers false st' [] [("x", "exports.x")] = inr (b, st')
    /\ flags st' = [[0; 0]]
    /\ (forall q, skipped (flags st') q = true ->
                  skipped (flags Examples.var_x_analysed) q = true
                  \/ exported_binding (node Examples.var_x_analysed)
                                      [("x", "exports.x")] q).
Proof.
  destruct (replaceIdentifiers false Examples.var_x_analysed [] [("x", "exports.x")])
    as [e|[b st']] eqn:E.
  - vm_compute in E. discriminate.
  - exists b, st'. split; [reflexivity|].
    destruct (replaceIdentifiers_adds_flags_only false Examples.var_x_analysed []
                [("x", "exports.x")] b st' E) as (_ & _ & Hnew & Hagain).
    split; [exact Hagain|]. split; [|exact Hnew].
    vm_compute in E. injection E as _ <-. reflexivity.
Defined.

(** The counterexample to C8 as stated: rewriting [var x = 1;] to the export
    target [exports.x] leaves a [_skip] flag on the binding [x], which the
    statement did not have; the flag outlives the call, and a later call
    that renames [x] to [y] no longer rewrites the binding. *)
Lemma replaceIdentifiers_flags_the_binding :
  match replaceIdentifiers false Examples.var_x_analysed [] [("x", "exports.x")] with
  | inr (b, st') =>
      flags Examples.var_x_analysed = []
      /\ flags st' = [[0; 0]]
      /\ st' <> Examples.var_x_analysed
      /\ Examples.edits_of (replaceIdentifiers false Examples.var_x_analysed [("x", "y")] [])
         = [Insert 10 ""; Overwrite 4 5 "y"]
      /\ Examples.edits_of (replaceIdentifiers false st' [("x", "y")] [])
         = [Insert 10 ""]
  | inl _ => False
  end.
Proof.
  vm_compute. repeat split. intros H. discriminate H.
Qed.

(** ** What a session includes *)
Section SessionFacts.
Context {B : Type}.
Implicit Types (h : stmt_heap B) (st : Statement B).

Lemma include_of_included st : isIncluded st = true -> include st = st.
Proof. destruct st; cbn. intros ->. reflexivity. Qed.

Lemma requirements_adds h r h' s : adds h r h' -> requirements h' s = requirements h s.
Proof.
  intros (Hlen & Hnth & _ & _). unfold requirements.
  destruct (nth_error h s) as [st|] eqn:E.
  - rewrite (Hnth _ _ E). destruct (existsb (Nat.eqb s) r); reflexivity.
  - assert (E' : nth_error h' s = None).
    { apply nth_error_None. rewrite Hlen. apply nth_error_None. exact E. }
    rewrite E'. reflexivity.
Qed.

Lemma reach_ext h h' :
  (forall s, requirements h' s = requirements h s) ->
  forall s x, reach h' s x -> reach h s x.
Proof.
  intros Hreq s x Hr. induction Hr as [s|s d x Hd _ IH].
  - constructor.
  - econstructor; [rewrite <- Hreq; exact Hd|exact IH].
Qed.

Lemma reach_trans h s d x : reach h s d -> reach h d x -> reach h s x.
Proof. induction 1; [auto|]. intros. econstructor; eauto. Qed.

Lemma closed_reach h s x :
  closed h -> included h s = true -> reach h s x -> included h x = true.
Proof.
  intros Hc Hs Hr. induction Hr as [s|s d x Hd _ IH]; [exact Hs|].
  apply IH. apply (Hc s Hs); [tauto|exact Hd].
Qed.

Lemma sequence_preserves {A St : Type} (cb : A -> St -> option St) (I : St -> Prop)
      (arr : list A) :
  (forall x s s', In x arr -> I s -> cb x s = Some s' -> I s') ->
  forall s s', I s -> sequence cb arr s = Some s' -> I s'.
Proof.
  induction arr as [|a arr IH]; intros Hstep s s' HI Hs; cbn [sequence] in Hs.
  - injection Hs as <-. exact HI.
  - destruct (cb a s) as [s1|] eqn:E; [|discriminate].
    apply (IH (fun x s0 s0' Hx => Hstep x s0 s0' (or_intror Hx)) s1 s');
      [|exact Hs].
    apply (Hstep a s s1); [left; reflexivity|exact HI|exact E].
Qed.

Lemma sequence_establishes {A St : Type} (cb : A -> St -> option St) (I : St -> Prop)
      (Q : A -> St -> Prop) (arr : list A) :
  (forall x s s', In x arr -> I s -> cb x s = Some s' -> I s' /\ Q x s') ->
  (forall x y s s', In y arr -> I s -> Q x s -> cb y s = Some s' -> Q x s') ->
  forall s s', I s -> sequence cb arr s = Some s' ->
               I s' /\ forall x, In x arr -> Q x s'.
Proof.
  induction arr as [|a arr IH]; intros Hstep Hkeep s s' HI Hs; cbn [sequence] in Hs.
  - injection Hs as <-. split; [exact HI|intros x []].
  - destruct (cb a s) as [s1|] eqn:E; [|discriminate].
    destruct (Hstep a s s1 (or_introl eq_refl) HI E) as [HI1 HQ1].
    assert (Hstep' : forall x s0 s0', In x arr -> I s0 -> cb x s0 = Some s0' ->
                                      I s0' /\ Q x s0')
      by (intros x s0 s0' Hx; apply Hstep; right; exact Hx).
    assert (Hkeep' : forall x y s0 s0', In y arr -> I s0 -> Q x s0 ->
                                        cb y s0 = Some s0' -> Q x s0')
      by (intros x y s0 s0' Hy; apply Hkeep; right; exact Hy).
    destruct (IH Hstep' Hkeep' s1 s' HI1 Hs) as [HI' HQ'].
    split; [exact HI'|]. intros x [<-|Hx]; [|apply HQ'; exact Hx].
    assert (HIQ : I s' /\ Q a s'); [|apply HIQ].
    apply (sequence_preserves cb (fun s0 => I s0 /\ Q a s0) arr) with (s := s1);
      [|split; assumption|exact Hs].
    intros y s0 s0' Hy [HI0 HQ0] Hcb. split.
    + apply (Hstep' y s0 s0' Hy HI0 Hcb).
    + apply (Hkeep' a y s0 s0' Hy HI0 HQ0 Hcb).
Qed.

Lemma expand_includes f L h s r h' :
  ready f L h -> expand f s h = Some (r, h') -> included h' s = true.
Proof.
  intros Hr He.
  assert (Hs : s < L).
  { destruct Hr as (_ & _ & <-). destruct f as [|f]; [discriminate|].
    cbn [expand] in He. unfold expand_body in He.
    destruct (nth_error h s) eqn:E; [|discriminate].
    apply nth_error_Some. congruence. }
  destruct (expand_returns f L h s Hr Hs) as (r' & h'' & He' & _ & Hi).
  rewrite He in He'. injection He' as <- <-. exact Hi.
Qed.

Lemma push_expand_kept f L P h0 r hc s rh' :
  closes B f -> kept f L P h0 (r, hc) ->
  push_all r (expand f s hc) = Some rh' ->
  kept f L P h0 rh' /\ included (snd rh') s = true
  /\ (forall x, included hc x = true -> included (snd rh') x = true).
Proof.
  intros Hcl (Hr & Hc & Hm) Hp. cbn [snd] in *.
  destruct (expand f s hc) as [[r' hc']|] eqn:E; cbn in Hp; [|discriminate].
  injection Hp as <-. cbn [snd].
  pose proof (expand_adds f L hc s r' hc' Hr E) as Ha.
  split; [split; [|split]|split].
  - eapply adds_ready; eassumption.
  - eapply Hcl; eassumption.
  - intros x Hx. eapply adds_monotone; [exact Ha|]. apply Hm. exact Hx.
  - eapply expand_includes; eassumption.
  - intros x. apply (adds_monotone hc r' hc' x Ha).
Qed.

Lemma define_kept f L P h0 (m : Mod.t B) nm r hc rh' :
  closes B f -> kept f L P h0 (r, hc) ->
  push_all r (define_with (expand f) m nm hc) = Some rh' ->
  kept f L P h0 rh'
  /\ (forall l d, Obj.get (Mod.definitions m) nm = Some l -> In d l ->
                  included (snd rh') d = true)
  /\ (forall x, included hc x = true -> included (snd rh') x = true).
Proof.
  intros Hcl Hk Hp. unfold define_with in Hp.
  destruct (Obj.get (Mod.definitions m) nm) as [statements|].
  - match type of Hp with
    | push_all r ?x = _ => destruct x as [[r1 h1]|] eqn:Es
    end; cbn in Hp; [|discriminate].
    injection Hp as <-. cbn [snd].
    destruct (sequence_establishes
                (fun statement rh => push_all (fst rh) (expand f statement (snd rh)))
                (fun rh => kept f L P h0 rh
                           /\ forall x, included hc x = true -> included (snd rh) x = true)
                (fun d rh => included (snd rh) d = true)
                statements) with (s := (@nil nat, hc)) (s' := (r1, h1)) as [[Hk1 Hm1] HQ].
    + intros d [r0 hx] rh1 _ [Hk0 Hm0] Hcb. cbn [fst snd] in *.
      destruct (push_expand_kept f L P h0 r0 hx d rh1 Hcl Hk0 Hcb) as (Hk' & Hd & Hm').
      split; [split; [exact Hk'|]|exact Hd].
      intros x Hx. apply Hm'. apply Hm0. exact Hx.
    + intros d y [r0 hx] rh1 _ [Hk0 _] Hd Hcb. cbn [fst snd] in *.
      destruct (push_expand_kept f L P h0 r0 hx y rh1 Hcl Hk0 Hcb) as (_ & _ & Hm').
      apply Hm'. exact Hd.
    + split; [exact Hk|auto].
    + exact Es.
    + split; [exact Hk1|]. split; [|exact Hm1].
      intros l d [= <-] Hd. apply HQ. exact Hd.
  - cbn in Hp. injection Hp as <-. split; [exact Hk|]. split; [discriminate|auto].
Qed.

Lemma modifications_kept f L P h0 (ms : list nat) rh rh' :
  closes B f -> kept f L P h0 rh ->
  expand_modifications (expand f) ms rh = Some rh' ->
  kept f L P h0 rh'
  /\ (forall d, In d ms -> included (snd rh') d = true)
  /\ (forall x, included (snd rh) x = true -> included (snd rh') x = true).
Proof.
  intros Hcl Hk Hp. unfold expand_modifications in Hp.
  destruct (sequence_establishes
              (fun statement rh0 =>
                 match nth_error (snd rh0) statement with
                 | Some st0 =>
                     if negb (isIncluded st0)
                     then push_all (fst rh0) (expand f statement (snd rh0))
                     else Some rh0
                 | None => None
                 end)
              (fun rh0 => kept f L P h0 rh0
                          /\ forall x, included (snd rh) x = true ->
                                       included (snd rh0) x = true)
              (fun d rh0 => included (snd rh0) d = true)
              ms) with (s := rh) (s' := rh') as [[Hk1 Hm1] HQ].
  - intros d [r0 hx] rh1 _ [Hk0 Hm0] Hcb. cbn [fst snd] in *.
    destruct (nth_error hx d) as [st0|] eqn:E; [|discriminate].
    destruct (isIncluded st0) eqn:Ei; cbn [negb] in Hcb.
    + injection Hcb as <-. cbn [snd]. split; [split; assumption|].
      unfold included. rewrite E. exact Ei.
    + destruct (push_expand_kept f L P h0 r0 hx d rh1 Hcl Hk0 Hcb) as (Hk' & Hd & Hm').
      split; [split; [exact Hk'|]|exact Hd].
      intros x Hx. apply Hm'. apply Hm0. exact Hx.
  - intros d y [r0 hx] rh1 _ [Hk0 _] Hd Hcb. cbn [fst snd] in *.
    destruct (nth_error hx y) as [st0|] eqn:E; [|discriminate].
    destruct (isIncluded st0) eqn:Ei; cbn [negb] in Hcb.
    + injection Hcb as <-. exact Hd.
    + destruct (push_expand_kept f L P h0 r0 hx y rh1 Hcl Hk0 Hcb) as (_ & _ & Hm').
      apply Hm'. exact Hd.
  - split; [exact Hk|auto].
  - exact Hp.
  - split; [exact Hk1|]. split; [exact HQ|exact Hm1].
Qed.

Lemma expand_closes : forall f, closes B f.
Proof.
  induction f as [|f IH]; intros L P h s r h' Hr He Hc; [discriminate|].
  pose proof (expand_adds (S f) L h s r h' Hr He) as Hadds.
  cbn [expand] in He. unfold expand_body in He.
  destruct (nth_error h s) as [st|] eqn:E; [|discriminate].
  destruct (isIncluded st) eqn:Ei; [injection He as <- <-; exact Hc|].
  pose proof (adds_mark h s st E Ei) as Hmark.
  destruct Hr as (Hv & Hp & Hl).
  set (h1 := update h s include) in *.
  set (P' := fun x => P x \/ x = s).
  assert (Hk1 : kept f L P' h1 (@nil nat, h1)).
  { split; [|split]; cbn [snd].
    - split; [eapply adds_refs_valid; eassumption|]. split.
      + pose proof (pending_mark h s st E Ei). fold h1 in H. lia.
      + unfold h1. rewrite update_length. exact Hl.
    - intros s0 Hs0 HP d Hd.
      rewrite (requirements_adds _ _ _ s0 Hmark) in Hd.
      apply (adds_monotone _ _ _ d Hmark).
      apply (Hc s0); [|intros HP0; apply HP; left; exact HP0|exact Hd].
      rewrite (adds_included _ _ _ s0 Hmark) in Hs0. cbn [existsb] in Hs0.
      rewrite orb_false_r in Hs0. apply orb_prop in Hs0 as [H|H]; [exact H|].
      apply Nat.eqb_eq in H. exfalso. apply HP. right. exact H.
    - auto. }
  match type of He with
  | match ?x with _ => _ end = _ => destruct x as [[r1 h2]|] eqn:Ed
  end; [|discriminate].
  destruct (sequence_establishes
              (fun nm rh => push_all (fst rh) (define_with (expand f) (module st) nm (snd rh)))
              (kept f L P' h1)
              (fun nm rh => forall l d, Obj.get (Mod.definitions (module st)) nm = Some l ->
                                        In d l -> included (snd rh) d = true)
              (Obj.keys (dependsOn st))) with (s := (@nil nat, h1)) (s' := (r1, h2))
    as [Hk2 HQ2].
  { intros nm [r0 hx] rh1 _ Hk0 Hcb. cbn [fst snd] in Hcb.
    destruct (define_kept f L P' h1 (module st) nm r0 hx rh1 IH Hk0 Hcb) as (Hk' & Hd & _).
    split; assumption. }
  { intros nm y [r0 hx] rh1 _ Hk0 Hd Hcb l d Hget Hin. cbn [fst snd] in *.
    destruct (define_kept f L P' h1 (module st) y r0 hx rh1 IH Hk0 Hcb) as (_ & _ & Hm).
    apply Hm. eapply Hd; eassumption. }
  { exact Hk1. }
  { exact Ed. }
  assert (Hk2' : kept f L P' h2 (r1 ++ [s], h2)).
  { destruct Hk2 as (Hr2 & Hc2 & _). split; [exact Hr2|]. split; [exact Hc2|auto]. }
  destruct (sequence_establishes
              (fun nm rh =>
                 match Obj.get (Mod.modifications (module st)) nm with
                 | Some modifications => expand_modifications (expand f) modifications rh
                 | None => Some rh
                 end)
              (kept f L P' h2)
              (fun nm rh => forall l d, Obj.get (Mod.modifications (module st)) nm = Some l ->
                                        In d l -> included (snd rh) d = true)
              (Obj.keys (defines st))) with (s := (r1 ++ [s], h2)) (s' := (r, h'))
    as [Hk3 HQ3].
  { intros nm rh0 rh1 _ Hk0 Hcb.
    destruct (Obj.get (Mod.modifications (module st)) nm) as [ms|].
    - destruct (modifications_kept f L P' h2 ms rh0 rh1 IH Hk0 Hcb) as (Hk' & Hd & _).
      split; [exact Hk'|]. intros l d [= <-]. apply Hd.
    - injection Hcb as <-. split; [exact Hk0|discriminate]. }
  { intros nm y rh0 rh1 _ Hk0 Hd Hcb l d Hget Hin.
    destruct (Obj.get (Mod.modifications (module st)) y) as [ms|].
    - destruct (modifications_kept f L P' h2 ms rh0 rh1 IH Hk0 Hcb) as (_ & _ & Hm).
      apply Hm. eapply Hd; eassumption.
    - injection Hcb as <-. eapply Hd; eassumption. }
  { exact Hk2'. }
  { exact He. }
  destruct Hk3 as (_ & Hc3 & Hm3). cbn [snd] in *.
  intros s0 Hs0 HP d Hd.
  destruct (Nat.eq_dec s0 s) as [->|Hne].
  - rewrite (requirements_adds _ _ _ s Hadds) in Hd.
    unfold requirements in Hd. rewrite E in Hd. unfold required_by in Hd.
    apply in_app_iff in Hd as [Hd|Hd].
    + unfold definers_of in Hd. apply in_flat_map in Hd as (nm & Hnm & Hd).
      destruct (Obj.get (Mod.definitions (module st)) nm) as [l|] eqn:Hget; [|destruct Hd].
      apply Hm3. apply (HQ2 nm Hnm l d Hget Hd).
    + unfold modifiers_of in Hd. apply in_flat_map in Hd as (nm & Hnm & Hd).
      destruct (Obj.get (Mod.modifications (module st)) nm) as [l|] eqn:Hget; [|destruct Hd].
      apply (HQ3 nm Hnm l d Hget Hd).
  - apply (Hc3 s0 Hs0); [|exact Hd]. intros [HP0|Heq]; [exact (HP HP0)|exact (Hne Heq)].
Qed.

Lemma push_expand_reached f L h s r hc d rh' :
  reaches B f -> reached f L h s (r, hc) -> In d (requirements h s) ->
  push_all r (expand f d hc) = Some rh' -> reached f L h s rh'.
Proof.
  intros Hre (Hr & Hreq & Hin) Hd Hp. cbn [fst snd] in *.
  destruct (expand f d hc) as [[r' hc']|] eqn:E; cbn in Hp; [|discriminate].
  injection Hp as <-. unfold reached. cbn [fst snd].
  pose proof (expand_adds f L hc d r' hc' Hr E) as Ha.
  split; [eapply adds_ready; eassumption|]. split.
  - intros y. rewrite (requirements_adds _ _ _ y Ha). apply Hreq.
  - intros x Hx. apply in_app_iff in Hx as [Hx|Hx]; [apply Hin; exact Hx|].
    econstructor; [exact Hd|]. apply (reach_ext h hc Hreq).
    eapply Hre; eassumption.
Qed.

Lemma expand_reaches : forall f, reaches B f.
Proof.
  induction f as [|f IH]; intros L h s r h' Hr He; [discriminate|].
  cbn [expand] in He. unfold expand_body in He.
  destruct (nth_error h s) as [st|] eqn:E; [|discriminate].
  destruct (isIncluded st) eqn:Ei; [injection He as <- <-; intros x []|].
  pose proof (adds_mark h s st E Ei) as Hmark.
  destruct Hr as (Hv & Hp & Hl).
  assert (Hreqs : requirements h s = required_by st) by (unfold requirements; rewrite E; reflexivity).
  assert (H1 : reached f L h s (@nil nat, update h s include)).
  { split; [|split]; cbn [fst snd].
    - split; [eapply adds_refs_valid; eassumption|]. split.
      + pose proof (pending_mark h s st E Ei). lia.
      + rewrite update_length. exact Hl.
    - intros y. apply (requirements_adds _ _ _ y Hmark).
    - intros x []. }
  match type of He with
  | match ?x with _ => _ end = _ => destruct x as [[r1 h2]|] eqn:Ed
  end; [|discriminate].
  assert (H2 : reached f L h s (r1, h2)).
  { apply (sequence_preserves
             (fun nm rh => push_all (fst rh) (define_with (expand f) (module st) nm (snd rh)))
             (reached f L h s) (Obj.keys (dependsOn st))) with (s := (@nil nat, update h s include));
      [|exact H1|exact Ed].
    intros nm [r0 hx] rh1 Hnm H0 Hcb. cbn [fst snd] in Hcb. unfold define_with in Hcb.
    destruct (Obj.get (Mod.definitions (module st)) nm) as [statements|] eqn:Hget.
    - match type of Hcb with
      | push_all r0 ?x = _ => destruct x as [[r2 h3]|] eqn:Es
      end; cbn in Hcb; [|discriminate].
      injection Hcb as <-.
      assert (H3 : reached f L h s (r0 ++ r2, h3)).
      { assert (Hgen : forall acc, reached f L h s (acc, hx) ->
                         forall r' h'', sequence
                              (fun statement rh =>
                                 push_all (fst rh) (expand f statement (snd rh)))
                              statements (acc, hx) = Some (r', h'') ->
                                        reached f L h s (r', h'')).
        { intros acc Hacc r' h'' Hseq.
          apply (sequence_preserves
                   (fun statement rh => push_all (fst rh) (expand f statement (snd rh)))
                   (reached f L h s) statements) with (s := (acc, hx));
            [|exact Hacc|exact Hseq].
          intros d [r3 h4] rh2 Hd H4 Hcb'. cbn [fst snd] in Hcb'.
          apply (push_expand_reached f L h s r3 h4 d rh2 IH H4); [|exact Hcb'].
          rewrite Hreqs. unfold required_by. apply in_app_iff. left.
          unfold definers_of. apply in_flat_map. exists nm. split; [exact Hnm|].
          rewrite Hget. exact Hd. }
        destruct H0 as (Hr0 & Hq0 & Hin0). cbn [fst snd] in *.
        destruct (Hgen [] (conj Hr0 (conj Hq0 (fun x (F : In x []) => match F with end)))
                       r2 h3 Es) as (Hr3 & Hq3 & Hin3).
        split; [exact Hr3|]. split; [exact Hq3|]. cbn [fst snd] in *.
        intros x Hx. apply in_app_iff in Hx as [Hx|Hx]; auto. }
      exact H3.
    - cbn in Hcb. injection Hcb as <-. rewrite app_nil_r. exact H0. }
  assert (H2' : reached f L h s (r1 ++ [s], h2)).
  { destruct H2 as (Hr2 & Hq2 & Hin2). split; [exact Hr2|]. split; [exact Hq2|].
    cbn [fst snd] in *. intros x Hx. apply in_app_iff in Hx as [Hx|[<-|[]]]; [auto|constructor]. }
  assert (H3 : reached f L h s (r, h')).
  { apply (sequence_preserves
             (fun nm rh =>
                match Obj.get (Mod.modifications (module st)) nm with
                | Some modifications => expand_modifications (expand f) modifications rh
                | None => Some rh
                end)
             (reached f L h s) (Obj.keys (defines st))) with (s := (r1 ++ [s], h2));
      [|exact H2'|exact He].
    intros nm rh0 rh1 Hnm H0 Hcb.
    destruct (Obj.get (Mod.modifications (module st)) nm) as [ms|] eqn:Hget;
      [|injection Hcb as <-; exact H0].
    unfold expand_modifications in Hcb.
    apply (sequence_preserves
             (fun statement rh2 =>
                match nth_error (snd rh2) statement with
                | Some st0 =>
                    if negb (isIncluded st0)
                    then push_all (fst rh2) (expand f statement (snd rh2))
                    else Some rh2
                | None => None
                end)
             (reached f L h s) ms) with (s := rh0); [|exact H0|exact Hcb].
    intros d [r3 h4] rh2 Hd H4 Hcb'. cbn [fst snd] in Hcb'.
    destruct (nth_error h4 d) as [st0|]; [|discriminate].
    destruct (negb (isIncluded st0)); [|injection Hcb' as <-; exact H4].
    apply (push_expand_reached f L h s r3 h4 d rh2 IH H4); [|exact Hcb'].
    rewrite Hreqs. unfold required_by. apply in_app_iff. right.
    unfold modifiers_of. apply in_flat_map. exists nm. split; [exact Hnm|].
    rewrite Hget. exact Hd. }
  apply H3.
Qed.

(** X1: [expand] changes nothing but inclusion flags: it sets the flag of the
    statements it returns, returns every statement whose flag it sets, each
    once, and leaves every other field of every statement as it was. *)
Theorem expand_sets_flags_of_result :
  forall (f : nat) (h : stmt_heap B) (this : nat),
    refs_valid h -> pending h <= f -> this < List.length h ->
    exists r h',
      expand (S f) this h = Some (r, h')
      /\ NoDup r
      /\ (forall s, In s r <-> included h s = false /\ included h' s = true)
      /\ List.length h' = List.length h
      /\ (forall i st, nth_error h i = Some st ->
                       nth_error h' i = Some (if included h' i then include st else st)).
Proof.
  intros f h this Hv Hp Hs.
  assert (Hr : ready (S f) (List.length h) h) by (split; [exact Hv|split; [lia|reflexivity]]).
  destruct (expand_returns (S f) _ h this Hr Hs) as (r & h' & He & Ha & _).
  exists r, h'. split; [exact He|]. split; [apply Ha|]. split; [|split; [apply Ha|]].
  - intros s. split.
    + intros Hin. split; [apply Ha; exact Hin|eapply adds_In_included; eassumption].
    + intros [H0 H1]. eapply adds_In; eassumption.
  - intros i st E. destruct Ha as (_ & Hnth & _ & _). rewrite (Hnth _ _ E).
    unfold included. rewrite (Hnth _ _ E).
    destruct (existsb (Nat.eqb i) r); cbn; [reflexivity|].
    destruct (isIncluded st) eqn:Ei; [|reflexivity].
    rewrite (include_of_included st Ei). reflexivity.
Qed.

(** X2: when every included statement has what it requires included, the same
    holds after [expand]: the statement expanded, the definers of its
    dependencies and the modifiers of what it defines are all included, and
    so are theirs. *)
Theorem expand_keeps_closed :
  forall (f : nat) (h : stmt_heap B) (this : nat),
    refs_valid h -> pending h <= f -> this < List.length h -> closed h ->
    exists r h',
      expand (S f) this h = Some (r, h')
      /\ closed h'
      /\ forall x, reach h this x -> included h' x = true.
Proof.
  intros f h this Hv Hp Hs Hc.
  assert (Hr : ready (S f) (List.length h) h) by (split; [exact Hv|split; [lia|reflexivity]]).
  destruct (expand_returns (S f) _ h this Hr Hs) as (r & h' & He & Ha & Hi).
  pose proof (expand_closes (S f) _ _ h this r h' Hr He Hc) as Hc'.
  exists r, h'. split; [exact He|]. split; [exact Hc'|].
  intros x Hx. apply (closed_reach h' this x Hc' Hi).
  apply (reach_ext h' h); [|exact Hx].
  intros s. symmetry. apply (requirements_adds _ _ _ s Ha).
Qed.

(** X3: [expand] includes nothing that the statement does not require: every
    statement it returns is reached from the statement through the definers
    of dependencies and the modifiers of definitions. *)
Theorem expand_includes_only_reached :
  forall (f : nat) (h : stmt_heap B) (this : nat) r h',
    refs_valid h -> pending h <= f ->
    expand (S f) this h = Some (r, h') ->
    forall x, In x r -> reach h this x.
Proof.
  intros f h this r h' Hv Hp He.
  apply (expand_reaches (S f) (List.length h) h this r h'); [|exact He].
  split; [exact Hv|split; [lia|reflexivity]].
Qed.

Lemma session_closure f L : forall calls h rs h',
  ready f L h -> closed h -> session f calls h = Some (rs, h') ->
  closed h' /\ adds h (concat rs) h'
  /\ (forall x, included h' x = true <->
                included h x = true \/ exists c, In c calls /\ reach h c x).
Proof.
  induction calls as [|c calls IH]; intros h rs h' Hr Hc Hs; cbn [session] in Hs.
  - injection Hs as <- <-. split; [exact Hc|]. split; [apply adds_refl|].
    intros x. split; [auto|]. intros [H|(c & [] & _)]. exact H.
  - destruct (expand f c h) as [[r h1]|] eqn:E; [|discriminate].
    destruct (session f calls h1) as [[rs' h2]|] eqn:Es; [|discriminate].
    injection Hs as <- <-.
    pose proof (expand_adds f L h c r h1 Hr E) as Ha.
    pose proof (expand_closes f L _ h c r h1 Hr E Hc) as Hc1.
    pose proof (expand_includes f L h c r h1 Hr E) as Hi.
    pose proof (expand_reaches f L h c r h1 Hr E) as Hre.
    assert (Hreq : forall s, requirements h1 s = requirements h s)
      by (intros s; apply (requirements_adds _ _ _ s Ha)).
    destruct (IH h1 rs' h2 (adds_ready _ _ _ _ _ Ha Hr) Hc1 Es) as (Hc2 & Ha2 & Hiff).
    split; [exact Hc2|]. split; [cbn; eapply adds_trans; eassumption|].
    intros x. rewrite Hiff. split.
    + intros [H|(c' & Hc' & Hx)].
      * rewrite (adds_included _ _ _ x Ha) in H. apply orb_prop in H as [H|H]; [left; exact H|].
        right. exists c. split; [left; reflexivity|]. apply Hre.
        apply existsb_eqb_In. exact H.
      * right. exists c'. split; [right; exact Hc'|]. apply (reach_ext h h1 Hreq). exact Hx.
    + intros [H|(c' & [<-|Hc'] & Hx)].
      * left. eapply adds_monotone; eassumption.
      * left. apply (closed_reach h1 c x Hc1 Hi).
        apply (reach_ext h1 h); [intros s; symmetry; apply Hreq|exact Hx].
      * right. exists c'. split; [exact Hc'|].
        apply (reach_ext h1 h); [intros s; symmetry; apply Hreq|exact Hx].
Qed.

Lemma adds_same_heap h r1 h1 r2 h2 :
  adds h r1 h1 -> adds h r2 h2 ->
  (forall x, included h1 x = included h2 x) -> h1 = h2.
Proof.
  intros Ha1 Ha2 Heq.
  pose proof Ha1 as (Hl1 & Hn1 & _ & _). pose proof Ha2 as (Hl2 & Hn2 & _ & _).
  apply nth_error_ext. intros i.
  destruct (nth_error h i) as [st|] eqn:E.
  - rewrite (Hn1 _ _ E), (Hn2 _ _ E). f_equal.
    specialize (Heq i). rewrite (adds_included _ _ _ i Ha1), (adds_included _ _ _ i Ha2) in Heq.
    unfold included in Heq. rewrite E in Heq.
    destruct (existsb (Nat.eqb i) r1), (existsb (Nat.eqb i) r2); try reflexivity;
      destruct (isIncluded st) eqn:Ei; cbn in Heq; try discriminate;
      rewrite (include_of_included st Ei); reflexivity.
  - assert (E1 : nth_error h1 i = None)
      by (apply nth_error_None; rewrite Hl1; apply nth_error_None; exact E).
    assert (E2 : nth_error h2 i = None)
      by (apply nth_error_None; rewrite Hl2; apply nth_error_None; exact E).
    congruence.
Qed.

(** X4: a session started with nothing half-included includes exactly the
    statements reached from the statements it expands, so the final heap
    does not depend on the order, nor on repetitions, of the calls. *)
Theorem session_includes_what_is_reached :
  forall (f : nat) (h : stmt_heap B) (calls1 calls2 : list nat),
    refs_valid h -> pending h < f -> closed h ->
    Forall (fun s => s < List.length h) calls1 ->
    (forall c, In c calls1 <-> In c calls2) ->
    exists rs1 rs2 h',
      session f calls1 h = Some (rs1, h')
      /\ session f calls2 h = Some (rs2, h')
      /\ closed h'
      /\ (forall x, included h' x = true <->
                    included h x = true \/ exists c, In c calls1 /\ reach h c x).
Proof.
  intros f h calls1 calls2 Hv Hp Hc Hcalls Hsame.
  assert (Hr : ready f (List.length h) h) by (split; [exact Hv|split; [exact Hp|reflexivity]]).
  assert (Hcalls2 : Forall (fun s => s < List.length h) calls2).
  { rewrite Forall_forall in Hcalls |- *. intros c Hin. apply Hcalls. apply Hsame. exact Hin. }
  destruct (session_returns f _ calls1 h Hr Hcalls) as (rs1 & h1 & Hs1 & _).
  destruct (session_returns f _ calls2 h Hr Hcalls2) as (rs2 & h2 & Hs2 & _).
  destruct (session_closure f _ calls1 h rs1 h1 Hr Hc Hs1) as (Hc1 & Ha1 & Hiff1).
  destruct (session_closure f _ calls2 h rs2 h2 Hr Hc Hs2) as (_ & Ha2 & Hiff2).
  assert (Heq : h1 = h2).
  { apply (adds_same_heap h _ h1 _ h2 Ha1 Ha2). intros x.
    destruct (included h1 x) eqn:E1.
    - symmetry. apply Hiff2. apply Hiff1 in E1 as [H|(c & Hin & Hx)]; [left; exact H|].
      right. exists c. split; [apply Hsame; exact Hin|exact Hx].
    - destruct (included h2 x) eqn:E2; [|reflexivity].
      apply Hiff2 in E2 as [H|(c & Hin & Hx)].
      + assert (included h1 x = true) by (apply Hiff1; left; exact H). congruence.
      + assert (included h1 x = true).
        { apply Hiff1. right. exists c. split; [apply Hsame; exact Hin|exact Hx]. }
        congruence. }
  subst h2. exists rs1, rs2, h1. repeat split; try assumption; apply Hiff1.
Qed.
End SessionFacts.

(** ** What the analysis records and refuses *)
Section WalkInvariant.
Context {St : Type}.
Variable I : St -> Prop.
Variable sub : estree -> Prop.
Variable reverse : bool.
Variable enter : estree -> option estree -> string -> path -> St -> result (bool * St).
Variable leave : estree -> path -> St -> result St.

Hypothesis sub_child : forall a cs kc, sub (Node a cs) -> In kc cs -> sub (snd kc).
Hypothesis enter_I : forall n par key p s b s',
    sub n -> I s -> enter n par key p s = inr (b, s') -> I s'.
Hypothesis leave_I : forall n p s s', sub n -> I s -> leave n p s = inr s' -> I s'.

Lemma each_invariant {A : Type} (f : nat -> A -> St -> result St) (l : list A) :
  (forall x, In x l -> forall i s s', I s -> f i x s = inr s' -> I s') ->
  forall i s s', I s -> each reverse f i l s = inr s' -> I s'.
Proof.
  induction l as [|x l IH]; intros Hf i s s' HI He; cbn [each] in He.
  - injection He as <-. exact HI.
  - assert (Hf' : forall y, In y l -> forall i s s', I s -> f i y s = inr s' -> I s')
      by (intros y Hy; apply Hf; right; exact Hy).
    destruct reverse.
    + destruct (each true f (S i) l s) as [e|sm] eqn:E; cbn [bind] in He; [discriminate|].
      apply (Hf x (or_introl eq_refl) i sm s'); [|exact He].
      apply (IH Hf' (S i) s sm HI E).
    + destruct (f i x s) as [e|sm] eqn:E; cbn [bind] in He; [discriminate|].
      apply (IH Hf' (S i) sm s'); [|exact He].
      apply (Hf x (or_introl eq_refl) i s sm HI E).
Qed.

Lemma visit_invariant (n : estree) :
  sub n ->
  forall par key p s s',
    I s -> visit reverse enter leave n par key p s = inr s' -> I s'.
Proof.
  induction n as [a cs IH] using estree_induction. intros Hsub par key p s s' HI Hv.
  cbn [visit] in Hv.
  destruct (enter (Node a cs) par key p s) as [e|[b s1]] eqn:Een; cbn [bind fst snd] in Hv;
    [discriminate|].
  pose proof (enter_I _ _ _ _ _ _ _ Hsub HI Een) as HI1.
  destruct b; [injection Hv as <-; exact HI1|].
  match type of Hv with
  | bind ?m _ = _ => destruct m as [e|s2] eqn:Eeach
  end; cbn [bind] in Hv; [discriminate|].
  apply (leave_I _ _ _ _ Hsub) in Hv; [exact Hv|].
  eapply each_invariant; [|exact HI1|exact Eeach].
  intros kc Hin i s0 s0' HI0 H. rewrite Forall_forall in IH.
  apply (IH kc Hin (sub_child a cs kc Hsub Hin) _ _ _ _ _ HI0 H).
Qed.
End WalkInvariant.

Section WalkErrorsSatisfy.
Context {St : Type}.
Variable Good : error -> Prop.
Variable reverse : bool.
Variable enter : estree -> option estree -> string -> path -> St -> result (bool * St).
Variable leave : estree -> path -> St -> result St.

Hypothesis enter_good : forall n par key p s e, enter n par key p s = inl e -> Good e.
Hypothesis leave_good : forall n p s e, leave n p s = inl e -> Good e.

Lemma each_errors_satisfy {A : Type} (f : nat -> A -> St -> result St) (l : list A) :
  (forall x, In x l -> forall i s e, f i x s = inl e -> Good e) ->
  forall i s e, each reverse f i l s = inl e -> Good e.
Proof.
  induction l as [|x l IH]; intros Hf i s e He; cbn [each] in He; [discriminate|].
  assert (Hf' : forall y, In y l -> forall i s e, f i y s = inl e -> Good e)
    by (intros y Hy; apply Hf; right; exact Hy).
  destruct reverse.
  - destruct (each true f (S i) l s) as [e'|sm] eqn:E; cbn [bind] in He.
    + injection He as <-. apply (IH Hf' _ _ _ E).
    + apply (Hf x (or_introl eq_refl) _ _ _ He).
  - destruct (f i x s) as [e'|sm] eqn:E; cbn [bind] in He.
    + injection He as <-. apply (Hf x (or_introl eq_refl) _ _ _ E).
    + apply (IH Hf' _ _ _ He).
Qed.

Lemma visit_errors_satisfy (n : estree) :
  forall par key p s e, visit reverse enter leave n par key p s = inl e -> Good e.
Proof.
  induction n as [a cs IH] using estree_induction. intros par key p s e Hv.
  cbn [visit] in Hv.
  destruct (enter (Node a cs) par key p s) as [e'|[b s1]] eqn:Een; cbn [bind fst snd] in Hv.
  - injection Hv as <-. eapply enter_good. exact Een.
  - destruct b; [discriminate|].
    match type of Hv with
    | bind ?m _ = _ => destruct m as [e2|s2] eqn:Eeach
    end; cbn [bind] in Hv.
    + injection Hv as <-. eapply each_errors_satisfy; [|exact Eeach].
      intros kc Hin i s0 e3 H. rewrite Forall_forall in IH. apply (IH kc Hin _ _ _ _ _ H).
    + eapply leave_good. exact Hv.
Qed.
End WalkErrorsSatisfy.

Lemma unwrap_error (n : estree) e : unwrap n = inl e -> e = TypeError MemberObject.
Proof.
  revert e. induction n as [a cs IH] using estree_induction. intros e. cbn [unwrap].
  destruct (String.eqb (type a) "MemberExpression"); [|discriminate].
  induction cs as [|[k c] cs IHcs]; [intros [= <-]; reflexivity|].
  inversion IH as [|? ? Hc Hcs]; subst.
  destruct (String.eqb k "object").
  - destruct (unwrap c) as [e'|r] eqn:E; cbn; [|discriminate].
    intros [= <-]. apply Hc. exact E.
  - apply IHcs. assumption.
Qed.

Lemma identifiers_child (a : attrs) (cs : list (string * estree)) (kc : string * estree) :
  In kc cs -> forall k, In k (identifiers (snd kc)) -> In k (identifiers (Node a cs)).
Proof.
  intros Hin k Hk. cbn [identifiers]. apply in_app_iff. right.
  apply in_flat_map. exists kc. split; assumption.
Qed.

Lemma find_child_In (k : string) (cs : list (string * estree)) :
  forall i j c, find_child k i cs = Some (j, c) -> In (k, c) cs.
Proof.
  induction cs as [|[k' c'] cs IH]; intros i j c H; cbn in H; [discriminate|].
  destruct (String.eqb k' k) eqn:E.
  - injection H as _ <-. apply String.eqb_eq in E. subst. left. reflexivity.
  - right. eapply IH. exact H.
Qed.

Lemma child_identifiers (k : string) (n c : estree) :
  child k n = Some c -> forall x, In x (identifiers c) -> In x (identifiers n).
Proof.
  destruct n as [a cs]. unfold child. cbn [children_of].
  destruct (find_child k 0 cs) as [[j c']|] eqn:E; [|discriminate].
  intros [= <-] x Hx. apply find_child_In in E.
  apply (identifiers_child a cs (k, c') E x Hx).
Qed.

Lemma childs_identifiers (k : string) (n c : estree) :
  In c (childs k n) -> forall x, In x (identifiers c) -> In x (identifiers n).
Proof.
  destruct n as [a cs]. unfold childs. cbn [children_of]. intros Hin x Hx.
  apply in_map_iff in Hin as ([k' c'] & <- & Hin). apply filter_In in Hin as [Hin _].
  apply (identifiers_child a cs (k', c') Hin x Hx).
Qed.

Lemma unwrap_finds_the_root_aux (n root : estree) (d : nat) :
  unwrap n = inr (root, d) ->
  type_is root "MemberExpression" = false
  /\ (d = 0 <-> type_is n "MemberExpression" = false)
  /\ (d = 0 -> root = n)
  /\ (type_is root "Identifier" = true -> In (name_of root) (identifiers n)).
Proof.
  revert root d. induction n as [a cs IH] using estree_induction. intros root d.
  cbn [unwrap]. unfold type_is at 2. cbn [attrs_of].
  destruct (String.eqb (type a) "MemberExpression") eqn:Em.
  - intros H.
    assert (Hsub : exists c r d', In ("object", c) cs /\ unwrap c = inr (r, d')
                                  /\ root = r /\ d = S d').
    { clear IH. induction cs as [|[k c] cs IHcs]; [discriminate|].
      destruct (String.eqb k "object") eqn:Ek.
      - destruct (unwrap c) as [e|[r d']] eqn:E; cbn in H; [discriminate|].
        injection H as <- <-. apply String.eqb_eq in Ek. subst k.
        exists c, r, d'. split; [left; reflexivity|]. split; [exact E|]. split; reflexivity.
      - destruct (IHcs H) as (c0 & r & d' & Hin & Hu & Hr & Hd).
        exists c0, r, d'. split; [right; exact Hin|]. split; [exact Hu|]. split; assumption. }
    destruct Hsub as (c & r & d' & Hin & Hu & -> & ->).
    rewrite Forall_forall in IH.
    destruct (IH _ Hin r d' Hu) as (Hnm & _ & _ & Hid).
    split; [exact Hnm|]. split; [split; discriminate|]. split; [discriminate|].
    intros Hi. apply (identifiers_child a cs _ Hin). apply Hid. exact Hi.
  - intros [= <- <-]. split; [unfold type_is; cbn [attrs_of]; exact Em|].
    split; [split; reflexivity|]. split; [reflexivity|].
    unfold type_is, name_of. cbn [attrs_of identifiers]. intros ->. left. reflexivity.
Qed.

(** X5: the loop of [addNode] ends on the first node that is not a member
    expression: the root it finds is never a member expression, it is the
    target itself exactly when the depth is 0, and when it is an identifier
    its name is one of the target's identifiers.  The loop fails only on a
    member expression without object. *)
Theorem unwrap_finds_the_root :
  forall (n root : estree) (d : nat),
    unwrap n = inr (root, d) ->
    type_is root "MemberExpression" = false
    /\ (d = 0 <-> type_is n "MemberExpression" = false)
    /\ (d = 0 -> root = n)
    /\ (type_is root "Identifier" = true -> In (name_of root) (identifiers n))
    /\ forall t e, unwrap t = inl e -> e = TypeError MemberObject.
Proof.
  intros n root d H.
  destruct (unwrap_finds_the_root_aux n root d H) as (H1 & H2 & H3 & H4).
  repeat split; try assumption; try apply H2. intros t e. apply unwrap_error.
Qed.

Section Refusals.
Context {B : Type} {TB : TextBuffer B}.
Variable getLocation : string -> nat -> Loc.

Lemma addNode_unrestricted_error (this : Statement B) h cur mods target e :
  addNode getLocation this h cur mods target false = inl e -> e = TypeError MemberObject.
Proof.
  unfold addNode. destruct (unwrap target) as [e'|r] eqn:E; cbn [bind].
  - intros [= <-]. eapply unwrap_error. exact E.
  - destruct (negb (type_is (fst r) "Identifier")); discriminate.
Qed.

(** When the write check raises the illegal-reassignment error. *)
Lemma checkForWrites_refusal :
  forall (this : Statement B) h mods cur n message file loc,
    checkForWrites getLocation this h mods cur n = inl (IllegalReassignment message file loc) ->
    exists s target root d importSpecifier,
      cur = Some s
      /\ write_targets n = Some [(target, true)]
      /\ unwrap target = inr (root, d)
      /\ Obj.get (Mod.imports (module this)) (name_of root) = Some importSpecifier
      /\ contains h s (name_of root) = false
      /\ d < minDepth importSpecifier
      /\ message = ("Illegal reassignment to import '" ++ name_of root ++ "'")%string
      /\ file = Mod.path (module this)
      /\ loc = getLocation (toString (Mod.magicString (module this))) (start (attrs_of root)).
Proof.
  intros this h mods cur n message file loc.
  assert (Hadd : forall target,
             addNode getLocation this h cur mods target true
             = inl (IllegalReassignment message file loc) ->
             exists s root d importSpecifier,
               cur = Some s
               /\ unwrap target = inr (root, d)
               /\ Obj.get (Mod.imports (module this)) (name_of root) = Some importSpecifier
               /\ contains h s (name_of root) = false
               /\ d < minDepth importSpecifier
               /\ message = ("Illegal reassignment to import '" ++ name_of root ++ "'")%string
               /\ file = Mod.path (module this)
               /\ loc = getLocation (toString (Mod.magicString (module this)))
                                    (start (attrs_of root))).
  { intros target. unfold addNode.
    destruct (unwrap target) as [e'|[root d]] eqn:E; cbn [bind fst snd].
    - intros [= He]. apply unwrap_error in E. congruence.
    - destruct (Obj.get (Mod.imports (module this)) (name_of root)) as [spec|] eqn:Hi.
      + destruct cur as [s|]; cbn [required bind]; [|discriminate].
        destruct (negb (contains h s (name_of root))) eqn:Hc; cbn [andb].
        * destruct (Nat.ltb d (minDepth spec)) eqn:Hd; cbn [bind].
          -- unfold reassignment_error. intros [= <- <- <-].
             exists s, root, d, spec. apply negb_true_iff in Hc. apply Nat.ltb_lt in Hd.
             repeat split; assumption || reflexivity.
          -- destruct (negb (type_is root "Identifier")); discriminate.
        * cbn [bind]. destruct (negb (type_is root "Identifier")); discriminate.
      + cbn [bind]. destruct (negb (type_is root "Identifier")); discriminate. }
  unfold checkForWrites, write_targets.
  destruct (type_is n "AssignmentExpression").
  - destruct (child "left" n) as [t|]; cbn [required bind option_map]; [|discriminate].
    intros H. destruct (Hadd t H) as (s & root & d & spec & H').
    exists s, t, root, d, spec. tauto.
  - destruct (type_is n "UpdateExpression").
    + destruct (child "argument" n) as [t|]; cbn [required bind option_map]; [|discriminate].
      intros H. destruct (Hadd t H) as (s & root & d & spec & H').
      exists s, t, root, d, spec. tauto.
    + destruct (type_is n "CallExpression"); [|discriminate].
      intros H. exfalso. revert H. generalize (childs "arguments" n). intros l.
      assert (Hgen : forall acc : result (Obj.t bool),
                 acc <> inl (IllegalReassignment message file loc) ->
                 fold_left (fun acc arg => m <- acc ;; addNode getLocation this h cur m arg false)
                           l acc <> inl (IllegalReassignment message file loc)).
      { induction l as [|x l IH]; intros acc Hacc; cbn [fold_left]; [exact Hacc|].
        apply IH. destruct acc as [e0|m0]; cbn [bind]; [exact Hacc|].
        intros H. apply addNode_unrestricted_error in H. discriminate. }
      apply Hgen. discriminate.
Qed.

Lemma build_enter_not_refusal (n : estree) par key p (st : build B) e :
  build_enter n par key p st = inl e -> exists s, e = TypeError s.
Proof.
  unfold build_enter, build_switch, is_function.
  assert (Hfold : forall l (acc : result scope_heap) cur,
             (forall e0, acc = inl e0 -> exists s, e0 = TypeError s) ->
             forall e0,
               fold_left (fun acc declarator =>
                            h' <- acc ;;
                            s <- required CurrentScope cur ;;
                            id <- required DeclaratorId (child "id" declarator) ;;
                            inr (addDeclaration h' s (name_of id) n)) l acc = inl e0 ->
               exists s, e0 = TypeError s).
  { induction l as [|d l IH]; intros acc cur Hacc e0; cbn [fold_left]; [apply Hacc|].
    apply IH. intros e1. destruct acc as [e2|h2]; cbn [bind]; [intros [= <-]; apply Hacc; reflexivity|].
    unfold required. destruct cur; cbn [bind]; [|intros [= <-]; eauto].
    destruct (child "id" d); cbn [bind]; [discriminate|intros [= <-]; eauto]. }
  destruct (type_is n "FunctionExpression" || type_is n "FunctionDeclaration"
            || type_is n "ArrowFunctionExpression").
  - innermost_cases; try discriminate; intros [= <-]; eauto.
  - destruct (type_is n "BlockStatement").
    + cbn [bind snd fst]. destruct (tag_at (b_tags st) p); [intros [= <-]; eauto|discriminate].
    + destruct (type_is n "CatchClause").
      * innermost_cases; try discriminate; intros [= <-]; eauto.
      * destruct (type_is n "VariableDeclaration").
        -- match goal with
           | |- context [fold_left ?f ?l ?a] => destruct (fold_left f l a) as [e1|h1] eqn:Ef
           end; cbn [bind fst snd]; [|discriminate].
           intros [= <-]. eapply Hfold; [|exact Ef]. discriminate.
        -- destruct (type_is n "ClassDeclaration"); [|cbn [bind snd]; discriminate].
           innermost_cases; try discriminate; intros [= <-]; eauto.
Qed.

(** X7: an illegal-reassignment error that ends [analyse] names a binding the
    module imports, together with the module's path and a location computed
    from the module's text; a statement of a module that imports nothing is
    never refused. *)
Theorem analyse_refuses_only_imports :
  forall (reverse : bool) (this : Statement B) message file loc,
    analyse getLocation reverse this = inl (IllegalReassignment message file loc) ->
    Mod.imports (module this) <> []
    /\ exists nm importSpecifier offset,
        Obj.get (Mod.imports (module this)) nm = Some importSpecifier
        /\ message = ("Illegal reassignment to import '" ++ nm ++ "'")%string
        /\ file = Mod.path (module this)
        /\ loc = getLocation (toString (Mod.magicString (module this))) offset.
Proof.
  intros reverse this message file loc H.
  set (Good := fun e =>
                 match e with
                 | IllegalReassignment m f l =>
                     exists nm importSpecifier offset,
                     Obj.get (Mod.imports (module this)) nm = Some importSpecifier
                     /\ m = ("Illegal reassignment to import '" ++ nm ++ "'")%string
                     /\ f = Mod.path (module this)
                     /\ l = getLocation (toString (Mod.magicString (module this))) offset
                 | _ => True
                 end).
  assert (HG : Good (IllegalReassignment message file loc)).
  { unfold analyse in H.
    destruct (isImportDeclaration this); [discriminate|]. cbn [negb] in H.
    match type of H with context [walk reverse build_enter build_leave ?n ?s] =>
      destruct (walk reverse build_enter build_leave n s) as [e'|b] eqn:Eb end;
      cbn [bind] in H.
    - injection H as ->. unfold walk in Eb.
      apply (visit_errors_satisfy Good) in Eb; [exact Eb| |].
      + intros n par key p s e He. apply build_enter_not_refusal in He as [s' ->]. exact I.
      + intros n p s e. unfold build_leave, parent_of. innermost_cases; try discriminate; intros [= <-]; exact I.
    - match type of H with context [walk reverse ?en ?le ?n ?s] =>
        destruct (walk reverse en le n s) as [e'|c] eqn:Ec end; cbn [bind] in H.
      + injection H as ->. unfold walk in Ec.
        apply (visit_errors_satisfy Good) in Ec; [exact Ec| |].
        * intros n par key p s e. unfold classify_enter.
          match goal with |- context [checkForReads ?a ?b ?c ?d ?e ?f ?g] =>
            destruct (checkForReads a b c d e f g) as [e1|deps] eqn:Er end; cbn [bind].
          -- intros [= <-]. revert Er. unfold checkForReads. innermost_cases; try discriminate; intros [= <-]; exact I.
          -- match goal with |- context [checkForWrites ?a ?b ?c ?d ?e ?f] =>
               destruct (checkForWrites a b c d e f) as [e1|mods] eqn:Ew end; cbn [bind];
               [|discriminate].
             intros [= <-]. destruct e1 as [m f l|s'|]; cbn; auto.
             apply checkForWrites_refusal in Ew.
             destruct Ew as (s0 & target & root & d & spec & _ & _ & _ & Hget & _ & _ & Hm & Hf & Hl).
             exists (name_of root), spec, (start (attrs_of root)). tauto.
        * intros n p s e. unfold classify_leave, parent_of. innermost_cases; try discriminate; intros [= <-]; exact I.
      + revert H. innermost_cases; discriminate. }
  cbn in HG. split; [|exact HG].
  destruct HG as (nm & spec & _ & Hget & _). intros Hnil. rewrite Hnil in Hget. discriminate.
Qed.

(** X6: the write check refuses a write only when it is an assignment or an
    update whose target unwraps to an imported name that no scope around
    the write declares, at a depth below the minimum of the import; the
    error then names that import, the module's path and the location of the
    root.  A call, a shadowed import, a name that is not imported, or a deep
    enough member access is never refused. *)
Theorem reassignment_refused_only_for_unshadowed_import :
  forall (this : Statement B) h mods cur n message file loc,
    checkForWrites getLocation this h mods cur n = inl (IllegalReassignment message file loc) ->
    exists s target root d importSpecifier,
      cur = Some s
      /\ write_targets n = Some [(target, true)]
      /\ unwrap target = inr (root, d)
      /\ Obj.get (Mod.imports (module this)) (name_of root) = Some importSpecifier
      /\ contains h s (name_of root) = false
      /\ d < minDepth importSpecifier
      /\ message = ("Illegal reassignment to import '" ++ name_of root ++ "'")%string
      /\ file = Mod.path (module this)
      /\ loc = getLocation (toString (Mod.magicString (module this))) (start (attrs_of root)).
Proof. exact checkForWrites_refusal. Qed.
End Refusals.

Lemma keys_set {V : Type} (o : Obj.t V) (k : string) (v : V) (x : string) :
  In x (Obj.keys (Obj.set o k v)) <-> In x (Obj.keys o) \/ x = k.
Proof.
  unfold Obj.keys. induction o as [|[k' v'] o IH]; cbn.
  - split; [intros [<- | []]; auto|intros [[] | ->]; auto].
  - destruct (String.eqb k' k) eqn:E; cbn.
    + apply String.eqb_eq in E. subst k'. split; [auto|]. intros [H | ->]; auto.
    + rewrite IH. tauto.
Qed.

Section Provenance.
Context {B : Type} {TB : TextBuffer B}.
Variable getLocation : string -> nat -> Loc.

Lemma drawn_from_set o0 ids o k :
  drawn_from o0 ids o -> In k ids -> drawn_from o0 ids (Obj.set o k true).
Proof.
  intros [H1 H2] Hk. split; intros x Hx.
  - apply keys_set. left. apply H1. exact Hx.
  - apply keys_set in Hx as [Hx | ->]; [apply H2; exact Hx|right; exact Hk].
Qed.

Lemma checkForReads_drawn (this : Statement B) h deps cur (n : estree) par key deps' o0 ids :
  (forall k, In k (identifiers n) -> In k ids) ->
  drawn_from o0 ids deps ->
  checkForReads this h deps cur n par key = inr deps' ->
  drawn_from o0 ids deps'.
Proof.
  intros Hsub Hd. unfold checkForReads.
  destruct (type_is n "Identifier") eqn:Ei; [|intros [= <-]; exact Hd].
  assert (Hn : In (name_of n) ids).
  { apply Hsub. destruct n as [a cs]. unfold type_is, name_of in *. cbn [attrs_of identifiers] in *.
    rewrite Ei. left. reflexivity. }
  innermost_cases; try discriminate; intros [= <-]; try exact Hd;
    apply drawn_from_set; assumption.
Qed.

Lemma addNode_drawn (this : Statement B) h cur mods (target : estree) fl mods' o0 ids :
  (forall k, In k (identifiers target) -> In k ids) ->
  drawn_from o0 ids mods ->
  addNode getLocation this h cur mods target fl = inr mods' ->
  drawn_from o0 ids mods'.
Proof.
  intros Hsub Hd. unfold addNode.
  destruct (unwrap target) as [e|[root d]] eqn:E; cbn [bind fst snd]; [discriminate|].
  destruct (unwrap_finds_the_root_aux target root d E) as (_ & _ & _ & Hid).
  match goal with
  | |- bind ?m _ = _ -> _ => destruct m as [e|[]]
  end; cbn [bind]; [discriminate|].
  destruct (type_is root "Identifier") eqn:Ei; cbn [negb]; intros [= <-]; [|exact Hd].
  apply drawn_from_set; [exact Hd|]. apply Hsub. apply Hid. reflexivity.
Qed.

Lemma checkForWrites_drawn (this : Statement B) h mods cur (n : estree) mods' o0 ids :
  (forall k, In k (identifiers n) -> In k ids) ->
  drawn_from o0 ids mods ->
  checkForWrites getLocation this h mods cur n = inr mods' ->
  drawn_from o0 ids mods'.
Proof.
  intros Hsub Hd. unfold checkForWrites.
  destruct (type_is n "AssignmentExpression").
  - destruct (child "left" n) as [t|] eqn:Ec; cbn [required bind]; [|discriminate].
    apply addNode_drawn; [|exact Hd].
    intros k Hk. apply Hsub. eapply child_identifiers; eassumption.
  - destruct (type_is n "UpdateExpression").
    + destruct (child "argument" n) as [t|] eqn:Ec; cbn [required bind]; [|discriminate].
      apply addNode_drawn; [|exact Hd].
      intros k Hk. apply Hsub. eapply child_identifiers; eassumption.
    + destruct (type_is n "CallExpression"); [|intros [= <-]; exact Hd].
      assert (Hargs : forall a, In a (childs "arguments" n) ->
                                forall k, In k (identifiers a) -> In k ids).
      { intros a Ha k Hk. apply Hsub. eapply childs_identifiers; eassumption. }
      revert Hargs. generalize (childs "arguments" n). intros l Hargs.
      assert (Hgen : forall acc : result (Obj.t bool),
                 (forall m, acc = inr m -> drawn_from o0 ids m) ->
                 fold_left (fun acc arg => m <- acc ;; addNode getLocation this h cur m arg false)
                           l acc = inr mods' -> drawn_from o0 ids mods').
      { induction l as [|x l IH]; intros acc Hacc; cbn [fold_left]; [apply Hacc|].
        apply IH; [intros a Ha; apply Hargs; right; exact Ha|].
        intros m. destruct acc as [e0|m0]; cbn [bind]; [discriminate|].
        apply addNode_drawn; [apply Hargs; left; reflexivity|apply Hacc; reflexivity]. }
      apply Hgen. intros m [= <-]. exact Hd.
Qed.

Lemma defines_fold_keeps (l : list string) :
  forall (d : Obj.t bool) k,
    In k (Obj.keys d) ->
    In k (Obj.keys (fold_left (fun d nm => Obj.set d nm true) l d)).
Proof.
  induction l as [|x l IH]; intros d k Hk; cbn [fold_left]; [exact Hk|].
  apply IH. apply keys_set. left. exact Hk.
Qed.

(** X8: [analyse] only ever adds to the three sets, and what it adds to
    [dependsOn] and [modifies] are names of identifiers that occur in the
    statement's node: no other name becomes a dependency or a modified
    name. *)
Theorem analyse_records_names_of_the_statement :
  forall (reverse : bool) (this st' : Statement B),
    analyse getLocation reverse this = inr st' ->
    (forall k, In k (Obj.keys (dependsOn st')) ->
               In k (Obj.keys (dependsOn this)) \/ In k (identifiers (node this)))
    /\ (forall k, In k (Obj.keys (modifies st')) ->
                  In k (Obj.keys (modifies this)) \/ In k (identifiers (node this)))
    /\ (forall k, In k (Obj.keys (dependsOn this)) -> In k (Obj.keys (dependsOn st')))
    /\ (forall k, In k (Obj.keys (modifies this)) -> In k (Obj.keys (modifies st')))
    /\ (forall k, In k (Obj.keys (defines this)) -> In k (Obj.keys (defines st'))).
Proof.
  intros reverse this st'. unfold analyse.
  destruct (isImportDeclaration this).
  { intros [= <-]. repeat split; auto. }
  cbn [negb].
  match goal with |- context [walk reverse build_enter build_leave ?n ?s] =>
    destruct (walk reverse build_enter build_leave n s) as [e|b] end; cbn [bind];
    [discriminate|].
  match goal with |- context [walk reverse ?en ?le ?n ?s] =>
    destruct (walk reverse en le n s) as [e|c] eqn:Ec end; cbn [bind]; [discriminate|].
  destruct (c_scope c) as [s|]; cbn [required bind]; [|discriminate].
  destruct (deref (b_scopes b) s) as [sc|]; cbn [required bind]; [|discriminate].
  intros [= <-]. cbn [dependsOn modifies defines].
  set (ids := identifiers (node this)).
  assert (HI : drawn_from (dependsOn this) ids (c_dependsOn c)
               /\ drawn_from (modifies this) ids (c_modifies c)).
  { unfold walk in Ec.
    apply (visit_invariant
             (fun c0 => drawn_from (dependsOn this) ids (c_dependsOn c0)
                        /\ drawn_from (modifies this) ids (c_modifies c0))
             (fun n => forall k, In k (identifiers n) -> In k ids)) in Ec; [exact Ec|..].
    - intros a cs kc Hsub Hin k Hk. apply Hsub. eapply identifiers_child; eassumption.
    - intros n par key p s0 b0 s0' Hsub [Hd Hm]. unfold classify_enter.
      match goal with |- context [checkForReads ?a ?b ?c ?d ?e ?f ?g] =>
        destruct (checkForReads a b c d e f g) as [e1|deps] eqn:Er end; cbn [bind];
        [discriminate|].
      match goal with |- context [checkForWrites ?a ?b ?c ?d ?e ?f] =>
        destruct (checkForWrites a b c d e f) as [e1|mods] eqn:Ew end; cbn [bind];
        [discriminate|].
      intros [= _ <-]. cbn [c_dependsOn c_modifies]. split.
      + eapply checkForReads_drawn; eassumption.
      + eapply checkForWrites_drawn; eassumption.
    - intros n p s0 s0' _ HI0. unfold classify_leave.
      destruct (tag_at (b_tags b) p); [|intros [= <-]; exact HI0].
      destruct (parent_of (b_scopes b) (c_scope s0)); cbn [bind]; [discriminate|].
      intros [= <-]. exact HI0.
    - auto.
    - cbn [c_dependsOn c_modifies]. split; split; auto. }
  destruct HI as [[Hd1 Hd2] [Hm1 Hm2]].
  split; [exact Hd2|]. split; [exact Hm2|]. split; [exact Hd1|]. split; [exact Hm1|].
  apply defines_fold_keeps.
Qed.
End Provenance.

(** ** The mapping stack of the rename pass *)
Lemma get_keys {V : Type} (o : Obj.t V) (k : string) :
  In k (Obj.keys o) <-> exists v, Obj.get o k = Some v.
Proof.
  unfold Obj.keys. induction o as [|[k' v'] o IH]; cbn.
  - split; [intros []|intros [v [=]]].
  - destruct (String.eqb k' k) eqn:E.
    + apply String.eqb_eq in E. split; [eauto|auto].
    + rewrite IH. split; [intros [H|H]; [|exact H]|auto].
      subst k'. rewrite String.eqb_refl in E. discriminate.
Qed.

Section ScopeMapping.

Lemma kept_fold (names : Obj.t string) (sc : Scope) (key : string) (l : list string) :
  forall acc : Obj.t string * bool,
    let r := fold_left (fun acc key =>
                          if negb (Obj.has (declarations sc) key)
                          then (Obj.set (fst acc) key (key_of (Obj.get names key)), true)
                          else acc) l acc in
    Obj.get (fst r) key
    = (if existsb (String.eqb key) l && negb (Obj.has (declarations sc) key)
       then Some (key_of (Obj.get names key))
       else Obj.get (fst acc) key)
    /\ snd r = snd acc || existsb (fun k => negb (Obj.has (declarations sc) k)) l.
Proof.
  induction l as [|x l IH]; intros acc; cbn zeta; cbn [fold_left existsb].
  - rewrite orb_false_r. split; reflexivity.
  - cbn zeta in IH.
    destruct (negb (Obj.has (declarations sc) x)) eqn:Ex.
    + destruct (IH (Obj.set (fst acc) x (key_of (Obj.get names x)), true)) as [-> ->].
      cbn [fst snd]. split; [|rewrite orb_true_r; reflexivity].
      destruct (String.eqb key x) eqn:Ek; cbn [orb].
      * apply String.eqb_eq in Ek. subst x. rewrite Ex.
        rewrite get_set_same. destruct (existsb (String.eqb key) l); reflexivity.
      * destruct (existsb (String.eqb key) l && negb (Obj.has (declarations sc) key));
          [reflexivity|].
        apply get_set_other. intros ->. rewrite String.eqb_refl in Ek. discriminate.
    + destruct (IH acc) as [-> ->]. cbn [orb]. split; [|reflexivity].
      destruct (String.eqb key x) eqn:Ek; cbn [orb]; [|reflexivity].
      apply String.eqb_eq in Ek. subst x. rewrite Ex.
      rewrite andb_false_r. reflexivity.
Qed.

Lemma deshadow_fold (sc : Scope) (key : string) (l : list string) :
  forall acc : Obj.t string * bool,
    let r := fold_left (fun acc nm =>
                          if complement_is_truthy (Obj.get (declarations sc) nm)
                          then (Obj.set (fst acc) nm (nm ++ "$$")%string, true)
                          else acc) l acc in
    (~ In key l -> Obj.get (fst r) key = Obj.get (fst acc) key)
    /\ snd r = snd acc || match l with [] => false | _ => true end.
Proof.
  induction l as [|x l IH]; intros acc; cbn zeta; cbn [fold_left].
  - rewrite orb_false_r. split; reflexivity.
  - cbn zeta in IH.
    change (complement_is_truthy (Obj.get (declarations sc) x)) with true. cbn iota.
    destruct (IH (Obj.set (fst acc) x (x ++ "$$")%string, true)) as [Hg ->].
    cbn [fst snd] in *. split; [|rewrite orb_true_r; reflexivity].
    intros Hnot. rewrite Hg by (intros H; apply Hnot; right; exact H).
    apply get_set_other. intros ->. apply Hnot. left. reflexivity.
Qed.

(** X12: on entering a scope, every name that is not a deshadow candidate keeps
    its replacement when the scope does not declare it and loses it when
    the scope declares it: occurrences inside the shadow are not
    rewritten. *)
Theorem scoped_names_drops_redeclared :
  forall (names : Obj.t string) (deshadowList : list string) (sc : Scope) (key : string),
    ~ In key deshadowList ->
    Obj.get (fst (scoped_names names deshadowList sc)) key
    = if Obj.has (declarations sc) key then None else Obj.get names key.
Proof.
  intros names dl sc key Hnot. unfold scoped_names.
  destruct (deshadow_fold sc key dl
              (fold_left (fun acc key =>
                            if negb (Obj.has (declarations sc) key)
                            then (Obj.set (fst acc) key (key_of (Obj.get names key)), true)
                            else acc) (Obj.keys names) (Obj.blank, false))) as [Hg _].
  cbn zeta in Hg. rewrite (Hg Hnot).
  destruct (kept_fold names sc key (Obj.keys names) (Obj.blank, false)) as [Hk _].
  cbn zeta in Hk. rewrite Hk. cbn [fst Obj.get Obj.blank].
  destruct (Obj.has (declarations sc) key); cbn [negb]; [rewrite andb_false_r; reflexivity|].
  rewrite andb_true_r.
  destruct (existsb (String.eqb key) (Obj.keys names)) eqn:Ex.
  - apply existsb_exists in Ex as (x & Hx & E). apply String.eqb_eq in E. subst x.
    apply get_keys in Hx as [v Hv]. rewrite Hv. reflexivity.
  - destruct (Obj.get names key) as [v|] eqn:Hv; [|reflexivity].
    assert (Hin : In key (Obj.keys names)) by (apply get_keys; eauto).
    assert (Ht : existsb (String.eqb key) (Obj.keys names) = true).
    { apply existsb_exists. exists key. split; [exact Hin|apply String.eqb_refl]. }
    congruence.
Qed.

(** X13: a scope-tagged node is pruned exactly when there is no deshadow
    candidate and the scope declares every name of the active mapping; as
    every replacement yields a candidate, nothing is pruned once the rename
    table is not empty. *)
Theorem scope_pruned_only_without_candidates :
  forall (names : Obj.t string) (deshadowList : list string) (sc : Scope),
    (snd (scoped_names names deshadowList sc) = false <->
     deshadowList = []
     /\ forall key, In key (Obj.keys names) -> Obj.has (declarations sc) key = true)
    /\ (forall (root : Obj.t string),
           root <> [] ->
           snd (scoped_names names
                             (map (fun nm => first_segment (key_of (Obj.get root nm)))
                                  (Obj.keys root)) sc) = true).
Proof.
  intros names dl sc.
  assert (Hsnd : snd (scoped_names names dl sc)
                 = existsb (fun k => negb (Obj.has (declarations sc) k)) (Obj.keys names)
                   || match dl with [] => false | _ => true end).
  { unfold scoped_names.
    destruct (deshadow_fold sc "" dl
                (fold_left (fun acc key =>
                              if negb (Obj.has (declarations sc) key)
                              then (Obj.set (fst acc) key (key_of (Obj.get names key)), true)
                              else acc) (Obj.keys names) (Obj.blank, false))) as [_ Hs].
    cbn zeta in Hs. rewrite Hs.
    destruct (kept_fold names sc "" (Obj.keys names) (Obj.blank, false)) as [_ Hk].
    cbn zeta in Hk. rewrite Hk. reflexivity. }
  split.
  - rewrite Hsnd. rewrite orb_false_iff. split.
    + intros [He Hd]. split; [destruct dl; [reflexivity|discriminate]|].
      intros key Hin. destruct (Obj.has (declarations sc) key) eqn:E; [reflexivity|].
      assert (existsb (fun k => negb (Obj.has (declarations sc) k)) (Obj.keys names) = true).
      { apply existsb_exists. exists key. split; [exact Hin|rewrite E; reflexivity]. }
      congruence.
    + intros [-> Hall]. split; [|reflexivity].
      destruct (existsb (fun k => negb (Obj.has (declarations sc) k)) (Obj.keys names)) eqn:E;
        [|reflexivity].
      apply existsb_exists in E as (k & Hin & Hk). rewrite (Hall k Hin) in Hk. discriminate.
  - intros root Hroot.
    assert (Hsnd' : forall dl', dl' <> [] -> snd (scoped_names names dl' sc) = true).
    { intros dl' Hne. unfold scoped_names.
      match goal with
      | |- snd (fold_left ?f dl' ?acc) = true =>
          destruct (deshadow_fold sc "" dl' acc) as [_ Hs]
      end.
      cbn zeta in Hs. rewrite Hs. destruct dl'; [contradiction|apply orb_true_r]. }
    apply Hsnd'. destruct root as [|[k v] root]; [contradiction|]. discriminate.
Qed.
End ScopeMapping.

Section RewriteFacts.
Context {B : Type} {TB : TextBuffer B}.
Variable reverse : bool.

(** When [rewrite_identifier] changes the state: for an identifier in
    reference position whose name the active mapping sends to another,
    non-empty, name; it then overwrites the identifier's range. *)
Lemma rewrite_identifier_cases :
  forall (n : estree) par key (st st' : rewrite B),
    rewrite_identifier n par key st = inr st' ->
    st' = st
    \/ exists parent names replacement b,
        type_is n "Identifier" = true
        /\ par = Some parent
        /\ type_is parent "MemberExpression" && negb (computed (attrs_of parent))
           && negb (String.eqb key "object") = false
        /\ type_is parent "Property" && negb (is_value parent key n) = false
        /\ w_names st = Some names
        /\ Obj.get names (name_of n) = Some replacement
        /\ replacement <> ""
        /\ name (attrs_of n) <> Some replacement
        /\ overwrite (w_magicString st) (start (attrs_of n)) (end_ (attrs_of n)) replacement
           = Some b
        /\ st' = mkRewrite b (w_names st) (w_replacementStack st) (w_topLevel st) (w_flags st).
Proof.
  intros n par key st st'. unfold rewrite_identifier.
  destruct (type_is n "Identifier") eqn:Ei; cbn [negb]; [|intros [= <-]; left; reflexivity].
  destruct par as [parent|]; cbn [required bind]; [|discriminate].
  destruct (type_is parent "MemberExpression" && negb (computed (attrs_of parent))
            && negb (String.eqb key "object")) eqn:Em; [intros [= <-]; left; reflexivity|].
  destruct (type_is parent "Property" && negb (is_value parent key n)) eqn:Ep;
    [intros [= <-]; left; reflexivity|].
  destruct (w_names st) as [names|] eqn:En; cbn [required bind]; [|discriminate].
  destruct (Obj.get names (name_of n)) as [replacement|] eqn:Eg; [|intros [= <-]; left; reflexivity].
  destruct (truthy replacement) eqn:Et; cbn [andb]; [|intros [= <-]; left; reflexivity].
  match goal with |- context [negb ?c] => destruct c eqn:Ec end; cbn [negb];
    [intros [= <-]; left; reflexivity|].
  destruct (overwrite (w_magicString st) (start (attrs_of n)) (end_ (attrs_of n)) replacement)
    as [b|] eqn:Eo; [|discriminate].
  intros [= <-]. right. exists parent, names, replacement, b.
  repeat split; try reflexivity; try assumption.
  - intros ->. discriminate Et.
  - intros Hn. rewrite Hn in Ec. rewrite String.eqb_refl in Ec. discriminate.
Qed.

Lemma rewrite_identifier_stack (n : estree) par key (st : rewrite B) :
  names_on_top st -> balanced st (rewrite_identifier n par key st).
Proof.
  intros [Hn Hne]. unfold balanced, rewrite_identifier.
  destruct (w_names st) as [names|] eqn:En.
  2:{ exfalso. revert Hn Hne.
      destruct (w_replacementStack st); [intros _ H; apply H; reflexivity|intros H; discriminate H]. }
  innermost_cases; try (split; reflexivity); try discriminate.
  all: cbn [w_replacementStack w_names]; split; [reflexivity|congruence].
Qed.

Lemma export_rewrite_not_names bundleExports (n : estree) p (ms : B) fl e :
  export_rewrite bundleExports n p ms fl = inl e -> e <> TypeError ActiveNames.
Proof.
  unfold export_rewrite.
  destruct (find_child "declarations" 0 (children_of n)) as [first|]; cbn [required bind];
    [|intros [= <-]; discriminate].
  destruct (find_child "id" 0 (children_of (snd first))) as [id|]; cbn [required bind];
    [|intros [= <-]; discriminate].
  match goal with |- context [if ?c then _ else _] => destruct c end.
  - match goal with |- context [overwrite ?a ?b ?c ?d] => destruct (overwrite a b c d) end;
      cbn [bind]; [discriminate|intros [= <-]; discriminate].
  - assert (Hfold : forall l e0,
               fold_right (fun declarator acc =>
                             id' <- required DeclaratorId (child "id" declarator) ;;
                             rest <- acc ;;
                             inr (name_of id' :: rest)) (inr []) l = inl e0 ->
               e0 <> TypeError ActiveNames).
    { induction l as [|d l IH]; intros e0; cbn [fold_right]; [discriminate|].
      destruct (child "id" d); cbn [required bind]; [|intros [= <-]; discriminate].
      match goal with |- context [fold_right ?f ?a l] =>
        destruct (fold_right f a l) as [e2|r2] eqn:Ef end; cbn [bind]; [|discriminate].
      intros [= <-]. apply IH. reflexivity. }
    match goal with |- context [fold_right ?f ?a ?l] =>
      destruct (fold_right f a l) as [e3|r3] eqn:Ef end; cbn [bind].
    + intros [= <-]. eapply Hfold. exact Ef.
    + match goal with |- context [insert ?a ?b ?c] => destruct (insert a b c) end; discriminate.
Qed.

(** What [enter] does to the stack: it leaves it, or pushes the mapping of
    the scope of a tagged node it goes into. *)
Lemma rewrite_enter_stack (this : Statement B) bundleExports deshadowList
      (n : estree) par key p (st : rewrite B) :
  names_on_top st ->
  match rewrite_enter this bundleExports deshadowList n par key p st with
  | inl e => e <> TypeError ActiveNames
  | inr (b, st') =>
      names_on_top st'
      /\ ((w_replacementStack st' = w_replacementStack st /\ w_names st' = w_names st
           /\ (b = false -> tag_at (tags this) p = None))
          \/ (b = false /\ tag_at (tags this) p <> None
              /\ tl (w_replacementStack st') = w_replacementStack st))
  end.
Proof.
  intros Hst. unfold rewrite_enter.
  destruct (skipped (w_flags st) p).
  { split; [exact Hst|]. left. split; [reflexivity|]. split; [reflexivity|discriminate]. }
  assert (H1 : match (if w_topLevel st && type_is n "VariableDeclaration"
                      then r <- export_rewrite bundleExports n p (w_magicString st) (w_flags st) ;;
                           inr (mkRewrite (fst r) (w_names st) (w_replacementStack st)
                                          (w_topLevel st) (snd r))
                      else inr st) with
               | inl e => e <> TypeError ActiveNames
               | inr st1 => w_names st1 = w_names st
                            /\ w_replacementStack st1 = w_replacementStack st
               end).
  { destruct (w_topLevel st && type_is n "VariableDeclaration"); [|split; reflexivity].
    destruct (export_rewrite bundleExports n p (w_magicString st) (w_flags st)) as [e|r] eqn:E;
      cbn [bind]; [eapply export_rewrite_not_names; exact E|split; reflexivity]. }
  match type of H1 with
  | match ?x with _ => _ end => destruct x as [e|st1]
  end; cbn [bind]; [exact H1|].
  destruct H1 as [Hn1 Hs1]. destruct Hst as [Hn Hne].
  assert (Hst1 : names_on_top st1) by (split; [rewrite Hn1, Hs1; exact Hn|rewrite Hs1; exact Hne]).
  unfold enter_scope.
  destruct (tag_at (tags this) p) as [s|] eqn:Et.
  - destruct (w_names st1) as [names|] eqn:En; cbn [required bind].
    2:{ exfalso. assert (Hnone : hd_error (w_replacementStack st) = None) by congruence.
        revert Hnone Hne.
        destruct (w_replacementStack st); [intros _ H; apply H; reflexivity|intros H; discriminate H]. }
    destruct (deref (scopes this) s) as [sc|]; cbn [required bind]; [|discriminate].
    destruct (negb (snd (scoped_names names deshadowList sc))).
    + split; [split; cbn [w_names w_replacementStack]; [congruence|rewrite Hs1; exact Hne]|].
      left. cbn [w_names w_replacementStack]. split; [exact Hs1|]. split; [|discriminate].
      congruence.
    + match goal with |- context [rewrite_identifier n par key ?x] =>
        pose proof (rewrite_identifier_stack n par key x) as Hri;
        destruct (rewrite_identifier n par key x) as [e|st2]
      end; cbn [bind].
      * apply Hri. split; [reflexivity|discriminate].
      * destruct Hri as [Hs2 Hn2]; [split; [reflexivity|discriminate]|].
        cbn [w_names w_replacementStack] in Hs2, Hn2.
        split; [split; [rewrite Hn2, Hs2; reflexivity|rewrite Hs2; discriminate]|].
        right. split; [reflexivity|]. split; [discriminate|]. rewrite Hs2. exact Hs1.
  - pose proof (rewrite_identifier_stack n par key st1 Hst1) as Hri.
    destruct (rewrite_identifier n par key st1) as [e|st2]; cbn [bind]; [exact Hri|].
    destruct Hri as [Hs2 Hn2].
    split; [split; [rewrite Hn2, Hs2; apply Hst1|rewrite Hs2; apply Hst1]|].
    left. split; [congruence|]. split; [congruence|reflexivity].
Qed.

Lemma each_balanced {A : Type} (f : nat -> A -> rewrite B -> result (rewrite B))
      (l : list A) :
  (forall x, In x l -> forall i s, names_on_top s -> balanced s (f i x s)) ->
  forall i s, names_on_top s -> balanced s (each reverse f i l s).
Proof.
  induction l as [|x l IH]; intros Hf i s Hs; cbn [each].
  - split; reflexivity.
  - assert (Hf' : forall y, In y l -> forall i s, names_on_top s -> balanced s (f i y s))
      by (intros y Hy; apply Hf; right; exact Hy).
    assert (Hkeep : forall s1 s2 : rewrite B,
               names_on_top s1 -> w_replacementStack s2 = w_replacementStack s1 ->
               w_names s2 = w_names s1 -> names_on_top s2).
    { intros s1 s2 [H1 H2] Hs2 Hn2. split; [rewrite Hn2, Hs2; exact H1|rewrite Hs2; exact H2]. }
    destruct reverse.
    + pose proof (IH Hf' (S i) s Hs) as H1.
      destruct (each true f (S i) l s) as [e|sm]; cbn [bind]; [exact H1|].
      destruct H1 as [Hs1 Hn1].
      pose proof (Hf x (or_introl eq_refl) i sm (Hkeep s sm Hs Hs1 Hn1)) as H2.
      destruct (f i x sm) as [e|s']; [exact H2|]. destruct H2. split; congruence.
    + pose proof (Hf x (or_introl eq_refl) i s Hs) as H1.
      destruct (f i x s) as [e|sm]; cbn [bind]; [exact H1|].
      destruct H1 as [Hs1 Hn1].
      pose proof (IH Hf' (S i) sm (Hkeep s sm Hs Hs1 Hn1)) as H2.
      destruct (each false f (S i) l sm) as [e|s']; [exact H2|]. destruct H2. split; congruence.
Qed.

Lemma visit_balanced (this : Statement B) bundleExports deshadowList (n : estree) :
  forall par key p s,
    names_on_top s ->
    balanced s (visit reverse (rewrite_enter this bundleExports deshadowList)
                      (rewrite_leave this) n par key p s).
Proof.
  induction n as [a cs IH] using estree_induction. intros par key p s Hs.
  cbn [visit].
  pose proof (rewrite_enter_stack this bundleExports deshadowList (Node a cs) par key p s Hs)
    as Hen.
  destruct (rewrite_enter this bundleExports deshadowList (Node a cs) par key p s)
    as [e|[b s1]]; cbn [bind fst snd]; [exact Hen|].
  destruct Hen as [Htop Hcase].
  destruct b.
  - destruct Hcase as [(H1 & H2 & _)|(Hb & _)]; [split; assumption|discriminate].
  - match goal with
    | |- balanced s (bind ?m _) =>
        assert (Heach : balanced s1 m)
    end.
    { apply each_balanced; [|exact Htop].
      intros kc Hin i s0 Hs0. rewrite Forall_forall in IH. apply (IH kc Hin). exact Hs0. }
    match goal with
    | |- balanced s (bind ?m _) => destruct m as [e|s2]
    end; cbn [bind]; [exact Heach|].
    destruct Heach as [Hs2 Hn2]. unfold rewrite_leave, balanced.
    destruct Hcase as [(H1 & H2 & Ht)|(_ & Ht & Htl)].
    + rewrite (Ht eq_refl). split; congruence.
    + destruct (tag_at (tags this) p); [|contradiction].
      cbn [w_replacementStack w_names]. rewrite Hs2, Htl.
      split; [reflexivity|]. destruct Hs as [Hn _]. symmetry. exact Hn.
Qed.

(** X14: the pushes and pops of the replacement stack are paired: the walk of
    [replaceIdentifiers] never finds the stack exhausted, so the call never
    fails on an undefined [names], whatever the statement. *)
Theorem replaceIdentifiers_names_always_defined :
  forall (this : Statement B) (names bundleExports : Obj.t string),
    replaceIdentifiers reverse this names bundleExports <> inl (TypeError ActiveNames).
Proof.
  intros this names bundleExports. unfold replaceIdentifiers.
  match goal with |- context [if ?c then _ else _] => destruct c end; [|discriminate].
  unfold walk.
  match goal with
  | |- context [visit reverse ?en ?le ?n ?par ?key ?p ?s] =>
      pose proof (visit_balanced this bundleExports
                    (map (fun nm => first_segment (key_of (Obj.get names nm))) (Obj.keys names))
                    n par key p s) as Hb;
      destruct (visit reverse en le n par key p s) as [e|st]
  end; cbn [bind]; [|discriminate].
  intros [= ->]. apply Hb; [|reflexivity]. split; [reflexivity|discriminate].
Qed.
End RewriteFacts.

(** ** Scope bookkeeping of the analysis *)

Lemma extends_refl (h : scope_heap) : extends h h.
Proof. intros s sc H. exists sc. split; [exact H|split; reflexivity]. Qed.

Lemma extends_trans (h1 h2 h3 : scope_heap) :
  extends h1 h2 -> extends h2 h3 -> extends h1 h3.
Proof.
  intros H12 H23 s sc H. destruct (H12 s sc H) as (sc2 & H2 & Hp2 & Hd2).
  destruct (H23 s sc2 H2) as (sc3 & H3 & Hp3 & Hd3).
  exists sc3. split; [exact H3|]. split; congruence.
Qed.

Lemma extends_addDeclaration (h : scope_heap) (s : nat) (nm : string) (decl : estree) :
  extends h (addDeclaration h s nm decl).
Proof.
  intros i sc H. unfold addDeclaration, deref in *. rewrite update_nth.
  destruct (Nat.eqb i _); rewrite H; cbn [option_map].
  - eexists. split; [reflexivity|]. split; reflexivity.
  - eexists. split; [reflexivity|]. split; reflexivity.
Qed.

Lemma extends_new_Scope (h : scope_heap) par params block :
  extends h (snd (new_Scope h par params block)).
Proof.
  intros i sc H. unfold new_Scope, deref in *. cbn [snd].
  exists sc. split; [|split; reflexivity].
  rewrite nth_error_app1; [exact H|]. apply nth_error_Some. congruence.
Qed.

Lemma new_Scope_deref (h : scope_heap) par params block :
  exists sc, deref (snd (new_Scope h par params block)) (fst (new_Scope h par params block))
             = Some sc
             /\ parent sc = par.
Proof.
  unfold new_Scope, deref. cbn [fst snd]. eexists. split.
  - rewrite nth_error_app2 by apply Nat.le_refl. rewrite Nat.sub_diag. reflexivity.
  - reflexivity.
Qed.

Lemma tags_valid_extends (h h' : scope_heap) (tg : scope_tags) :
  tags_valid h tg -> extends h h' -> tags_valid h' tg.
Proof.
  intros Hv He q s Hq. destruct (Hv q s Hq) as [sc Hsc].
  destruct (He s sc Hsc) as (sc' & H' & _). exists sc'. exact H'.
Qed.

Lemma under_self (p : path) : under p p.
Proof. exists []. symmetry. apply app_nil_r. Qed.

Lemma under_child (p : path) (i : nat) (q : path) : under (p ++ [i]) q -> under p q.
Proof. intros [r ->]. exists (i :: r). rewrite <- app_assoc. reflexivity. Qed.

Lemma under_through (p : path) (i k : nat) (q : path) :
  i <= k -> under (p ++ [k]) q -> through p i q.
Proof.
  intros Hk [r ->]. exists k, r. split; [exact Hk|]. rewrite <- app_assoc. reflexivity.
Qed.

Lemma through_under (p : path) (i : nat) (q : path) : through p i q -> under p q.
Proof. intros (k & r & _ & ->). exists (k :: r). reflexivity. Qed.

Lemma through_not_self (p : path) (i : nat) : ~ through p i p.
Proof.
  intros (k & r & _ & E). rewrite <- (app_nil_r p) in E at 1.
  apply app_inv_head in E. discriminate.
Qed.

Lemma through_split (p : path) (i : nat) (q : path) :
  through p i q -> under (p ++ [i]) q \/ through p (S i) q.
Proof.
  intros (k & r & Hk & ->). destruct (Nat.eq_dec k i) as [->|Hne].
  - left. exists r. rewrite <- app_assoc. reflexivity.
  - right. exists k, r. split; [lia|reflexivity].
Qed.

Lemma under_not_through (p : path) (i : nat) (q : path) :
  under (p ++ [i]) q -> ~ through p (S i) q.
Proof.
  intros [r ->] (k & r' & Hk & E). rewrite <- app_assoc in E.
  apply app_inv_head in E. cbn in E. injection E as E _. lia.
Qed.

Lemma under_or_through (p q : path) : under p q -> q = p \/ through p 0 q.
Proof.
  intros [[|k r] ->]; [left; apply app_nil_r|].
  right. exists k, r. split; [lia|reflexivity].
Qed.

Lemma scoped_stable (h h' : scope_heap) (tg tg' : scope_tags) (n : estree) (p : path)
      (cur : nat) :
  scoped h tg n p cur ->
  extends h h' ->
  (forall q, under p q -> tag_at tg' q = tag_at tg q) ->
  scoped h' tg' n p cur.
Proof.
  intros Hs He. induction Hs as [a cs p cur s sc Ht Hd Hp _ IH|a cs p cur Ht _ IH];
    intros Htg.
  - destruct (He s sc Hd) as (sc' & Hd' & Hp' & _).
    apply (scoped_tagged h' tg' a cs p cur s sc').
    + rewrite (Htg p (under_self p)). exact Ht.
    + exact Hd'.
    + congruence.
    + intros i kc Hi. apply (IH i kc Hi). intros q Hq. apply Htg.
      apply (under_child p i q Hq).
  - apply scoped_plain.
    + rewrite (Htg p (under_self p)). exact Ht.
    + intros i kc Hi. apply (IH i kc Hi). intros q Hq. apply Htg.
      apply (under_child p i q Hq).
Qed.

Section BuildWalk.
Context {B : Type} {TB : TextBuffer B}.
Variable reverse : bool.

Lemma building_weaken (P P' : path -> Prop) (cur : nat) (st : build B) :
  building P cur st -> (forall q, P' q -> P q) -> building P' cur st.
Proof.
  intros (H1 & H2 & H3 & H4) Hsub. split; [exact H1|]. split; [exact H2|].
  split; [exact H3|]. intros q Hq. apply H4. apply Hsub. exact Hq.
Qed.

Lemma building_after (P1 P2 : path -> Prop) (cur : nat) (st st1 : build B) :
  building P2 cur st -> built P1 cur st st1 ->
  (forall q, P2 q -> ~ P1 q) ->
  building P2 cur st1.
Proof.
  intros (H1 & (sc & H2) & H3 & H4) (G1 & G2 & G3 & G4) Hdis.
  split; [exact G1|]. split; [destruct (G2 cur sc H2) as (sc' & H' & _); eauto|].
  split; [exact G3|]. intros q Hq. rewrite (G4 q (Hdis q Hq)). apply H4. exact Hq.
Qed.

Lemma built_trans (P P1 P2 : path -> Prop) (cur : nat) (st st1 st2 : build B) :
  built P1 cur st st1 -> built P2 cur st1 st2 ->
  (forall q, P1 q -> P q) -> (forall q, P2 q -> P q) ->
  built P cur st st2.
Proof.
  intros (H1 & H2 & H3 & H4) (G1 & G2 & G3 & G4) Hs1 Hs2.
  split; [exact G1|]. split; [eapply extends_trans; eassumption|].
  split; [exact G3|]. intros q Hq.
  rewrite G4 by (intros Hq2; apply Hq; apply Hs2; exact Hq2).
  apply H4. intros Hq1. apply Hq. apply Hs1. exact Hq1.
Qed.

Lemma declarations_fold_extends (n : estree) (cur : nat) (l : list estree) :
  forall (acc : result scope_heap) (h : scope_heap),
    match acc with inl e => scope_safe e | inr h0 => extends h h0 end ->
    match fold_left (fun acc declarator =>
                       h' <- acc ;;
                       s <- required CurrentScope (Some cur) ;;
                       id <- required DeclaratorId (child "id" declarator) ;;
                       inr (addDeclaration h' s (name_of id) n)) l acc with
    | inl e => scope_safe e
    | inr h1 => extends h h1
    end.
Proof.
  induction l as [|d l IH]; intros acc h Hacc; cbn [fold_left]; [exact Hacc|].
  apply IH. destruct acc as [e|h0]; cbn [bind required]; [exact Hacc|].
  destruct (child "id" d); cbn [bind required]; [|split; discriminate].
  eapply extends_trans; [exact Hacc|apply extends_addDeclaration].
Qed.

(** What the [switch] of the first walk does to the scopes. *)
Lemma build_switch_scope (n : estree) (h : scope_heap) (cur : nat) :
  match build_switch n h (Some cur) with
  | inl e => scope_safe e
  | inr (h', new) =>
      extends h h'
      /\ forall s, new = Some s -> exists sc, deref h' s = Some sc /\ parent sc = Some cur
  end.
Proof.
  unfold build_switch.
  destruct (is_function n).
  - assert (H1 : match (if type_is n "FunctionDeclaration"
                        then s <- required CurrentScope (Some cur) ;;
                             id <- required FunctionId (child "id" n) ;;
                             inr (addDeclaration h s (name_of id) n)
                        else inr h) with
                 | inl e => scope_safe e
                 | inr h1 => extends h h1
                 end).
    { destruct (type_is n "FunctionDeclaration"); [|apply extends_refl].
      cbn [required bind]. destruct (child "id" n); cbn [bind];
        [apply extends_addDeclaration|split; discriminate]. }
    match type of H1 with match ?x with _ => _ end => destruct x as [e|h1] end;
      cbn [bind]; [exact H1|].
    destruct (new_Scope_deref h1 (Some cur) (childs "params" n) false) as (sc & Hd & Hp).
    pose proof (extends_new_Scope h1 (Some cur) (childs "params" n) false) as He.
    set (sh := new_Scope h1 (Some cur) (childs "params" n) false) in *.
    assert (H2 : extends (snd sh)
                         (if type_is n "FunctionExpression"
                          then match child "id" n with
                               | Some id => addDeclaration (snd sh) (fst sh) (name_of id) n
                               | None => snd sh
                               end
                          else snd sh)).
    { destruct (type_is n "FunctionExpression"); [|apply extends_refl].
      destruct (child "id" n); [apply extends_addDeclaration|apply extends_refl]. }
    split.
    + eapply extends_trans; [exact H1|]. eapply extends_trans; [exact He|exact H2].
    + intros s [= <-]. destruct (H2 _ _ Hd) as (sc' & Hd' & Hp' & _).
      exists sc'. split; [exact Hd'|congruence].
  - destruct (type_is n "BlockStatement").
    + destruct (new_Scope_deref h (Some cur) [] true) as (sc & Hd & Hp).
      split; [apply extends_new_Scope|]. intros s [= <-]. eauto.
    + destruct (type_is n "CatchClause").
      * destruct (child "param" n) as [prm|]; cbn [required bind]; [|split; discriminate].
        destruct (new_Scope_deref h (Some cur) [prm] true) as (sc & Hd & Hp).
        split; [apply extends_new_Scope|]. intros s [= <-]. eauto.
      * destruct (type_is n "VariableDeclaration").
        -- pose proof (declarations_fold_extends n cur (childs "declarations" n) (inr h) h
                         (extends_refl h)) as Hf.
           match type of Hf with match ?x with _ => _ end => destruct x as [e|h1] end;
             cbn [bind]; [exact Hf|].
           split; [exact Hf|discriminate].
        -- destruct (type_is n "ClassDeclaration").
           ++ cbn [required bind]. destruct (child "id" n); cbn [bind]; [|split; discriminate].
              split; [apply extends_addDeclaration|discriminate].
           ++ split; [apply extends_refl|discriminate].
Qed.

Lemma tag_at_cons (tg : scope_tags) (p q : path) (s : nat) :
  tag_at ((p, s) :: tg) q = if path_eqb p q then Some s else tag_at tg q.
Proof. reflexivity. Qed.

Lemma path_eqb_neq (p q : path) : p <> q -> path_eqb p q = false.
Proof. intros H. unfold path_eqb. destruct (list_eq_dec Nat.eq_dec p q); [contradiction|reflexivity]. Qed.

Lemma build_enter_scope (n : estree) par key (p : path) (cur : nat) (st : build B) :
  building (under p) cur st ->
  match build_enter n par key p st with
  | inl e => scope_safe e
  | inr (b, st1) =>
      b = false
      /\ extends (b_scopes st) (b_scopes st1)
      /\ tags_valid (b_scopes st1) (b_tags st1)
      /\ (forall q, q <> p -> tag_at (b_tags st1) q = tag_at (b_tags st) q)
      /\ ((tag_at (b_tags st1) p = None /\ b_scope st1 = Some cur)
          \/ exists s sc, tag_at (b_tags st1) p = Some s /\ b_scope st1 = Some s
                          /\ deref (b_scopes st1) s = Some sc /\ parent sc = Some cur)
  end.
Proof.
  intros (Hcur & _ & Hval & Hfresh). unfold build_enter. rewrite Hcur.
  pose proof (build_switch_scope n (b_scopes st) cur) as Hsw.
  destruct (build_switch n (b_scopes st) (Some cur)) as [e|[h1 new]]; cbn [bind fst snd];
    [exact Hsw|].
  destruct Hsw as [He Hnew].
  rewrite (Hfresh p (under_self p)).
  destruct new as [s|].
  - destruct (Hnew s eq_refl) as (sc & Hd & Hp).
    cbn [b_scopes b_tags b_scope].
    split; [reflexivity|]. split; [exact He|]. split; [|split].
    + intros q s'. rewrite tag_at_cons. destruct (path_eqb p q).
      * intros [= <-]. eauto.
      * intros Hq. apply (tags_valid_extends _ _ _ Hval He q s' Hq).
    + intros q Hq. rewrite tag_at_cons, path_eqb_neq by congruence. reflexivity.
    + right. exists s, sc. rewrite tag_at_cons, path_eqb_refl. auto.
  - cbn [b_scopes b_tags b_scope].
    split; [reflexivity|]. split; [exact He|].
    split; [apply (tags_valid_extends _ _ _ Hval He)|]. split; [reflexivity|].
    left. split; [apply Hfresh, under_self|reflexivity].
Qed.

Lemma each_build (p : path) (cur : nat) (l : list (string * estree))
      (f : nat -> string * estree -> build B -> result (build B)) :
  (forall kc, In kc l -> forall i st,
        building (under (p ++ [i])) cur st ->
        match f i kc st with
        | inl e => scope_safe e
        | inr st' => built (under (p ++ [i])) cur st st'
                     /\ scoped (b_scopes st') (b_tags st') (snd kc) (p ++ [i]) cur
        end) ->
  forall i0 st,
    building (through p i0) cur st ->
    match each reverse f i0 l st with
    | inl e => scope_safe e
    | inr st' => built (through p i0) cur st st'
                 /\ forall k kc, nth_error l k = Some kc ->
                                 scoped (b_scopes st') (b_tags st') (snd kc) (p ++ [i0 + k]) cur
    end.
Proof.
  induction l as [|x l IH]; intros Hf i0 st Hst; cbn [each].
  - split.
    + destruct Hst as (H1 & H2 & H3 & H4). split; [exact H1|].
      split; [apply extends_refl|]. split; [exact H3|reflexivity].
    + intros [|k] kc; discriminate.
  - assert (Hf' : forall kc, In kc l -> forall i st,
                 building (under (p ++ [i])) cur st ->
                 match f i kc st with
                 | inl e => scope_safe e
                 | inr st' => built (under (p ++ [i])) cur st st'
                              /\ scoped (b_scopes st') (b_tags st') (snd kc) (p ++ [i]) cur
                 end) by (intros kc Hin; apply Hf; right; exact Hin).
    assert (Hsub1 : forall q, under (p ++ [i0]) q -> through p i0 q)
      by (intros q; apply under_through; lia).
    assert (Hsub2 : forall q, through p (S i0) q -> through p i0 q).
    { intros q (k & r & Hk & ->). exists k, r. split; [lia|reflexivity]. }
    destruct reverse.
    + (* the later children first *)
      pose proof (IH Hf' (S i0) st (building_weaken _ _ _ _ Hst Hsub2)) as H1.
      destruct (each true f (S i0) l st) as [e|st1]; cbn [bind]; [exact H1|].
      destruct H1 as [Hb1 Hsc1].
      assert (Hst1 : building (under (p ++ [i0])) cur st1).
      { eapply building_after; [apply (building_weaken _ _ _ _ Hst Hsub1)|exact Hb1|].
        intros q Hq. apply under_not_through. exact Hq. }
      pose proof (Hf x (or_introl eq_refl) i0 st1 Hst1) as H2.
      destruct (f i0 x st1) as [e|st2]; [exact H2|].
      destruct H2 as [Hb2 Hsc2]. split.
      * eapply built_trans; [exact Hb1|exact Hb2|exact Hsub2|exact Hsub1].
      * intros [|k] kc Hk; cbn [nth_error] in Hk.
        -- injection Hk as <-. rewrite Nat.add_0_r. exact Hsc2.
        -- rewrite Nat.add_succ_r. change (S (i0 + k)) with (S i0 + k).
           eapply scoped_stable; [apply (Hsc1 k kc Hk)|apply Hb2|].
           intros q Hq. apply Hb2. intros Hq'.
           apply (under_not_through p i0 q Hq').
           eapply under_through; [|exact Hq]. lia.
    + pose proof (Hf x (or_introl eq_refl) i0 st (building_weaken _ _ _ _ Hst Hsub1)) as H1.
      destruct (f i0 x st) as [e|st1]; cbn [bind]; [exact H1|].
      destruct H1 as [Hb1 Hsc1].
      assert (Hst1 : building (through p (S i0)) cur st1).
      { eapply building_after; [apply (building_weaken _ _ _ _ Hst Hsub2)|exact Hb1|].
        intros q Hq Hq'. apply (under_not_through p i0 q Hq' Hq). }
      pose proof (IH Hf' (S i0) st1 Hst1) as H2.
      destruct (each false f (S i0) l st1) as [e|st2]; [exact H2|].
      destruct H2 as [Hb2 Hsc2]. split.
      * eapply built_trans; [exact Hb1|exact Hb2|exact Hsub1|exact Hsub2].
      * intros [|k] kc Hk; cbn [nth_error] in Hk.
        -- injection Hk as <-. rewrite Nat.add_0_r.
           eapply scoped_stable; [exact Hsc1|apply Hb2|].
           intros q Hq. apply Hb2. apply under_not_through. exact Hq.
        -- rewrite Nat.add_succ_r. change (S (i0 + k)) with (S i0 + k). apply (Hsc2 k kc Hk).
Qed.

(** The first walk of a node that starts with [scope] at [cur] and no tag
    at or below the node ends with [scope] at [cur] again, having tagged
    only nodes at or below it, in the shape of their nesting. *)
Lemma visit_build (n : estree) :
  forall par key p cur (st : build B),
    building (under p) cur st ->
    match visit reverse build_enter build_leave n par key p st with
    | inl e => scope_safe e
    | inr st' => built (under p) cur st st'
                 /\ scoped (b_scopes st') (b_tags st') n p cur
    end.
Proof.
  induction n as [a cs IH] using estree_induction. intros par key p cur st Hst.
  cbn [visit].
  pose proof (build_enter_scope (Node a cs) par key p cur st Hst) as Hen.
  destruct (build_enter (Node a cs) par key p st) as [e|[b st1]]; cbn [bind fst snd];
    [exact Hen|].
  destruct Hen as (-> & He1 & Hv1 & Ht1 & Hcase).
  destruct Hst as (Hcur & (sc0 & Hsc0) & Hval & Hfresh).
  assert (Hfresh1 : forall q, through p 0 q -> tag_at (b_tags st1) q = None).
  { intros q Hq. rewrite Ht1; [apply Hfresh, (through_under p 0 q Hq)|].
    intros ->. apply (through_not_self p 0 Hq). }
  assert (Hkids : forall inner,
             building (through p 0) inner st1 ->
             match each reverse
                        (fun i kc s' => visit reverse build_enter build_leave (snd kc)
                                              (Some (Node a cs)) (fst kc) (p ++ [i]) s')
                        0 cs st1 with
             | inl e => scope_safe e
             | inr st2 => built (through p 0) inner st1 st2
                          /\ forall k kc, nth_error cs k = Some kc ->
                                          scoped (b_scopes st2) (b_tags st2) (snd kc)
                                                 (p ++ [k]) inner
             end).
  { intros inner Hb. apply (each_build p inner cs); [|exact Hb].
    intros kc Hin i st0 Hst0. rewrite Forall_forall in IH. apply (IH kc Hin). exact Hst0. }
  destruct Hcase as [[Htag Hsc]|(s & sc & Htag & Hsc & Hd & Hp)].
  - assert (Hb1 : building (through p 0) cur st1).
    { split; [exact Hsc|]. split; [destruct (He1 cur sc0 Hsc0) as (x & Hx & _); eauto|].
      split; [exact Hv1|exact Hfresh1]. }
    pose proof (Hkids cur Hb1) as Hk.
    match type of Hk with match ?x with _ => _ end => destruct x as [e|st2] end;
      cbn [bind]; [exact Hk|].
    destruct Hk as [(G1 & G2 & G3 & G4) Hchildren].
    unfold build_leave. rewrite (G4 p (through_not_self p 0)), Htag.
    split.
    + split; [exact G1|]. split; [eapply extends_trans; eassumption|].
      split; [exact G3|]. intros q Hq.
      rewrite G4 by (intros Hq'; apply Hq; apply (through_under p 0 q Hq')).
      apply Ht1. intros ->. apply Hq. apply under_self.
    + apply scoped_plain; [rewrite (G4 p (through_not_self p 0)); exact Htag|exact Hchildren].
  - assert (Hb1 : building (through p 0) s st1).
    { split; [exact Hsc|]. split; [eauto|]. split; [exact Hv1|exact Hfresh1]. }
    pose proof (Hkids s Hb1) as Hk.
    match type of Hk with match ?x with _ => _ end => destruct x as [e|st2] end;
      cbn [bind]; [exact Hk|].
    destruct Hk as [(G1 & G2 & G3 & G4) Hchildren].
    destruct (G2 s sc Hd) as (sc' & Hd' & Hp' & _).
    unfold build_leave, parent_of. rewrite (G4 p (through_not_self p 0)), Htag, G1.
    unfold bind, required. rewrite Hd', Hp', Hp.
    cbn [b_scopes b_tags b_scope]. split.
    + split; [reflexivity|]. split; [eapply extends_trans; eassumption|].
      split; [exact G3|]. intros q Hq.
      rewrite G4 by (intros Hq'; apply Hq; apply (through_under p 0 q Hq')).
      apply Ht1. intros ->. apply Hq. apply under_self.
    + apply (scoped_tagged _ _ a cs p cur s sc');
        [rewrite (G4 p (through_not_self p 0)); exact Htag|exact Hd'|congruence|exact Hchildren].
Qed.
End BuildWalk.

Section ClassifyWalk.
Context {B : Type} {TB : TextBuffer B}.
Variable getLocation : string -> nat -> Loc.
Variable reverse : bool.

Lemma checkForReads_scope_safe (this : Statement B) h deps (s : nat) (n : estree) par key e :
  checkForReads this h deps (Some s) n par key = inl e -> scope_safe e.
Proof.
  unfold checkForReads. innermost_cases; try discriminate; intros [= <-]; split; discriminate.
Qed.

Lemma addNode_scope_safe (this : Statement B) h (s : nat) mods target fl e :
  addNode getLocation this h (Some s) mods target fl = inl e -> scope_safe e.
Proof.
  unfold addNode. destruct (unwrap target) as [e'|r] eqn:E; cbn [bind].
  - intros [= <-]. apply unwrap_error in E. subst e'. split; discriminate.
  - unfold reassignment_error.
    innermost_cases; try discriminate; intros [= <-]; split; discriminate.
Qed.

Lemma checkForWrites_scope_safe (this : Statement B) h mods (s : nat) (n : estree) e :
  checkForWrites getLocation this h mods (Some s) n = inl e -> scope_safe e.
Proof.
  unfold checkForWrites.
  destruct (type_is n "AssignmentExpression").
  { destruct (child "left" n); cbn [required bind];
      [apply addNode_scope_safe|intros [= <-]; split; discriminate]. }
  destruct (type_is n "UpdateExpression").
  { destruct (child "argument" n); cbn [required bind];
      [apply addNode_scope_safe|intros [= <-]; split; discriminate]. }
  destruct (type_is n "CallExpression"); [|discriminate].
  generalize (childs "arguments" n). intros l.
  assert (Hgen : forall acc : result (Obj.t bool),
             (forall e0, acc = inl e0 -> scope_safe e0) ->
             forall e0,
               fold_left (fun acc arg => m <- acc ;;
                                         addNode getLocation this h (Some s) m arg false)
                         l acc = inl e0 -> scope_safe e0).
  { induction l as [|x l IH]; intros acc Hacc e0; cbn [fold_left]; [apply Hacc|].
    apply IH. intros e1. destruct acc as [e2|m]; cbn [bind]; [apply Hacc|].
    apply addNode_scope_safe. }
  apply Hgen. discriminate.
Qed.

Lemma each_scope_kept {A St : Type} (get : St -> option nat) (cur : nat)
      (f : nat -> A -> St -> result St) (l : list A) :
  forall i0,
    (forall k x, nth_error l k = Some x -> forall st,
          get st = Some cur ->
          match f (i0 + k) x st with
          | inl e => scope_safe e
          | inr st' => get st' = Some cur
          end) ->
    forall st, get st = Some cur ->
               match each reverse f i0 l st with
               | inl e => scope_safe e
               | inr st' => get st' = Some cur
               end.
Proof.
  induction l as [|x l IH]; intros i0 Hf st Hst; cbn [each]; [exact Hst|].
  assert (Hx : forall st, get st = Some cur ->
                          match f i0 x st with
                          | inl e => scope_safe e
                          | inr st' => get st' = Some cur
                          end).
  { intros st0 H0. pose proof (Hf 0 x eq_refl st0 H0) as H. rewrite Nat.add_0_r in H. exact H. }
  assert (Hl : forall st, get st = Some cur ->
                          match each reverse f (S i0) l st with
                          | inl e => scope_safe e
                          | inr st' => get st' = Some cur
                          end).
  { apply IH. intros k y Hk st0 H0. pose proof (Hf (S k) y Hk st0 H0) as H.
    rewrite Nat.add_succ_r in H. exact H. }
  destruct reverse.
  - pose proof (Hl st Hst) as H1.
    destruct (each true f (S i0) l st) as [e|st1]; cbn [bind]; [exact H1|]. apply Hx. exact H1.
  - pose proof (Hx st Hst) as H1.
    destruct (f i0 x st) as [e|st1]; cbn [bind]; [exact H1|]. apply Hl. exact H1.
Qed.

(** The second walk follows the tags of the first: over a node whose tags
    mirror the nesting it never finds [scope] undefined, and ends with
    [scope] where it started. *)
Lemma visit_classify (this : Statement B) (h : scope_heap) (tg : scope_tags) (n : estree) :
  forall par key p cur (st : classify),
    scoped h tg n p cur ->
    c_scope st = Some cur ->
    match visit reverse (classify_enter getLocation this h tg) (classify_leave h tg)
                n par key p st with
    | inl e => scope_safe e
    | inr st' => c_scope st' = Some cur
    end.
Proof.
  induction n as [a cs IH] using estree_induction. intros par key p cur st Hs Hst.
  cbn [visit].
  assert (Henter : forall inner,
             match tag_at tg p with Some s => Some s | None => c_scope st end = Some inner ->
             match classify_enter getLocation this h tg (Node a cs) par key p st with
             | inl e => scope_safe e
             | inr (b, st1) => b = false /\ c_scope st1 = Some inner
             end).
  { intros inner Hin. unfold classify_enter. rewrite Hin.
    destruct (checkForReads this h (c_dependsOn st) (Some inner) (Node a cs) par key)
      as [e|deps] eqn:Er; cbn [bind]; [eapply checkForReads_scope_safe; exact Er|].
    destruct (checkForWrites getLocation this h (c_modifies st) (Some inner) (Node a cs))
      as [e|mods] eqn:Ew; cbn [bind]; [eapply checkForWrites_scope_safe; exact Ew|].
    split; reflexivity. }
  assert (Hkids : forall inner st1,
             (forall i kc, nth_error cs i = Some kc -> scoped h tg (snd kc) (p ++ [i]) inner) ->
             c_scope st1 = Some inner ->
             match each reverse
                        (fun i kc s' => visit reverse (classify_enter getLocation this h tg)
                                              (classify_leave h tg) (snd kc)
                                              (Some (Node a cs)) (fst kc) (p ++ [i]) s')
                        0 cs st1 with
             | inl e => scope_safe e
             | inr st2 => c_scope st2 = Some inner
             end).
  { intros inner st1 Hch H1. apply (each_scope_kept c_scope inner); [|exact H1].
    intros k kc Hk st0 H0. cbn [Nat.add]. rewrite Forall_forall in IH.
    apply (IH kc (nth_error_In _ _ Hk)); [apply Hch; exact Hk|exact H0]. }
  inversion Hs as [a' cs' p' cur' s sc Htag Hd Hp Hch|a' cs' p' cur' Htag Hch]; subst.
  - pose proof (Henter s) as Hen. rewrite Htag in Hen. specialize (Hen eq_refl).
    destruct (classify_enter getLocation this h tg (Node a cs) par key p st) as [e|[b st1]];
      cbn [bind fst snd]; [exact Hen|].
    destruct Hen as [-> H1].
    pose proof (Hkids s st1 Hch H1) as Hk.
    match type of Hk with match ?x with _ => _ end => destruct x as [e|st2] end;
      cbn [bind]; [exact Hk|].
    unfold classify_leave, parent_of. rewrite Htag, Hk. unfold bind, required.
    rewrite Hd. cbn [c_scope]. exact Hp.
  - pose proof (Henter cur) as Hen. rewrite Htag in Hen. specialize (Hen Hst).
    destruct (classify_enter getLocation this h tg (Node a cs) par key p st) as [e|[b st1]];
      cbn [bind fst snd]; [exact Hen|].
    destruct Hen as [-> H1].
    pose proof (Hkids cur st1 Hch H1) as Hk.
    match type of Hk with match ?x with _ => _ end => destruct x as [e|st2] end;
      cbn [bind]; [exact Hk|].
    unfold classify_leave. rewrite Htag. exact Hk.
Qed.

Lemma defines_fold_keys (l : list string) :
  forall (d : Obj.t bool) (k : string),
    In k (Obj.keys (fold_left (fun d nm => Obj.set d nm true) l d))
    <-> In k (Obj.keys d) \/ In k l.
Proof.
  induction l as [|x l IH]; intros d k; cbn [fold_left].
  - cbn [In]. tauto.
  - rewrite IH, keys_set. cbn [In]. split; [intros [[H|H]|H]|intros [H|[H|H]]]; auto.
Qed.

(** What [analyse] leaves of a statement that starts with its own scope
    alone and no tags. *)
Lemma analyse_untagged (this : Statement B) (root : Scope) :
  scopes this = [root] -> scope this = 0 -> tags this = [] ->
  Obj.keys (declarations root) = [] ->
  match analyse getLocation reverse this with
  | inl e => scope_safe e
  | inr st' =>
      scope st' = 0
      /\ tags_valid (scopes st') (tags st')
      /\ exists sc, deref (scopes st') 0 = Some sc
                    /\ parent sc = parent root /\ depth sc = depth root
                    /\ forall k, In k (Obj.keys (defines st'))
                                 <-> In k (Obj.keys (defines this))
                                     \/ In k (Obj.keys (declarations sc))
  end.
Proof.
  intros Hh Hs Ht Hroot. unfold analyse.
  destruct (isImportDeclaration this).
  { split; [exact Hs|]. split; [rewrite Ht; intros q s; discriminate|].
    exists root. rewrite Hh. split; [reflexivity|]. split; [reflexivity|].
    split; [reflexivity|]. intros k. rewrite Hroot. cbn [In]. tauto. }
  cbn [negb]. unfold walk.
  pose proof (visit_build reverse (node this) None "" [] 0
                (mkBuild (scopes this) (Some (scope this)) (tags this) (magicString this))) as Hb.
  match type of Hb with
  | _ -> match ?x with _ => _ end => destruct x as [e|b]
  end; cbn [bind].
  { apply Hb. split; [cbn; rewrite Hs; reflexivity|]. split; [cbn; rewrite Hh; eauto|].
    split; [cbn; rewrite Ht; intros q s; discriminate|]. cbn. rewrite Ht. reflexivity. }
  destruct Hb as [(G1 & G2 & G3 & G4) Hsc].
  { split; [cbn; rewrite Hs; reflexivity|]. split; [cbn; rewrite Hh; eauto|].
    split; [cbn; rewrite Ht; intros q s; discriminate|]. cbn. rewrite Ht. reflexivity. }
  cbn [b_scopes b_tags] in G2, G4.
  pose proof (visit_classify this (b_scopes b) (b_tags b) (node this) None "" [] 0
                (mkClassify (b_scope b) (dependsOn this) (modifies this)) Hsc G1) as Hc.
  match type of Hc with
  | match ?x with _ => _ end => destruct x as [e|c]
  end; cbn [bind]; [exact Hc|].
  rewrite Hc. cbn [required bind].
  destruct (G2 0 root) as (sc & Hd & Hp & Hdepth); [rewrite Hh; reflexivity|].
  rewrite Hd. cbn [bind scope scopes tags defines].
  split; [exact Hs|]. split; [exact G3|].
  exists sc. split; [exact Hd|]. split; [exact Hp|]. split; [exact Hdepth|].
  intros k. apply defines_fold_keys.
Qed.

(** X9: the two walks of [analyse] keep the variable [scope] paired with the
    [_scope] tags: on a statement as its constructor makes it, [analyse]
    never fails on an undefined scope nor on a node that is tagged twice. *)
Theorem analyse_scope_is_always_defined :
  forall (nd : estree) (ms : B) (md : Mod.t B),
    analyse getLocation reverse (new_Statement nd ms md) <> inl (TypeError CurrentScope)
    /\ analyse getLocation reverse (new_Statement nd ms md) <> inl (TypeError ScopeTag).
Proof.
  intros nd ms md.
  pose proof (analyse_untagged (new_Statement nd ms md) (mkScope None 0 Obj.blank false)
                eq_refl eq_refl eq_refl eq_refl) as H.
  destruct (analyse getLocation reverse (new_Statement nd ms md)) as [e|st'].
  - destruct H as [H1 H2]. split; congruence.
  - split; discriminate.
Qed.

(** X10: after the walks [scope] is the statement's own scope again: the names
    [analyse] puts in [defines] are exactly those declared in that scope,
    the one of depth 0 without parent; what is declared in a nested scope
    is not defined by the statement. *)
Theorem analyse_defines_the_top_level_declarations :
  forall (nd : estree) (ms : B) (md : Mod.t B) (st' : Statement B),
    analyse getLocation reverse (new_Statement nd ms md) = inr st' ->
    exists sc,
      deref (scopes st') (scope st') = Some sc
      /\ parent sc = None /\ depth sc = 0
      /\ forall k, In k (Obj.keys (defines st')) <-> In k (Obj.keys (declarations sc)).
Proof.
  intros nd ms md st' Ha.
  pose proof (analyse_untagged (new_Statement nd ms md) (mkScope None 0 Obj.blank false)
                eq_refl eq_refl eq_refl eq_refl) as H.
  rewrite Ha in H. destruct H as (Hs & _ & sc & Hd & Hp & Hdepth & Hk).
  exists sc. rewrite Hs. split; [exact Hd|]. split; [exact Hp|]. split; [exact Hdepth|].
  intros k. rewrite Hk. cbn. tauto.
Qed.
End ClassifyWalk.

Section RenameAfterAnalysis.
Context {B : Type} {TB : TextBuffer B}.

(** The failures of the rename pass that come from the shape of the syntax
    tree or from the buffer. *)
Lemma export_rewrite_errors bundleExports (n : estree) p (ms : B) fl e :
  export_rewrite bundleExports n p ms fl = inl e ->
  e = BufferError \/ e = TypeError FirstDeclarator \/ e = TypeError DeclaratorId.
Proof.
  unfold export_rewrite.
  destruct (find_child "declarations" 0 (children_of n)) as [first|]; cbn [required bind];
    [|intros [= <-]; auto].
  destruct (find_child "id" 0 (children_of (snd first))) as [id|]; cbn [required bind];
    [|intros [= <-]; auto].
  match goal with |- context [if ?c then _ else _] => destruct c end.
  - match goal with |- context [overwrite ?a ?b ?c ?d] => destruct (overwrite a b c d) end;
      cbn [bind]; [discriminate|intros [= <-]; auto].
  - assert (Hfold : forall l e0,
               fold_right (fun declarator acc =>
                             id' <- required DeclaratorId (child "id" declarator) ;;
                             rest <- acc ;;
                             inr (name_of id' :: rest)) (inr []) l = inl e0 ->
               e0 = TypeError DeclaratorId).
    { induction l as [|d l IH]; intros e0; cbn [fold_right]; [discriminate|].
      destruct (child "id" d); cbn [required bind]; [|intros [= <-]; reflexivity].
      match goal with |- context [fold_right ?f ?a l] =>
        destruct (fold_right f a l) as [e2|r2] eqn:Ef end; cbn [bind]; [|discriminate].
      intros [= <-]. apply IH. reflexivity. }
    match goal with |- context [fold_right ?f ?a ?l] =>
      destruct (fold_right f a l) as [e3|r3] eqn:Ef end; cbn [bind].
    + intros [= <-]. right. right. eapply Hfold. exact Ef.
    + match goal with |- context [insert ?a ?b ?c] => destruct (insert a b c) end; discriminate.
Qed.

Lemma rewrite_identifier_errors (n : estree) par key (st : rewrite B) e :
  rewrite_identifier n par key st = inl e ->
  e = BufferError \/ e = TypeError ParentType \/ e = TypeError ActiveNames.
Proof.
  unfold rewrite_identifier. innermost_cases; try discriminate; intros [= <-]; auto.
Qed.

Lemma rewrite_enter_errors (this : Statement B) bundleExports deshadowList
      (n : estree) par key p (st : rewrite B) e :
  tags_valid (scopes this) (tags this) ->
  rewrite_enter this bundleExports deshadowList n par key p st = inl e ->
  e <> TypeError CurrentScope.
Proof.
  intros Hv. unfold rewrite_enter.
  destruct (skipped (w_flags st) p); [discriminate|].
  match goal with
  | |- bind ?m _ = _ -> _ => destruct m as [e1|st1] eqn:E1
  end; cbn [bind].
  { intros [= <-]. revert E1.
    destruct (w_topLevel st && type_is n "VariableDeclaration"); [|discriminate].
    destruct (export_rewrite bundleExports n p (w_magicString st) (w_flags st)) as [e2|r] eqn:Ex;
      cbn [bind]; [|discriminate].
    intros [= <-]. apply export_rewrite_errors in Ex as [->|[->| ->]]; discriminate. }
  unfold enter_scope.
  destruct (tag_at (tags this) p) as [s|] eqn:Et.
  - unfold bind, required.
    destruct (w_names st1) as [t|]; [|intros [= <-]; discriminate].
    destruct (Hv p s Et) as [sc Hsc]. rewrite Hsc.
    destruct (negb (snd (scoped_names t deshadowList sc))); [discriminate|].
    match goal with |- context [rewrite_identifier n par key ?x] =>
      destruct (rewrite_identifier n par key x) as [e2|st2] eqn:Er
    end; [|discriminate].
    intros [= <-]. apply rewrite_identifier_errors in Er as [->|[->| ->]]; discriminate.
  - unfold bind.
    destruct (rewrite_identifier n par key st1) as [e2|st2] eqn:Er; [|discriminate].
    intros [= <-]. apply rewrite_identifier_errors in Er as [->|[->| ->]]; discriminate.
Qed.

(** X15: the tags [analyse] leaves all refer to scopes of the statement: on a
    statement analysed straight after its construction, the rename pass
    always finds the scope of a tagged node. *)
Theorem replaceIdentifiers_finds_the_scopes_of_analyse :
  forall (getLocation : string -> nat -> Loc) (reverse reverse' : bool)
         (nd : estree) (ms : B) (md : Mod.t B) (st' : Statement B)
         (names bundleExports : Obj.t string),
    analyse getLocation reverse (new_Statement nd ms md) = inr st' ->
    (forall q s, tag_at (tags st') q = Some s -> exists sc, deref (scopes st') s = Some sc)
    /\ replaceIdentifiers reverse' st' names bundleExports <> inl (TypeError CurrentScope).
Proof.
  intros getLocation reverse reverse' nd ms md st' names bundleExports Ha.
  pose proof (analyse_untagged getLocation reverse (new_Statement nd ms md)
                (mkScope None 0 Obj.blank false) eq_refl eq_refl eq_refl eq_refl) as H.
  rewrite Ha in H. destruct H as (_ & Hv & _).
  split; [exact Hv|].
  unfold replaceIdentifiers.
  match goal with |- context [if ?c then _ else _] => destruct c end; [|discriminate].
  unfold walk.
  match goal with
  | |- context [visit reverse' ?en ?le ?n ?par ?key ?p ?s] =>
      destruct (visit reverse' en le n par key p s) as [e|st] eqn:Ev
  end; cbn [bind]; [|discriminate].
  intros [= ->].
  apply (visit_errors_satisfy (fun e => e <> TypeError CurrentScope)) in Ev.
  - apply Ev. reflexivity.
  - intros n par key p s e. apply rewrite_enter_errors. exact Hv.
  - intros n p s e. unfold rewrite_leave. destruct (tag_at (tags st') p); discriminate.
Qed.
End RenameAfterAnalysis.

(** ** Sourcemap locations *)
Lemma in_order_flat_map {A C : Type} (reverse : bool) (f : A -> list C) (l : list A) :
  Permutation (in_order reverse f l) (flat_map f l).
Proof.
  induction l as [|x l IH]; cbn [in_order flat_map]; [constructor|].
  destruct reverse.
  - eapply Permutation_trans; [apply Permutation_app_comm|].
    apply Permutation_app_head. exact IH.
  - apply Permutation_app_head. exact IH.
Qed.

Lemma starts_nodes (reverse : bool) (n : estree) :
  Permutation (starts reverse n) (map (fun x => start (attrs_of x)) (nodes n)).
Proof.
  induction n as [a cs IH] using estree_induction.
  cbn [starts nodes map attrs_of]. constructor.
  eapply Permutation_trans; [apply in_order_flat_map|].
  induction cs as [|kc cs IHcs]; cbn [flat_map]; [constructor|].
  inversion IH as [|? ? Hkc Hcs]; subst.
  rewrite map_app. apply Permutation_app; [exact Hkc|apply IHcs; exact Hcs].
Qed.

Section Locations.
Context {B : Type} {TB : TextBuffer B}.
Variable getLocation : string -> nat -> Loc.
Variable reverse : bool.

Lemma each_locations (f : nat -> string * estree -> build B -> result (build B))
      (l : list (string * estree)) :
  (forall kc, In kc l -> forall i st st',
        f i kc st = inr st' ->
        b_magicString st'
        = fold_left addSourcemapLocation (starts reverse (snd kc)) (b_magicString st)) ->
  forall i st st',
    each reverse f i l st = inr st' ->
    b_magicString st'
    = fold_left addSourcemapLocation
                (in_order reverse (fun kc => starts reverse (snd kc)) l) (b_magicString st).
Proof.
  induction l as [|x l IH]; intros Hf i st st' He; cbn [each] in He.
  - injection He as <-. reflexivity.
  - assert (Hf' : forall kc, In kc l -> forall i st st',
                 f i kc st = inr st' ->
                 b_magicString st'
                 = fold_left addSourcemapLocation (starts reverse (snd kc)) (b_magicString st))
      by (intros kc Hin; apply Hf; right; exact Hin).
    cbn [in_order]. destruct reverse eqn:Erev.
    + destruct (each true f (S i) l st) as [e|st1] eqn:E1; cbn [bind] in He; [discriminate|].
      rewrite fold_left_app, <- (IH Hf' _ _ _ E1).
      apply (Hf x (or_introl eq_refl) _ _ _ He).
    + destruct (f i x st) as [e|st1] eqn:E1; cbn [bind] in He; [discriminate|].
      rewrite fold_left_app, <- (Hf x (or_introl eq_refl) _ _ _ E1).
      apply (IH Hf' _ _ _ He).
Qed.

Lemma visit_locations (n : estree) :
  forall par key p (st st' : build B),
    visit reverse build_enter build_leave n par key p st = inr st' ->
    b_magicString st' = fold_left addSourcemapLocation (starts reverse n) (b_magicString st).
Proof.
  induction n as [a cs IH] using estree_induction. intros par key p st st' Hv.
  cbn [visit] in Hv.
  destruct (build_enter (Node a cs) par key p st) as [e|[b st1]] eqn:Een;
    cbn [bind fst snd] in Hv; [discriminate|].
  assert (Hen : b = false
                /\ b_magicString st1 = addSourcemapLocation (b_magicString st) (start a)).
  { revert Een. unfold build_enter. cbn [attrs_of].
    destruct (build_switch (Node a cs) (b_scopes st) (b_scope st)) as [e|r]; cbn [bind];
      [discriminate|].
    destruct (snd r); [destruct (tag_at (b_tags st) p); [discriminate|]|];
      intros [= <- <-]; split; reflexivity. }
  destruct Hen as [-> Hms1].
  match type of Hv with
  | bind ?m _ = _ => destruct m as [e|st2] eqn:Eeach
  end; cbn [bind] in Hv; [discriminate|].
  apply each_locations in Eeach.
  2:{ intros kc Hin i s0 s0' H. rewrite Forall_forall in IH. apply (IH kc Hin _ _ _ _ _ H). }
  assert (Hleave : b_magicString st' = b_magicString st2).
  { revert Hv. unfold build_leave. destruct (tag_at (b_tags st2) p); [|intros [= <-]; reflexivity].
    destruct (parent_of (b_scopes st2) (b_scope st2)); cbn [bind]; [discriminate|].
    intros [= <-]. reflexivity. }
  cbn [starts fold_left]. rewrite Hleave, Eeach, Hms1. reflexivity.
Qed.

(** X11: [analyse] touches the buffer of the statement only to add sourcemap
    locations: one at the start of every node of the statement, each node
    once, in the order in which the walker enters the nodes, and nothing
    for an import declaration.  It never edits the text. *)
Theorem analyse_marks_every_node :
  forall (this st' : Statement B),
    analyse getLocation reverse this = inr st' ->
    magicString st'
    = fold_left addSourcemapLocation
                (if isImportDeclaration this then [] else starts reverse (node this))
                (magicString this)
    /\ Permutation (starts reverse (node this))
                   (map (fun n => start (attrs_of n)) (nodes (node this))).
Proof.
  intros this st' H. split; [|apply starts_nodes].
  revert H. unfold analyse.
  destruct (isImportDeclaration this).
  { intros [= <-]. reflexivity. }
  unfold walk.
  match goal with
  | |- context [visit reverse build_enter build_leave ?n ?par ?key ?p ?s] =>
      destruct (visit reverse build_enter build_leave n par key p s) as [e|b] eqn:Eb
  end; cbn [bind]; [discriminate|].
  apply visit_locations in Eb. cbn [b_magicString] in Eb.
  innermost_cases; try discriminate; intros [= <-]; exact Eb.
Qed.
End Locations.

(** ** Where the rename pass edits the text *)
Lemma nodes_self (n : estree) : In n (nodes n).
Proof. destruct n as [a cs]. left. reflexivity. Qed.

Lemma nodes_child (a : attrs) (cs : list (string * estree)) (kc : string * estree) :
  In kc cs -> forall x, In x (nodes (snd kc)) -> In x (nodes (Node a cs)).
Proof.
  intros Hin x Hx. cbn [nodes]. right. apply in_flat_map. exists kc. split; assumption.
Qed.

Section AnchoredEdits.
Context {B : Type} {TB : TextBuffer B}.

Lemma export_rewrite_anchored (n0 : estree) bundleExports (n : estree) p (ms ms' : B) fl fl' :
  In n (nodes n0) -> type_is n "VariableDeclaration" = true ->
  export_rewrite bundleExports n p ms fl = inr (ms', fl') ->
  anchored_edit n0 ms ms'.
Proof.
  intros Hin Ht. unfold export_rewrite.
  destruct (find_child "declarations" 0 (children_of n)) as [first|] eqn:Ef;
    cbn [required bind]; [|discriminate].
  destruct (find_child "id" 0 (children_of (snd first))) as [id|] eqn:Ei;
    cbn [required bind]; [|discriminate].
  match goal with |- context [if ?c then _ else _] => destruct c end.
  - match goal with |- context [overwrite ?a ?b ?c ?d] =>
      destruct (overwrite a b c d) as [b'|] eqn:Eo end; cbn [bind]; [|discriminate].
    intros [= <- _]. eapply anchored_export; eassumption.
  - match goal with |- context [fold_right ?f ?a ?l] =>
      destruct (fold_right f a l) as [e|declared] end; cbn [bind]; [discriminate|].
    match goal with |- context [insert ?a ?b ?c] =>
      destruct (insert a b c) as [b'|] eqn:Eo end; intros [= <- _].
    + eapply anchored_insert; eassumption.
    + eapply anchored_append; eassumption.
Qed.

Lemma rewrite_identifier_anchored (n0 : estree) (b0 : B) (n : estree) par key
      (st st' : rewrite B) :
  In n (nodes n0) ->
  anchored n0 b0 (w_magicString st) ->
  rewrite_identifier n par key st = inr st' ->
  anchored n0 b0 (w_magicString st').
Proof.
  intros Hin Ha H.
  apply rewrite_identifier_cases in H
    as [->|(parent & names & c & b & Hi & _ & _ & _ & _ & _ & Hc & Hn & Ho & ->)];
    [exact Ha|].
  cbn [w_magicString]. eapply anchored_more; [exact Ha|].
  eapply anchored_rename; eassumption.
Qed.

Lemma rewrite_enter_anchored (n0 : estree) (b0 : B) (this : Statement B)
      bundleExports deshadowList (n : estree) par key p (st : rewrite B) b st' :
  In n (nodes n0) ->
  anchored n0 b0 (w_magicString st) ->
  rewrite_enter this bundleExports deshadowList n par key p st = inr (b, st') ->
  anchored n0 b0 (w_magicString st').
Proof.
  intros Hin Ha. unfold rewrite_enter.
  destruct (skipped (w_flags st) p); [intros [= _ <-]; exact Ha|].
  assert (H1 : forall st1,
             (if w_topLevel st && type_is n "VariableDeclaration"
              then r <- export_rewrite bundleExports n p (w_magicString st) (w_flags st) ;;
                   inr (mkRewrite (fst r) (w_names st) (w_replacementStack st)
                                  (w_topLevel st) (snd r))
              else inr st) = inr st1 ->
             anchored n0 b0 (w_magicString st1)).
  { intros st1. destruct (w_topLevel st); cbn [andb]; [|intros [= <-]; exact Ha].
    destruct (type_is n "VariableDeclaration") eqn:Ev; [|intros [= <-]; exact Ha].
    destruct (export_rewrite bundleExports n p (w_magicString st) (w_flags st))
      as [e|[ms' fl']] eqn:Ex; cbn [bind fst snd]; [discriminate|].
    intros [= <-]. cbn [w_magicString]. eapply anchored_more; [exact Ha|].
    eapply export_rewrite_anchored; eassumption. }
  match goal with
  | |- bind ?m _ = _ -> _ => destruct m as [e|st1]
  end; cbn [bind]; [discriminate|].
  specialize (H1 st1 eq_refl). unfold enter_scope.
  destruct (tag_at (tags this) p) as [s|].
  - unfold bind, required. destruct (w_names st1) as [names|]; [|discriminate].
    destruct (deref (scopes this) s) as [sc|]; [|discriminate].
    destruct (negb (snd (scoped_names names deshadowList sc))); [intros [= _ <-]; exact H1|].
    match goal with |- context [rewrite_identifier n par key ?x] =>
      destruct (rewrite_identifier n par key x) as [e|st2] eqn:Er
    end; [discriminate|].
    intros [= _ <-]. eapply rewrite_identifier_anchored; [exact Hin| |exact Er]. exact H1.
  - unfold bind.
    destruct (rewrite_identifier n par key st1) as [e|st2] eqn:Er; [discriminate|].
    intros [= _ <-]. eapply rewrite_identifier_anchored; [exact Hin|exact H1|exact Er].
Qed.

Lemma anchored_trans (n0 : estree) (b0 b1 b2 : B) :
  anchored n0 b0 b1 -> anchored n0 b1 b2 -> anchored n0 b0 b2.
Proof.
  intros H1 H2. induction H2 as [b|b bm b2 H IH Hstep]; [exact H1|].
  eapply anchored_more; [exact (IH H1)|exact Hstep].
Qed.

Lemma rewrite_leave_buffer (this : Statement B) (n : estree) p (st st' : rewrite B) :
  rewrite_leave this n p st = inr st' -> w_magicString st' = w_magicString st.
Proof.
  unfold rewrite_leave. destruct (tag_at (tags this) p); intros [= <-]; reflexivity.
Qed.

Lemma visit_anchored (reverse : bool) (root : estree) (b0 : B) (this : Statement B)
      bundleExports deshadowList (n : estree) :
  forall par key p (st st' : rewrite B),
    (forall x, In x (nodes n) -> In x (nodes root)) ->
    anchored root b0 (w_magicString st) ->
    visit reverse (rewrite_enter this bundleExports deshadowList) (rewrite_leave this)
          n par key p st = inr st' ->
    anchored root b0 (w_magicString st').
Proof.
  intros par key p st st' Hsub Ha Hv.
  apply (visit_invariant
           (fun s => anchored root b0 (w_magicString s))
           (fun n => forall x, In x (nodes n) -> In x (nodes root)))
    in Hv; [exact Hv| | | | |].
  - intros a cs kc Hs Hin x Hx. apply Hs. apply (nodes_child a cs kc Hin x Hx).
  - intros m par' key' q s b s' Hs HI Hen.
    eapply rewrite_enter_anchored; [apply Hs, nodes_self|exact HI|exact Hen].
  - intros m q s s' _ HI Hl. rewrite (rewrite_leave_buffer _ _ _ _ _ Hl). exact HI.
  - exact Hsub.
  - exact Ha.
Qed.

(** X16: every edit [replaceIdentifiers] makes to the clone of the buffer sits at
    offsets of a node of the statement: it overwrites the range of an
    identifier by another name, overwrites the head of a variable
    declaration up to the binding of its first declarator, or puts text at
    the end of a variable declaration.  It makes no other edit, and none
    at all when both tables are empty. *)
Theorem replaceIdentifiers_edits_sit_on_nodes :
  forall (reverse : bool) (this this' : Statement B) (names bundleExports : Obj.t string)
         (b' : B),
    replaceIdentifiers reverse this names bundleExports = inr (b', this') ->
    anchored (node this) (clone (magicString this)) b'
    /\ (names = [] -> bundleExports = [] -> b' = clone (magicString this)).
Proof.
  intros reverse this this' names bundleExports b'. unfold replaceIdentifiers.
  destruct (Nat.ltb 0 (List.length (Obj.keys names))
            || Nat.ltb 0 (List.length (Obj.keys bundleExports))) eqn:Etables.
  - unfold walk.
    match goal with
    | |- context [visit reverse ?en ?le ?n ?par ?key ?p ?s] =>
        destruct (visit reverse en le n par key p s) as [e|st] eqn:Ev
    end; cbn [bind]; [discriminate|].
    intros [= <- _]. split.
    + apply (visit_anchored reverse (node this) (clone (magicString this))) in Ev;
        [exact Ev|auto|apply anchored_done].
    + intros -> ->. discriminate Etables.
  - intros [= <- _]. split; [apply anchored_done|reflexivity].
Qed.
End AnchoredEdits.

(** ** The export rewrite of a declaration at the outermost nesting *)
Lemma visit_eq {St : Type} (reverse : bool)
      (enter : estree -> option estree -> string -> path -> St -> result (bool * St))
      (leave : estree -> path -> St -> result St)
      (n : estree) par key p (s : St) :
  visit reverse enter leave n par key p s
  = (r <- enter n par key p s ;;
     if fst r then inr (snd r)
     else s2 <- each reverse
                  (fun i kc s' => visit reverse enter leave (snd kc) (Some n) (fst kc)
                                        (p ++ [i]) s')
                  0 (children_of n) (snd r) ;;
          leave n p s2).
Proof. destruct n; reflexivity. Qed.

Lemma if_inv {A : Type} (b : bool) (x y r : A) :
  (if b then x else y) = r -> (b = true /\ x = r) \/ (b = false /\ y = r).
Proof. destruct b; auto. Qed.

Lemma node_at_nodes (root : estree) :
  forall (p : path) (n : estree),
    node_at root p = Some n -> forall x, In x (nodes n) -> In x (nodes root).
Proof.
  intros p. revert root. induction p as [|i p IH]; intros root n H x Hx; cbn [node_at] in H.
  - injection H as <-. exact Hx.
  - destruct (nth_error (children_of root) i) as [kc|] eqn:Hi; [|discriminate].
    destruct root as [a cs]. cbn [children_of] in Hi.
    apply (nodes_child a cs kc (nth_error_In _ _ Hi)). apply (IH _ _ H x Hx).
Qed.

Lemma node_at_step (root : estree) (p : path) (n : estree) (i : nat) (kc : string * estree) :
  node_at root p = Some n -> nth_error (children_of n) i = Some kc ->
  node_at root (p ++ [i]) = Some (snd kc).
Proof.
  intros Hp Hi. rewrite node_at_app, Hp. cbn [node_at]. rewrite Hi. reflexivity.
Qed.

Section ExportEdits.
Context {B : Type} {TB : TextBuffer B}.
Variable reverse : bool.
Variable this : Statement B.
Variable bundleExports : Obj.t string.
Variable deshadowList : list string.
Variable p : path.
Variable d : estree.

Hypothesis outermost : forall q s, tag_at (tags this) q = Some s -> ~ before reverse q p.
Hypothesis not_nested : forall q r a,
    p = q ++ r -> r <> [] -> node_at (node this) q = Some a ->
    type_is a "VariableDeclaration" = false.
Hypothesis is_declaration : type_is d "VariableDeclaration" = true.

Lemma declared_ids (ds : list estree) :
  forall declared,
    fold_right (fun declarator acc =>
                  id' <- required DeclaratorId (child "id" declarator) ;;
                  rest <- acc ;;
                  inr (name_of id' :: rest))
               (inr []) ds = inr declared ->
    exists ids, Forall2 (fun declarator i => child "id" declarator = Some i) ds ids
                /\ declared = map name_of ids.
Proof.
  induction ds as [|x ds IH]; intros declared; cbn [fold_right].
  - intros [= <-]. exists []. split; [constructor|reflexivity].
  - destruct (child "id" x) as [i|] eqn:Ei; cbn [required bind]; [|discriminate].
    match goal with |- context [fold_right ?f ?a ds] =>
      destruct (fold_right f a ds) as [e|rest] eqn:Ef end; cbn [bind]; [discriminate|].
    intros [= <-]. destruct (IH rest eq_refl) as (ids & HF & ->).
    exists (i :: ids). split; [constructor; assumption|reflexivity].
Qed.

Lemma export_rewrite_edit (n : estree) q (ms ms' : B) fl fl' :
  export_rewrite bundleExports n q ms fl = inr (ms', fl') ->
  export_edit bundleExports n ms ms'.
Proof.
  unfold export_rewrite, export_edit.
  destruct (find_child "declarations" 0 (children_of n)) as [first|] eqn:Ef;
    cbn [required bind]; [|discriminate].
  destruct (find_child "id" 0 (children_of (snd first))) as [id|] eqn:Ei;
    cbn [required bind]; [|discriminate].
  intros H. exists first, id. split; [reflexivity|]. split; [exact Ei|]. revert H.
  destruct (Nat.eqb (List.length (childs "declarations" n)) 1
            && truthy_at bundleExports (name_of (snd id))).
  - match goal with |- context [overwrite ?a ?b ?c ?e] =>
      destruct (overwrite a b c e) as [b'|] end; cbn [bind]; [|discriminate].
    intros [= <- _]. reflexivity.
  - match goal with |- context [fold_right ?f ?a ?l] =>
      destruct (fold_right f a l) as [e|declared] eqn:Efold end; cbn [bind]; [discriminate|].
    destruct (declared_ids _ _ Efold) as (ids & HF & ->).
    intros H. exists ids. split; [exact HF|]. cbn zeta. revert H. unfold exportInitialisers.
    match goal with |- context [insert ?a ?b ?c] => destruct (insert a b c) as [b'|] end;
      intros [= <- _]; reflexivity.
Qed.

Lemma rewrite_identifier_state (n : estree) par key (st st' : rewrite B) :
  rewrite_identifier n par key st = inr st' ->
  w_topLevel st' = w_topLevel st /\ w_flags st' = w_flags st.
Proof.
  intros H. apply rewrite_identifier_cases in H as [->|(? & ? & ? & ? & H)];
    [split; reflexivity|].
  destruct H as (_ & _ & _ & _ & _ & _ & _ & _ & _ & ->). split; reflexivity.
Qed.

Lemma enter_scope_anchored (root : estree) (b0 : B) (n : estree) par key q
      (st : rewrite B) b st' :
  In n (nodes root) ->
  anchored root b0 (w_magicString st) ->
  enter_scope this deshadowList n par key q st = inr (b, st') ->
  anchored root b0 (w_magicString st').
Proof.
  intros Hin Ha. unfold enter_scope.
  destruct (tag_at (tags this) q) as [s|].
  - unfold bind, required. destruct (w_names st) as [names|]; [|discriminate].
    destruct (deref (scopes this) s) as [sc|]; [|discriminate].
    destruct (negb (snd (scoped_names names deshadowList sc))); [intros [= _ <-]; exact Ha|].
    match goal with |- context [rewrite_identifier n par key ?x] =>
      destruct (rewrite_identifier n par key x) as [e|st2] eqn:Er
    end; [discriminate|].
    intros [= _ <-]. eapply rewrite_identifier_anchored; [exact Hin| |exact Er]. exact Ha.
  - unfold bind.
    destruct (rewrite_identifier n par key st) as [e|st2] eqn:Er; [discriminate|].
    intros [= _ <-]. eapply rewrite_identifier_anchored; [exact Hin|exact Ha|exact Er].
Qed.

(** Entering the declaration at the outermost nesting. *)
Lemma rewrite_enter_export (root : estree) (n : estree) par key q (st : rewrite B) b st' :
  In n (nodes root) ->
  type_is n "VariableDeclaration" = true ->
  w_topLevel st = true ->
  skipped (w_flags st) q = false ->
  rewrite_enter this bundleExports deshadowList n par key q st = inr (b, st') ->
  exists ms', export_edit bundleExports n (w_magicString st) ms'
              /\ anchored root ms' (w_magicString st').
Proof.
  intros Hin Hty Htop Hskip. unfold rewrite_enter. rewrite Hskip, Htop, Hty. cbn [andb].
  destruct (export_rewrite bundleExports n q (w_magicString st) (w_flags st))
    as [e|[ms' fl']] eqn:Ex; cbn [bind fst snd]; [discriminate|].
  intros H. exists ms'. split; [eapply export_rewrite_edit; exact Ex|].
  eapply enter_scope_anchored in H; [exact H|exact Hin|]. cbn [w_magicString].
  apply anchored_done.
Qed.

(** Entering a node around the declaration. *)
Lemma rewrite_enter_around (n : estree) par key q (st : rewrite B) b st' :
  tag_at (tags this) q = None ->
  type_is n "VariableDeclaration" = false ->
  skipped (w_flags st) q = false ->
  rewrite_enter this bundleExports deshadowList n par key q st = inr (b, st') ->
  b = false /\ w_topLevel st' = w_topLevel st /\ w_flags st' = w_flags st.
Proof.
  intros Htag Hty Hskip. unfold rewrite_enter, enter_scope.
  rewrite Hskip, Hty, Htag, andb_false_r. cbn [bind].
  destruct (rewrite_identifier n par key st) as [e|st2] eqn:Er; cbn [bind]; [discriminate|].
  intros [= <- <-]. split; [reflexivity|]. apply (rewrite_identifier_state _ _ _ _ _ Er).
Qed.

(** Entering a node that has no scope tag leaves [topLevel] as it is. *)
Lemma rewrite_enter_keeps_top (n : estree) par key q (st : rewrite B) b st' :
  tag_at (tags this) q = None ->
  rewrite_enter this bundleExports deshadowList n par key q st = inr (b, st') ->
  w_topLevel st' = w_topLevel st.
Proof.
  intros Htag. unfold rewrite_enter, enter_scope. rewrite Htag.
  destruct (skipped (w_flags st) q); [intros [= _ <-]; reflexivity|].
  match goal with
  | |- bind ?m _ = _ -> _ =>
      assert (H1 : forall st1, m = inr st1 -> w_topLevel st1 = w_topLevel st);
      [|destruct m as [e|st1]; cbn [bind]; [discriminate|]]
  end.
  { intros st1. destruct (w_topLevel st && type_is n "VariableDeclaration");
      [|intros [= <-]; reflexivity].
    destruct (export_rewrite bundleExports n q (w_magicString st) (w_flags st));
      cbn [bind]; [discriminate|]. intros [= <-]. reflexivity. }
  specialize (H1 st1 eq_refl).
  destruct (rewrite_identifier n par key st1) as [e|st2] eqn:Er; cbn [bind]; [discriminate|].
  intros [= _ <-]. destruct (rewrite_identifier_state _ _ _ _ _ Er) as [Ht _]. congruence.
Qed.

(** The walk of a node that is entered before the declaration, and of what
    is below it, stays at the outermost nesting and flags no node around
    the declaration. *)
Lemma visit_off_path (n : estree) par key (q0 : path) (st st' : rewrite B) :
  (forall q, under q0 q -> tag_at (tags this) q = None) ->
  ~ under q0 p ->
  clean p st ->
  visit reverse (rewrite_enter this bundleExports deshadowList) (rewrite_leave this)
        n par key q0 st = inr st' ->
  clean p st'.
Proof.
  intros Htags Hoff [Htop Hfl] Hv. split.
  - set (I := fun s : rewrite B => w_topLevel s = true).
    assert (HI : I st'); [|exact HI].
    eapply (visit_invariant_at I (fun _ q => under q0 q)); [| | | | |exact Hv].
    + intros a cs q i kc [r ->] _. exists (r ++ [i]). symmetry. apply app_assoc.
    + intros m par' key' q s b s' Hq Hs Hen. unfold I in *.
      rewrite (rewrite_enter_keeps_top _ _ _ _ _ _ _ (Htags q Hq) Hen). exact Hs.
    + intros m q s s' _ Hs. unfold rewrite_leave. unfold I in *.
      destruct (tag_at (tags this) q); intros [= <-]; exact Hs.
    + exists []. symmetry. apply app_nil_r.
    + exact Htop.
  - destruct (visit_frame reverse _ _ _ _ _ _ _ _ _ Hv) as [_ Hnew].
    intros q Hq Hqp. destruct (Hnew q Hq) as [H|(r & _ & ->)]; [apply (Hfl q H Hqp)|].
    apply Hoff. destruct Hqp as [r' Hr']. exists (r ++ r'). rewrite Hr'.
    symmetry. apply app_assoc.
Qed.

Lemma each_off_path (parent : option estree) (p0 : path) (l : list (string * estree)) :
  forall j0 (st st' : rewrite B),
    (forall k x, nth_error l k = Some x ->
                 (forall q, under (p0 ++ [j0 + k]) q -> tag_at (tags this) q = None)
                 /\ ~ under (p0 ++ [j0 + k]) p) ->
    clean p st ->
    each reverse
         (fun j kc s => visit reverse (rewrite_enter this bundleExports deshadowList)
                              (rewrite_leave this) (snd kc) parent (fst kc) (p0 ++ [j]) s)
         j0 l st = inr st' ->
    clean p st'.
Proof.
  intros j0 st st' Hl Hst He.
  eapply (each_invariant_at (clean p)); [|exact Hst|exact He].
  intros k x Hk s s' Hs Hv. destruct (Hl k x Hk) as [Htags Hoff].
  apply (visit_off_path _ _ _ _ _ _ Htags Hoff Hs Hv).
Qed.

Lemma each_anchored (root : estree) (b0 : B) (parent : option estree) (p0 : path)
      (l : list (string * estree)) :
  (forall x, In x l -> forall y, In y (nodes (snd x)) -> In y (nodes root)) ->
  forall j0 (st st' : rewrite B),
    anchored root b0 (w_magicString st) ->
    each reverse
         (fun j kc s => visit reverse (rewrite_enter this bundleExports deshadowList)
                              (rewrite_leave this) (snd kc) parent (fst kc) (p0 ++ [j]) s)
         j0 l st = inr st' ->
    anchored root b0 (w_magicString st').
Proof.
  intros Hl j0 st st' Hst He.
  eapply (each_invariant (fun s => anchored root b0 (w_magicString s)));
    [|exact Hst|exact He].
  intros x Hx j s s' Hs Hv. cbv beta in *.
  apply (visit_anchored reverse root b0 this bundleExports deshadowList (snd x)
                        _ _ _ _ _ (Hl x Hx) Hs Hv).
Qed.

(** The children of a node around the declaration: those visited before
    the child that leads to the declaration are off its path, then comes
    that child, then the others. *)
Lemma each_on_path (root : estree) (parent : option estree) (p0 : path) (i : nat)
      (r' : path) (l : list (string * estree)) :
  p = p0 ++ i :: r' ->
  (forall x, In x l -> forall y, In y (nodes (snd x)) -> In y (nodes root)) ->
  forall i0 k kc0,
    i = i0 + k -> nth_error l k = Some kc0 ->
    (forall s s' : rewrite B,
        clean p s ->
        visit reverse (rewrite_enter this bundleExports deshadowList) (rewrite_leave this)
              (snd kc0) parent (fst kc0) (p0 ++ [i]) s = inr s' ->
        exists b1 b2, anchored root (w_magicString s) b1
                      /\ export_edit bundleExports d b1 b2
                      /\ anchored root b2 (w_magicString s')) ->
    forall st st' : rewrite B,
      clean p st ->
      each reverse
           (fun j kc s => visit reverse (rewrite_enter this bundleExports deshadowList)
                                (rewrite_leave this) (snd kc) parent (fst kc) (p0 ++ [j]) s)
           i0 l st = inr st' ->
      exists b1 b2, anchored root (w_magicString st) b1
                    /\ export_edit bundleExports d b1 b2
                    /\ anchored root b2 (w_magicString st').
Proof.
  intros Hp.
  assert (Hsib : forall j, (if reverse then i < j else j < i) ->
                           (forall q, under (p0 ++ [j]) q -> tag_at (tags this) q = None)
                           /\ ~ under (p0 ++ [j]) p).
  { intros j Hj. split.
    - intros q [rq ->]. destruct (tag_at (tags this) ((p0 ++ [j]) ++ rq)) as [s|] eqn:Et;
        [|reflexivity].
      exfalso. apply (outermost _ _ Et). right. exists p0, i, j, rq, r'.
      split; [rewrite <- app_assoc; reflexivity|]. split; [exact Hp|exact Hj].
    - intros [x Hx]. rewrite Hp, <- app_assoc in Hx. apply app_inv_head in Hx.
      cbn in Hx. injection Hx as Hij _. subst j. destruct reverse; lia. }
  induction l as [|x l IH]; intros Hnodes i0 k kc0 Hi Hk Htarget st st' Hst He.
  { destruct k; discriminate. }
  assert (Hnodes' : forall y, In y l -> forall z, In z (nodes (snd y)) -> In z (nodes root))
    by (intros y Hy; apply Hnodes; right; exact Hy).
  assert (Hx : forall z, In z (nodes (snd x)) -> In z (nodes root))
    by (apply Hnodes; left; reflexivity).
  cbn [each] in He. apply if_inv in He as [[Erev He]|[Erev He]];
    match type of He with
    | bind ?m _ = _ => destruct m as [e|sm] eqn:E1
    end; cbn [bind] in He; try discriminate;
    destruct k as [|k]; cbn [nth_error] in Hk.
  - (* last child first; the child that leads to the declaration heads the list *)
    injection Hk as ->. rewrite Nat.add_0_r in Hi. subst i0.
    assert (Hsm : clean p sm).
    { eapply each_off_path; [|exact Hst|exact E1].
      intros k y _. apply Hsib. rewrite Erev. lia. }
    assert (Ham : anchored root (w_magicString st) (w_magicString sm))
      by (eapply each_anchored; [exact Hnodes'|apply anchored_done|exact E1]).
    destruct (Htarget sm st' Hsm He) as (b1 & b2 & H1 & H2 & H3).
    exists b1, b2. split; [eapply anchored_trans; eassumption|]. split; assumption.
  - (* last child first; it comes later in the list *)
    destruct (IH Hnodes' (S i0) k kc0) with (st := st) (st' := sm)
      as (b1 & b2 & H1 & H2 & H3); [lia|exact Hk|exact Htarget|exact Hst|exact E1|].
    exists b1, b2. split; [exact H1|]. split; [exact H2|].
    apply (visit_anchored reverse root b2 this bundleExports deshadowList (snd x)
                          _ _ _ _ _ Hx H3 He).
  - (* first child first; the child that leads to the declaration heads the list *)
    injection Hk as ->. rewrite Nat.add_0_r in Hi. subst i0.
    destruct (Htarget st sm Hst E1) as (b1 & b2 & H1 & H2 & H3).
    exists b1, b2. split; [exact H1|]. split; [exact H2|].
    eapply each_anchored; [exact Hnodes'|exact H3|exact He].
  - (* first child first; it comes later in the list *)
    assert (Hsm : clean p sm).
    { destruct (Hsib i0) as [Htags Hoff]; [rewrite Erev; lia|].
      apply (visit_off_path _ _ _ _ _ _ Htags Hoff Hst E1). }
    assert (Ham : anchored root (w_magicString st) (w_magicString sm)).
    { apply (visit_anchored reverse root (w_magicString st) this bundleExports
                            deshadowList (snd x) _ _ _ _ _ Hx (anchored_done _ _) E1). }
    destruct (IH Hnodes' (S i0) k kc0) with (st := sm) (st' := st')
      as (b1 & b2 & H1 & H2 & H3); [lia|exact Hk|exact Htarget|exact Hsm|exact He|].
    exists b1, b2. split; [eapply anchored_trans; eassumption|]. split; assumption.
Qed.

(** The walk of a node around the declaration, or of the declaration
    itself, reached at the outermost nesting: the export rewrite of the
    declaration is one of its edits. *)
Lemma visit_on_path :
  forall (r : path) (n : estree) par key (p0 : path) (st st' : rewrite B),
    p = p0 ++ r ->
    node_at n r = Some d ->
    node_at (node this) p0 = Some n ->
    clean p st ->
    visit reverse (rewrite_enter this bundleExports deshadowList) (rewrite_leave this)
          n par key p0 st = inr st' ->
    exists b1 b2, anchored (node this) (w_magicString st) b1
                  /\ export_edit bundleExports d b1 b2
                  /\ anchored (node this) b2 (w_magicString st').
Proof.
  induction r as [|i r IH]; intros n par key p0 st st' Hp Hd Hn Hst Hv;
    cbn [node_at] in Hd; rewrite visit_eq in Hv;
    destruct (rewrite_enter this bundleExports deshadowList n par key p0 st)
      as [e|[b st1]] eqn:Hen; cbn [bind fst snd] in Hv; try discriminate.
  - (* the declaration itself *)
    injection Hd as ->. rewrite app_nil_r in Hp. subst p0.
    assert (Hsub : forall x, In x (nodes d) -> In x (nodes (node this)))
      by (apply (node_at_nodes _ _ _ Hn)).
    destruct Hst as [Htop Hfl].
    assert (Hskip : skipped (w_flags st) p = false).
    { destruct (skipped (w_flags st) p) eqn:E; [|reflexivity].
      exfalso. apply (Hfl p E). exists []. symmetry. apply app_nil_r. }
    destruct (rewrite_enter_export (node this) d par key p st b st1
                (Hsub d (nodes_self d)) is_declaration Htop Hskip Hen) as (ms' & Hedit & Ha1).
    exists (w_magicString st), ms'. split; [apply anchored_done|]. split; [exact Hedit|].
    destruct b; [injection Hv as <-; exact Ha1|].
    match type of Hv with
    | bind ?m _ = _ => destruct m as [e|s2] eqn:Eeach
    end; cbn [bind] in Hv; [discriminate|].
    rewrite (rewrite_leave_buffer _ _ _ _ _ Hv).
    eapply each_anchored; [|exact Ha1|exact Eeach].
    intros x Hx y Hy. apply Hsub. destruct d as [a cs]. cbn [children_of] in Hx.
    apply (nodes_child a cs x Hx y Hy).
  - (* a node around it *)
    destruct (nth_error (children_of n) i) as [kc|] eqn:Hi; [|discriminate].
    assert (Hsub : forall x, In x (nodes n) -> In x (nodes (node this)))
      by (apply (node_at_nodes _ _ _ Hn)).
    assert (Htag : tag_at (tags this) p0 = None).
    { destruct (tag_at (tags this) p0) as [s|] eqn:Et; [|reflexivity].
      exfalso. apply (outermost _ _ Et). left. exists (i :: r). split; [discriminate|exact Hp]. }
    assert (Hty : type_is n "VariableDeclaration" = false)
      by (apply (not_nested p0 (i :: r) n Hp); [discriminate|exact Hn]).
    destruct Hst as [Htop Hfl].
    assert (Hskip : skipped (w_flags st) p0 = false).
    { destruct (skipped (w_flags st) p0) eqn:E; [|reflexivity].
      exfalso. apply (Hfl p0 E). exists (i :: r). exact Hp. }
    destruct (rewrite_enter_around _ _ _ _ _ _ _ Htag Hty Hskip Hen) as (-> & Ht1 & Hf1).
    assert (Hst1 : clean p st1).
    { split; [rewrite Ht1; exact Htop|]. rewrite Hf1. exact Hfl. }
    assert (Ha1 : anchored (node this) (w_magicString st) (w_magicString st1)).
    { eapply rewrite_enter_anchored; [apply Hsub, nodes_self|apply anchored_done|exact Hen]. }
    match type of Hv with
    | bind ?m _ = _ => destruct m as [e|s2] eqn:Eeach
    end; cbn [bind] in Hv; [discriminate|].
    destruct (each_on_path (node this) (Some n) p0 i r (children_of n) Hp) with
        (i0 := 0) (k := i) (kc0 := kc) (st := st1) (st' := s2)
      as (b1 & b2 & H1 & H2 & H3); [|reflexivity|exact Hi| |exact Hst1|exact Eeach|].
    + intros x Hx y Hy. apply Hsub. destruct n as [a cs]. cbn [children_of] in Hx.
      apply (nodes_child a cs x Hx y Hy).
    + intros s s' Hs Hvs.
      apply (IH (snd kc) (Some n) (fst kc) (p0 ++ [i]) s s');
        [rewrite <- app_assoc; exact Hp|exact Hd|apply (node_at_step _ _ _ _ _ Hn Hi)
        |exact Hs|exact Hvs].
    + exists b1, b2. split; [eapply anchored_trans; eassumption|]. split; [exact H2|].
      rewrite (rewrite_leave_buffer _ _ _ _ _ Hv). exact H3.
Qed.
End ExportEdits.

Section TopLevelExport.
Context {B : Type} {TB : TextBuffer B}.
Variable reverse : bool.

(** C9: [replaceIdentifiers], called with a table that is not empty, makes
    the export rewrite of every variable declaration [d] of the statement
    that it reaches while still at the outermost nesting, that is, before
    the walk has entered any node with a scope: with exactly one
    declarator whose bound name has an export target, the range from the
    start of the declaration to the end of the binding name is overwritten
    with the target; otherwise one assignment [\n<export-target> = <name>;]
    for each declared name that has a target is inserted at the end of the
    declaration, or appended to the buffer when that insertion is refused.
    The edited buffer [b'] is reached from the clone by edits that lead to a
    buffer [b1], then this rewrite from [b1] to [b2], then further edits. *)
Theorem top_level_declaration_export_rewrite :
  forall (this this' : Statement B) (names bundleExports : Obj.t string) (b' : B)
         (p : path) (d : estree),
    replaceIdentifiers reverse this names bundleExports = inr (b', this') ->
    names <> [] \/ bundleExports <> [] ->
    node_at (node this) p = Some d ->
    type_is d "VariableDeclaration" = true ->
    (forall q s, tag_at (tags this) q = Some s -> ~ before reverse q p) ->
    (forall q, skipped (flags this) q = true -> ~ under q p) ->
    (forall q r a, p = q ++ r -> r <> [] -> node_at (node this) q = Some a ->
                   type_is a "VariableDeclaration" = false) ->
    exists b1 b2 first id,
      anchored (node this) (clone (magicString this)) b1
      /\ anchored (node this) b2 b'
      /\ find_child "declarations" 0 (children_of d) = Some first
      /\ find_child "id" 0 (children_of (snd first)) = Some id
      /\ if Nat.eqb (List.length (childs "declarations" d)) 1
            && truthy_at bundleExports (name_of (snd id))
         then overwrite b1 (start (attrs_of d)) (end_ (attrs_of (snd id)))
                        (key_of (Obj.get bundleExports (name_of (snd id)))) = Some b2
         else exists ids,
             Forall2 (fun declarator i => child "id" declarator = Some i)
                     (childs "declarations" d) ids
             /\ let text :=
                  String.concat ""
                    (map (fun nm => (newline ++ key_of (Obj.get bundleExports nm)
                                     ++ " = " ++ nm ++ ";")%string)
                         (filter (truthy_at bundleExports) (map name_of ids))) in
                b2 = match insert b1 (end_ (attrs_of d)) text with
                     | Some b => b
                     | None => append b1 text
                     end.
Proof.
  intros this this' names bundleExports b' p d Hr Htables Hd Hty Houter Hflags Hnest.
  unfold replaceIdentifiers in Hr.
  assert (Et : Nat.ltb 0 (List.length (Obj.keys names))
               || Nat.ltb 0 (List.length (Obj.keys bundleExports)) = true).
  { destruct Htables as [H|H].
    - destruct names; [contradiction|reflexivity].
    - destruct bundleExports; [contradiction|]. apply orb_true_r. }
  rewrite Et in Hr. unfold walk in Hr.
  match type of Hr with
  | bind ?m _ = _ => destruct m as [e|st] eqn:Ev
  end; cbn [bind] in Hr; [discriminate|].
  injection Hr as <- _.
  assert (Hclean : clean p (mkRewrite (clone (magicString this)) (Some names) [names] true
                                      (flags this)))
    by (split; [reflexivity|exact Hflags]).
  destruct (visit_on_path reverse this bundleExports _ p d Houter Hnest Hty
              p (node this) None "" [] _ _ eq_refl Hd eq_refl Hclean Ev)
    as (b1 & b2 & H1 & (first & id & Hf & Hi & Hedit) & H3).
  exists b1, b2, first, id.
  split; [exact H1|]. split; [exact H3|]. split; [exact Hf|]. split; [exact Hi|exact Hedit].
Qed.
End TopLevelExport.

(** ** The properties on examples *)

Lemma nothing_included_closed {B : Type} (h : stmt_heap B) :
  nothing_included h = true -> closed h.
Proof.
  unfold nothing_included. intros Hb s Hs. exfalso.
  apply included_spec in Hs as (st & Hn & Hi).
  rewrite forallb_forall in Hb. specialize (Hb st (nth_error_In _ _ Hn)).
  rewrite Hi in Hb. discriminate.
Qed.

(** The witness of X1: expanding statement 0 of the example bundle. *)
Lemma expand_sets_flags_of_result_witness :
  exists r h',
    expand 5 0 Examples.bundle = Some (r, h')
    /\ NoDup r
    /\ (forall s, In s r <-> included Examples.bundle s = false /\ included h' s = true)
    /\ List.length h' = List.length Examples.bundle
    /\ (forall i st, nth_error Examples.bundle i = Some st ->
                     nth_error h' i = Some (if included h' i then include st else st)).
Proof.
  exact (expand_sets_flags_of_result 4 Examples.bundle 0
           (refs_validb_sound Examples.bundle eq_refl) ltac:(vm_compute; lia) ltac:(vm_compute; lia)).
Defined.

(** The witness of X2: expanding statement 2 of the example bundle, in which nothing is
    included yet. *)
Lemma expand_keeps_closed_witness :
  exists r h',
    expand 5 2 Examples.bundle = Some (r, h')
    /\ closed h'
    /\ forall x, reach Examples.bundle 2 x -> included h' x = true.
Proof.
  exact (expand_keeps_closed 4 Examples.bundle 2
           (refs_validb_sound Examples.bundle eq_refl) ltac:(vm_compute; lia) ltac:(vm_compute; lia)
           (nothing_included_closed Examples.bundle eq_refl)).
Defined.

(** The witness of X3: statement 3 of the example bundle, which [expand] on statement 0
    returns, is reached from statement 0. *)
Lemma expand_includes_only_reached_witness : reach Examples.bundle 0 3.
Proof.
  exact (expand_includes_only_reached 4 Examples.bundle 0 [1; 0; 3; 2]
           (map include Examples.bundle)
           (refs_validb_sound Examples.bundle eq_refl) ltac:(vm_compute; lia) eq_refl
           3 (or_intror (or_intror (or_introl eq_refl)))).
Defined.

(** The witness of X4: two sessions on the example bundle that expand the same statements, in
    another order and with a repetition. *)
Lemma session_includes_what_is_reached_witness :
  exists rs1 rs2 h',
    session 5 [2; 0] Examples.bundle = Some (rs1, h')
    /\ session 5 [0; 2; 0] Examples.bundle = Some (rs2, h')
    /\ closed h'
    /\ (forall x, included h' x = true <->
                  included Examples.bundle x = true
                  \/ exists c, In c [2; 0] /\ reach Examples.bundle c x).
Proof.
  exact (session_includes_what_is_reached 5 Examples.bundle [2; 0] [0; 2; 0]
           (refs_validb_sound Examples.bundle eq_refl) ltac:(vm_compute; lia)
           (nothing_included_closed Examples.bundle eq_refl)
           ltac:(repeat constructor)
           ltac:(intros c; cbn [In]; tauto)).
Defined.

(** The witness of X5: the target [x.prop] unwraps to [x] at depth 1. *)
Lemma unwrap_finds_the_root_witness :
  type_is Samples.identifier_x "MemberExpression" = false
  /\ (1 = 0 <-> type_is Samples.member_x_prop "MemberExpression" = false)
  /\ (1 = 0 -> Samples.identifier_x = Samples.member_x_prop)
  /\ (type_is Samples.identifier_x "Identifier" = true ->
      In (name_of Samples.identifier_x) (identifiers Samples.member_x_prop))
  /\ forall t e, unwrap t = inl e -> e = TypeError MemberObject.
Proof.
  exact (unwrap_finds_the_root Samples.member_x_prop Samples.identifier_x 1 eq_refl).
Defined.

(** The witness of X6: the assignment [x = 5] in a module that imports [x]. *)
Lemma reassignment_refused_only_for_unshadowed_import_witness :
  exists s target root d importSpecifier,
    Some 0 = Some s
    /\ write_targets Samples.assignment_x = Some [(target, true)]
    /\ unwrap target = inr (root, d)
    /\ Obj.get (Mod.imports (module Samples.assign_to_import)) (name_of root)
       = Some importSpecifier
    /\ contains (scopes Samples.assign_to_import) s (name_of root) = false
    /\ d < minDepth importSpecifier
    /\ "Illegal reassignment to import 'x'"
       = ("Illegal reassignment to import '" ++ name_of root ++ "'")%string
    /\ "main.js" = Mod.path (module Samples.assign_to_import)
    /\ mkLoc 1 0
       = Examples.first_line (toString (Mod.magicString (module Samples.assign_to_import)))
                             (start (attrs_of root)).
Proof.
  exact (reassignment_refused_only_for_unshadowed_import
           Examples.first_line Samples.assign_to_import
           (scopes Samples.assign_to_import) Obj.blank (Some 0) Samples.assignment_x
           "Illegal reassignment to import 'x'" "main.js" (mkLoc 1 0) eq_refl).
Defined.

(** The witness of X7: the statement [x = 5] of a module that imports [x] is refused. *)
Lemma analyse_refuses_only_imports_witness :
  Mod.imports (module Samples.assign_to_import) <> []
  /\ exists nm importSpecifier offset,
      Obj.get (Mod.imports (module Samples.assign_to_import)) nm = Some importSpecifier
      /\ "Illegal reassignment to import 'x'"
         = ("Illegal reassignment to import '" ++ nm ++ "'")%string
      /\ "main.js" = Mod.path (module Samples.assign_to_import)
      /\ mkLoc 1 0
         = Examples.first_line (toString (Mod.magicString (module Samples.assign_to_import)))
                               offset.
Proof.
  exact (analyse_refuses_only_imports Examples.first_line false Samples.assign_to_import
           "Illegal reassignment to import 'x'" "main.js" (mkLoc 1 0) eq_refl).
Defined.

(** The witness of X8: the names recorded for [function f(){ return bar + foo; }]. *)
Lemma analyse_records_names_of_the_statement_witness :
  (forall k, In k (Obj.keys (dependsOn Samples.function_f_analysed)) ->
             In k (Obj.keys (dependsOn Samples.function_f_statement))
             \/ In k (identifiers (node Samples.function_f_statement)))
  /\ (forall k, In k (Obj.keys (modifies Samples.function_f_analysed)) ->
                In k (Obj.keys (modifies Samples.function_f_statement))
                \/ In k (identifiers (node Samples.function_f_statement)))
  /\ (forall k, In k (Obj.keys (dependsOn Samples.function_f_statement)) ->
                In k (Obj.keys (dependsOn Samples.function_f_analysed)))
  /\ (forall k, In k (Obj.keys (modifies Samples.function_f_statement)) ->
                In k (Obj.keys (modifies Samples.function_f_analysed)))
  /\ (forall k, In k (Obj.keys (defines Samples.function_f_statement)) ->
                In k (Obj.keys (defines Samples.function_f_analysed))).
Proof.
  assert (H : analyse Examples.first_line false Samples.function_f_statement
             = inr Samples.function_f_analysed) by (vm_compute; reflexivity).
  exact (analyse_records_names_of_the_statement Examples.first_line false
           Samples.function_f_statement Samples.function_f_analysed H).
Defined.

(** The witness of X10: [function f(){ return bar + foo; }] defines [f], declared in its own
    scope. *)
Lemma analyse_defines_the_top_level_declarations_witness :
  exists sc,
    deref (scopes Samples.function_f_analysed) (scope Samples.function_f_analysed) = Some sc
    /\ parent sc = None /\ depth sc = 0
    /\ forall k, In k (Obj.keys (defines Samples.function_f_analysed))
                 <-> In k (Obj.keys (declarations sc)).
Proof.
  assert (H : analyse Examples.first_line false Samples.function_f_statement
             = inr Samples.function_f_analysed) by (vm_compute; reflexivity).
  exact (analyse_defines_the_top_level_declarations Examples.first_line false
           Examples.function_f (Examples.buffer_of "") (Examples.importing [])
           Samples.function_f_analysed H).
Defined.

(** The witness of X12: a scope that declares [x] drops the replacement of [x]. *)
Lemma scoped_names_drops_redeclared_witness :
  Obj.get (fst (scoped_names [("x", "y")] ["y"] Samples.scope_declaring_x)) "x"
  = if Obj.has (declarations Samples.scope_declaring_x) "x" then None
    else Obj.get [("x", "y")] "x".
Proof.
  exact (scoped_names_drops_redeclared [("x", "y")] ["y"] Samples.scope_declaring_x "x"
           ltac:(cbn [In]; intros [H|[]]; discriminate H)).
Defined.

(** The witness of X13: with the rename table [x -> y], the scope that declares [x] is not
    pruned. *)
Lemma scope_pruned_only_without_candidates_witness :
  snd (scoped_names [("x", "y")]
                    (map (fun nm => first_segment (key_of (Obj.get [("x", "y")] nm)))
                         (Obj.keys [("x", "y")]))
                    Samples.scope_declaring_x) = true.
Proof.
  exact (proj2 (scope_pruned_only_without_candidates [("x", "y")] [] Samples.scope_declaring_x)
               [("x", "y")] ltac:(discriminate)).
Defined.

(** The witness of X15: the rename pass on the analysed [function f(){ return bar + foo; }]. *)
Lemma replaceIdentifiers_finds_the_scopes_of_analyse_witness :
  (forall q s, tag_at (tags Samples.function_f_analysed) q = Some s ->
               exists sc, deref (scopes Samples.function_f_analysed) s = Some sc)
  /\ replaceIdentifiers false Samples.function_f_analysed [("foo", "bar")] []
     <> inl (TypeError CurrentScope).
Proof.
  assert (H : analyse Examples.first_line false Samples.function_f_statement
             = inr Samples.function_f_analysed) by (vm_compute; reflexivity).
  exact (replaceIdentifiers_finds_the_scopes_of_analyse Examples.first_line false false
           Examples.function_f (Examples.buffer_of "") (Examples.importing [])
           Samples.function_f_analysed [("foo", "bar")] [] H).
Defined.

(** The witness of X11: the sourcemap locations of [function f(){ return bar + foo; }]. *)
Lemma analyse_marks_every_node_witness :
  magicString Samples.function_f_analysed
  = fold_left addSourcemapLocation [0; 9; 12; 14; 21; 21; 27]
              (magicString Samples.function_f_statement)
  /\ magicString Samples.function_f_analysed
     = fold_left addSourcemapLocation
                 (if isImportDeclaration Samples.function_f_statement then []
                  else starts false (node Samples.function_f_statement))
                 (magicString Samples.function_f_statement)
  /\ Permutation (starts false (node Samples.function_f_statement))
                 (map (fun n => start (attrs_of n)) (nodes (node Samples.function_f_statement))).
Proof.
  assert (H : analyse Examples.first_line false Samples.function_f_statement
             = inr Samples.function_f_analysed) by (vm_compute; reflexivity).
  split; [vm_compute; reflexivity|].
  exact (analyse_marks_every_node Examples.first_line false
           Samples.function_f_statement Samples.function_f_analysed H).
Defined.

(** The witness of X16: the edits of the rename pass with [foo -> bar] on the analysed
    [function f(){ return bar + foo; }]. *)
Lemma replaceIdentifiers_edits_sit_on_nodes_witness :
  anchored (node Samples.function_f_analysed)
           (clone (magicString Samples.function_f_analysed))
           (fst Samples.function_f_renamed)
  /\ ([("foo", "bar")] = [] -> @nil (string * string) = [] ->
      fst Samples.function_f_renamed = clone (magicString Samples.function_f_analysed)).
Proof.
  assert (H : replaceIdentifiers false Samples.function_f_analysed [("foo", "bar")] []
              = inr (fst Samples.function_f_renamed, snd Samples.function_f_renamed))
    by (vm_compute; reflexivity).
  exact (replaceIdentifiers_edits_sit_on_nodes false Samples.function_f_analysed
           (snd Samples.function_f_renamed) [("foo", "bar")] []
           (fst Samples.function_f_renamed) H).
Defined.

Lemma tag_at_In (tg : scope_tags) (q : path) (s : nat) :
  tag_at tg q = Some s -> In (q, s) tg.
Proof.
  induction tg as [|[q' s'] tg IH]; cbn [tag_at]; [discriminate|].
  destruct (path_eqb q' q) eqn:E.
  - intros [= <-]. apply path_eqb_eq in E. subst. left. reflexivity.
  - intros H. right. apply IH. exact H.
Qed.

(** The witness of C9: [var x = 1;] with the export target [exports.x] is
    overwritten from its start to the end of [x]; [var x = 1, y = 2;] with
    the export target [exports.y] gets the assignment of [y] inserted at
    its end; and the declaration of [for (var i = 0; i < 3; i++) { f(i); }]
    is overwritten by a walk that visits the first child first, which
    enters it before the body of the loop. *)
Lemma top_level_declaration_export_rewrite_witness :
  (exists b' this',
      replaceIdentifiers false Examples.var_x_analysed [] [("x", "exports.x")]
      = inr (b', this')
      /\ Examples.text_edits b' = [Overwrite 0 5 "exports.x"]
      /\ exists b1 b2 first id,
          anchored (node Examples.var_x_analysed) (clone (magicString Examples.var_x_analysed)) b1
          /\ anchored (node Examples.var_x_analysed) b2 b'
          /\ find_child "declarations" 0 (children_of Examples.var_x) = Some first
          /\ find_child "id" 0 (children_of (snd first)) = Some id
          /\ if Nat.eqb (List.length (childs "declarations" Examples.var_x)) 1
                && truthy_at [("x", "exports.x")] (name_of (snd id))
             then overwrite b1 (start (attrs_of Examples.var_x)) (end_ (attrs_of (snd id)))
                            (key_of (Obj.get [("x", "exports.x")] (name_of (snd id)))) = Some b2
             else exists ids,
                 Forall2 (fun declarator i => child "id" declarator = Some i)
                         (childs "declarations" Examples.var_x) ids
                 /\ let text :=
                      String.concat ""
                        (map (fun nm => (newline ++ key_of (Obj.get [("x", "exports.x")] nm)
                                         ++ " = " ++ nm ++ ";")%string)
                             (filter (truthy_at [("x", "exports.x")]) (map name_of ids))) in
                    b2 = match insert b1 (end_ (attrs_of Examples.var_x)) text with
                         | Some b => b
                         | None => append b1 text
                         end)
  /\ (exists b' this',
      replaceIdentifiers true Samples.var_x_y_analysed [] [("y", "exports.y")]
      = inr (b', this')
      /\ Examples.text_edits b' = [Insert 17 (newline ++ "exports.y = y;")%string]
      /\ exists b1 b2 first id,
          anchored (node Samples.var_x_y_analysed) (clone (magicString Samples.var_x_y_analysed)) b1
          /\ anchored (node Samples.var_x_y_analysed) b2 b'
          /\ find_child "declarations" 0 (children_of Examples.var_x_y) = Some first
          /\ find_child "id" 0 (children_of (snd first)) = Some id
          /\ if Nat.eqb (List.length (childs "declarations" Examples.var_x_y)) 1
                && truthy_at [("y", "exports.y")] (name_of (snd id))
             then overwrite b1 (start (attrs_of Examples.var_x_y)) (end_ (attrs_of (snd id)))
                            (key_of (Obj.get [("y", "exports.y")] (name_of (snd id)))) = Some b2
             else exists ids,
                 Forall2 (fun declarator i => child "id" declarator = Some i)
                         (childs "declarations" Examples.var_x_y) ids
                 /\ let text :=
                      String.concat ""
                        (map (fun nm => (newline ++ key_of (Obj.get [("y", "exports.y")] nm)
                                         ++ " = " ++ nm ++ ";")%string)
                             (filter (truthy_at [("y", "exports.y")]) (map name_of ids))) in
                    b2 = match insert b1 (end_ (attrs_of Examples.var_x_y)) text with
                         | Some b => b
                         | None => append b1 text
                         end)
  /\ (exists b' this',
      replaceIdentifiers false Samples.for_loop_analysed [] [("i", "exports.i")]
      = inr (b', this')
      /\ Examples.text_edits b' = [Overwrite 5 10 "exports.i"]
      /\ exists b1 b2 first id,
          anchored (node Samples.for_loop_analysed) (clone (magicString Samples.for_loop_analysed)) b1
          /\ anchored (node Samples.for_loop_analysed) b2 b'
          /\ find_child "declarations" 0 (children_of Samples.var_i) = Some first
          /\ find_child "id" 0 (children_of (snd first)) = Some id
          /\ if Nat.eqb (List.length (childs "declarations" Samples.var_i)) 1
                && truthy_at [("i", "exports.i")] (name_of (snd id))
             then overwrite b1 (start (attrs_of Samples.var_i)) (end_ (attrs_of (snd id)))
                            (key_of (Obj.get [("i", "exports.i")] (name_of (snd id)))) = Some b2
             else exists ids,
                 Forall2 (fun declarator i => child "id" declarator = Some i)
                         (childs "declarations" Samples.var_i) ids
                 /\ let text :=
                      String.concat ""
                        (map (fun nm => (newline ++ key_of (Obj.get [("i", "exports.i")] nm)
                                         ++ " = " ++ nm ++ ";")%string)
                             (filter (truthy_at [("i", "exports.i")]) (map name_of ids))) in
                    b2 = match insert b1 (end_ (attrs_of Samples.var_i)) text with
                         | Some b => b
                         | None => append b1 text
                         end).
Proof.
  assert (Hroot : forall (q r : path) (a : estree) (n : estree),
             @nil nat = q ++ r -> r <> [] -> node_at n q = Some a ->
             type_is a "VariableDeclaration" = false).
  { intros q r a n H Hr. destruct q; destruct r; try discriminate H. contradiction. }
  split; [|split].
  - destruct (replaceIdentifiers false Examples.var_x_analysed [] [("x", "exports.x")])
      as [e|[b' this']] eqn:E; [vm_compute in E; discriminate|].
    exists b', this'. split; [reflexivity|].
    split; [vm_compute in E; injection E as <- _; reflexivity|].
    apply (top_level_declaration_export_rewrite false Examples.var_x_analysed this'
             [] [("x", "exports.x")] b' [] Examples.var_x E).
    + right. discriminate.
    + reflexivity.
    + reflexivity.
    + intros q s H. vm_compute in H. discriminate.
    + intros q H. vm_compute in H. discriminate.
    + intros q r a. apply Hroot.
  - destruct (replaceIdentifiers true Samples.var_x_y_analysed [] [("y", "exports.y")])
      as [e|[b' this']] eqn:E; [vm_compute in E; discriminate|].
    exists b', this'. split; [reflexivity|].
    split; [vm_compute in E; injection E as <- _; reflexivity|].
    apply (top_level_declaration_export_rewrite true Samples.var_x_y_analysed this'
             [] [("y", "exports.y")] b' [] Examples.var_x_y E).
    + right. discriminate.
    + reflexivity.
    + reflexivity.
    + intros q s H. vm_compute in H. discriminate.
    + intros q H. vm_compute in H. discriminate.
    + intros q r a. apply Hroot.
  - assert (E : replaceIdentifiers false Samples.for_loop_analysed [] [("i", "exports.i")]
                = inr (fst Samples.for_loop_exported, snd Samples.for_loop_exported))
      by (vm_compute; reflexivity).
    assert (Htags : tags Samples.for_loop_analysed = [([3], 1)])
      by (vm_compute; reflexivity).
    assert (Hflags : flags Samples.for_loop_analysed = []) by (vm_compute; reflexivity).
    assert (Hnode : node Samples.for_loop_analysed = Samples.for_loop)
      by (vm_compute; reflexivity).
    exists (fst Samples.for_loop_exported), (snd Samples.for_loop_exported).
    split; [exact E|]. split; [vm_compute; reflexivity|].
    apply (top_level_declaration_export_rewrite false Samples.for_loop_analysed
             (snd Samples.for_loop_exported) [] [("i", "exports.i")]
             (fst Samples.for_loop_exported) [0] Samples.var_i E).
    + right. discriminate.
    + vm_compute. reflexivity.
    + reflexivity.
    + intros q s H. rewrite Htags in H. apply tag_at_In in H.
      destruct H as [H|[]]. injection H as <- _.
      intros [(r & _ & Hr)|(c & i & j & rq & rp & Hq & Hp & Hlt)].
      * discriminate Hr.
      * destruct c as [|x c].
        -- injection Hq as <- _. injection Hp as <- _. inversion Hlt.
        -- injection Hq as _ Hq. destruct c; discriminate Hq.
    + intros q H. rewrite Hflags in H. discriminate H.
    + intros q r a Hp Hr Hq. rewrite Hnode in Hq. destruct q as [|x q].
      * injection Hq as <-. reflexivity.
      * injection Hp as _ Hp. destruct q; destruct r; try discriminate Hp. contradiction.
Defined.

(** The identifier of a shorthand property is renamed where the walk meets
    it as the key and again where it meets it as the value: the buffer
    refuses the second overwrite and the call fails. *)
Lemma shorthand_property_is_renamed_twice (reverse : bool) :
  exists st,
    Examples.analysed reverse Samples.shorthand_property [] = inr st
    /\ Obj.keys (defines st) = ["o"]
    /\ flag (dependsOn st) "a" = true
    /\ replaceIdentifiers reverse st [("a", "b")] [] = inl BufferError.
Proof.
  destruct reverse; eexists; (split; [vm_compute; reflexivity|]); repeat split; reflexivity.
Qed.

(** The export rewrite depends on the walk being at the outermost nesting
    when it enters the declaration: in [for (var i = 0; i < 3; i++) { f(i); }]
    the body comes after the declaration in the text, and a walk that
    visits the last child first has entered its scope before it enters the
    declaration, which it then leaves as it is. *)
Lemma export_rewrite_needs_the_outermost_nesting :
  (exists st b st',
      Examples.analysed true Samples.for_loop [] = inr st
      /\ replaceIdentifiers true st [] [("i", "exports.i")] = inr (b, st')
      /\ Examples.text_edits b = [])
  /\ (exists st b st',
         Examples.analysed false Samples.for_loop [] = inr st
         /\ replaceIdentifiers false st [] [("i", "exports.i")] = inr (b, st')
         /\ Examples.text_edits b = [Overwrite 5 10 "exports.i"]).
Proof.
  split; do 3 eexists; (split; [vm_compute; reflexivity|]);
    (split; [vm_compute; reflexivity|]); reflexivity.
Qed.
